(** * rippled-network-crawler: a shallow embedding of [src/crawler.js]

    The development follows the source file top to bottom:

    - JavaScript values as the crawler meets them in rippled responses
      (undefined, null, booleans, integers, strings), with truthiness, string
      conversion and [String.prototype.split];
    - the module constants and helpers ([abortIfNot], [withDefaultPort],
      [crawlUrl], [normalizePubKey], [normalizeIpp]);
    - the [Crawler] object, its methods and the event loop that delivers the
      responses of the outstanding requests;
    - the properties of the design document, one theorem each.

    Conventions.  A JavaScript object used as a dictionary is a [gmap] when
    the code only reads and writes single keys, and an association list in
    the order in which its keys were created when the code enumerates it
    ([Object.keys] on the [queued] object, which lists the keys that are
    array indices first).  The dictionaries are plain objects: reading a key
    that the object does not own finds the member of [Object.prototype] of
    that name, when there is one.  An assignment creates or updates an own
    property; the one key for which JavaScript does otherwise, [__proto__],
    is never assigned by a traversal ([reachable_keys_own]), and in
    [savePeerData], where the keys come from outside, it is treated apart.
    Numbers are integers (ports, counters); the code of an error is any
    value, [undefined] when the error has none.  Strings are sequences of
    characters with codes below 256.  Statements that may throw or leave the
    process run in a state-and-outcome monad in which the state reached
    before the throw is kept.  The transport answers a request in a later
    turn of the event loop, never inside the call that issues it. *)

From Stdlib Require Import ZArith String Ascii List Lia Bool.
From stdpp Require Import gmap strings list fin_maps pretty.

Open Scope Z_scope.
Open Scope string_scope.

(** ** JavaScript values *)

Inductive jsval : Type :=
| JUndefined
| JNull
| JBool (b : bool)
| JNum (n : Z)
| JStr (s : string).

#[global] Instance jsval_eq_dec : EqDecision jsval.
Proof. solve_decision. Defined.

(** [ToBoolean]: what [if (v)] and [v || w] test. *)
Definition truthy (v : jsval) : bool :=
  match v with
  | JUndefined | JNull => false
  | JBool b => b
  | JNum n => negb (n =? 0)%Z
  | JStr s => negb (String.eqb s "")
  end.

(** [ToString]: what [s + v] appends for a string [s]. *)
Definition ToString (v : jsval) : string :=
  match v with
  | JUndefined => "undefined"
  | JNull => "null"
  | JBool true => "true"
  | JBool false => "false"
  | JNum n => pretty n
  | JStr s => s
  end.

(** [a || b] *)
Definition js_or (a b : jsval) : jsval := if truthy a then a else b.

(** [s.split(sep)] for a one-character separator: the segments between the
    occurrences of [sep], in order; a string without [sep] is one segment. *)
Fixpoint split (sep : ascii) (s : string) : list string :=
  match s with
  | EmptyString => [EmptyString]
  | String c s' =>
      if Ascii.eqb c sep then EmptyString :: split sep s'
      else match split sep s' with
           | seg :: segs => String c seg :: segs
           | [] => [String c EmptyString]
           end
  end.

(** [arr[i]] on an array of strings: [undefined] past the end. *)
Definition js_index (arr : list string) (i : nat) : jsval :=
  match arr !! i with
  | Some s => JStr s
  | None => JUndefined
  end.

(** [s.indexOf(':') !== -1] *)
Fixpoint has_colon (s : string) : bool :=
  match s with
  | EmptyString => false
  | String c s' => if Ascii.eqb c ":" then true else has_colon s'
  end.

(** ** Outcomes of a call *)

Inductive JsError : Type :=
| ReferenceError (msg : string)
| TypeError (msg : string)
| Error (msg : string)
| SjclInvalid (msg : string).

(** A call returns, throws, or ends the process ([process.exit()] after the
    message was written to the error console). *)
Inductive outcome (A : Type) : Type :=
| Ok (a : A)
| Throw (e : JsError)
| Exit (msg : string).

Arguments Ok {A} a.
Arguments Throw {A} e.
Arguments Exit {A} msg.

(** State-and-outcome monad: the state is threaded through, and survives a
    throw. *)
Definition M (S A : Type) : Type := S -> S * outcome A.

Definition ret {S A} (a : A) : M S A := fun s => (s, Ok a).

Definition bind {S A B} (m : M S A) (f : A -> M S B) : M S B :=
  fun s =>
    match m s with
    | (s', Ok a) => f a s'
    | (s', Throw e) => (s', Throw e)
    | (s', Exit msg) => (s', Exit msg)
    end.

Definition throw {S A} (e : JsError) : M S A := fun s => (s, Throw e).
Definition exit {S A} (msg : string) : M S A := fun s => (s, Exit msg).
Definition get {S} : M S S := fun s => (s, Ok s).
Definition modify {S} (f : S -> S) : M S unit := fun s => (f s, Ok tt).

Notation "'let*' x ':=' m 'in' k" := (bind m (fun x => k))
  (at level 10, x name, m at level 100, k at level 200).
Notation "m ';>' k" := (bind m (fun _ => k))
  (at level 100, k at level 200, right associativity).

(** [arr.forEach(f)] *)
Fixpoint forEach {S A} (arr : list A) (f : A -> M S unit) : M S unit :=
  match arr with
  | [] => ret tt
  | x :: rest => f x ;> forEach rest f
  end.

(** ** Module constants *)

Definition QUEUED : Z := 1.
Definition REQUESTING : Z := 2.
Definition DEFAULT_PORT : Z := 51235.

(** ** Module-level variables

    [normalizeIpp] assigns [out_ip], [out_port] and [ipp] without declaring
    them, so they are properties of the global object: [None] until the
    first assignment (reading such a name throws a [ReferenceError]), and
    shared by all calls afterwards. *)
Record Globals : Type := mkGlobals {
  out_ip : option jsval;
  out_port : option jsval;
  ipp : option jsval
}.

Definition no_globals : Globals := mkGlobals None None None.

(** ** Helpers *)

Definition withDefaultPort (domainOrIp : string) : string :=
  if has_colon domainOrIp then domainOrIp
  else domainOrIp ++ ":" ++ ToString (JNum DEFAULT_PORT).

Definition crawlUrl (domainOrIp : string) : string :=
  "https://" ++ withDefaultPort domainOrIp ++ "/crawl".

(** [normalizeIpp(ip, port)].  [ip.split] exists on strings only. *)
Definition normalizeIpp (ip port : jsval) : M Globals jsval :=
  if truthy ip then
    match ip with
    | JStr s =>
        let split := split ":" s in
        let splitIp := js_index split 0 in
        let splitPort := js_index split 1 in
        let out_ip := splitIp in
        let out_port := js_or (js_or port splitPort) (JNum DEFAULT_PORT) in
        let ipp := JStr (ToString out_ip ++ ":" ++ ToString out_port) in
        fun _ => (mkGlobals (Some out_ip) (Some out_port) (Some ipp), Ok ipp)
    | _ => throw (TypeError "ip.split is not a function")
    end
  else
    fun g =>
      match ipp g with
      | Some v => (g, Ok v)
      | None => (g, Throw (ReferenceError "ipp is not defined"))
      end.

(** ** Address notions of the design document

    The host of a raw address is what precedes its first colon; the port
    embedded in it is what lies between the first colon and the next one
    (or the end). *)
Fixpoint before_colon (s : string) : string :=
  match s with
  | EmptyString => EmptyString
  | String c s' => if Ascii.eqb c ":" then EmptyString else String c (before_colon s')
  end.

Fixpoint after_colon (s : string) : option string :=
  match s with
  | EmptyString => None
  | String c s' => if Ascii.eqb c ":" then Some s' else after_colon s'
  end.

Definition embedded_port (rawHost : string) : option string :=
  before_colon <$> after_colon rawHost.

(** explicit parameter > port embedded in [rawHost] > fixed default port *)
Definition port_by_precedence (rawHost : string) (explicitPort : jsval) : string :=
  if truthy explicitPort then ToString explicitPort
  else match embedded_port rawHost with
       | Some p => if String.eqb p "" then pretty DEFAULT_PORT else p
       | None => pretty DEFAULT_PORT
       end.

(** ** Plain objects

    The own properties of an object, in the order in which they were
    created; assigning an existing key keeps its place. *)
Fixpoint obj_get {V} (o : list (string * V)) (k : string) : option V :=
  match o with
  | [] => None
  | (k', v) :: o' => if String.eqb k' k then Some v else obj_get o' k
  end.

Fixpoint obj_set {V} (o : list (string * V)) (k : string) (v : V) : list (string * V) :=
  match o with
  | [] => [(k, v)]
  | (k', v') :: o' =>
      if String.eqb k' k then (k', v) :: o' else (k', v') :: obj_set o' k v
  end.

Fixpoint obj_delete {V} (o : list (string * V)) (k : string) : list (string * V) :=
  match o with
  | [] => []
  | (k', v') :: o' =>
      if String.eqb k' k then obj_delete o' k else (k', v') :: obj_delete o' k
  end.

(** An array index is the decimal numeral, without sign or leading zero, of
    an integer below [2^32 - 1]. *)
Definition digit (c : ascii) : option Z :=
  let n := Z.of_N (N_of_ascii c) in
  if (48 <=? n)%Z && (n <=? 57)%Z then Some (n - 48) else None.

Fixpoint decimal (acc : Z) (s : string) : option Z :=
  match s with
  | EmptyString => Some acc
  | String c s' =>
      match digit c with
      | Some d => decimal (10 * acc + d) s'
      | None => None
      end
  end.

Definition array_index (k : string) : option Z :=
  match k with
  | EmptyString => None
  | String c rest =>
      if Ascii.eqb c "0" && negb (String.eqb rest "") then None
      else match decimal 0 k with
           | Some n => if (n <? 4294967295)%Z then Some n else None
           | None => None
           end
  end.

Definition defined_index (k : string) : bool :=
  match array_index k with
  | Some _ => true
  | None => false
  end.

Fixpoint insert_index (n : Z) (k : string) (l : list (Z * string)) : list (Z * string) :=
  match l with
  | [] => [(n, k)]
  | (m, k') :: l' =>
      if (n <? m)%Z then (n, k) :: l else (m, k') :: insert_index n k l'
  end.

Definition index_keys (keys : list string) : list (Z * string) :=
  fold_right (fun k acc =>
                match array_index k with
                | Some n => insert_index n k acc
                | None => acc
                end) [] keys.

(** [Object.keys(o)]: the keys that are array indices in ascending order,
    then the other keys in the order in which they were created. *)
Definition obj_keys {V} (o : list (string * V)) : list string :=
  (map snd (index_keys (map fst o))
   ++ List.filter (fun k => negb (defined_index k)) (map fst o))%list.

(** The members of [Object.prototype], which every plain object inherits. *)
Definition Object_prototype : list string :=
  ["constructor"; "toString"; "toLocaleString"; "valueOf"; "hasOwnProperty";
   "isPrototypeOf"; "propertyIsEnumerable"; "__defineGetter__";
   "__defineSetter__"; "__lookupGetter__"; "__lookupSetter__"; "__proto__"].

Definition inherited (k : string) : bool :=
  existsb (String.eqb k) Object_prototype.

(** ** Data of a crawl *)

(** One entry of [body.overlay.active]; only [ip] and [port] are read. *)
Record Peer : Type := mkPeer {
  peer_ip : jsval;
  peer_port : jsval
}.

(** A decoded response document: [overlay.active], and the rest of the
    document, which the crawler stores and never inspects. *)
Record Body : Type := mkBody {
  overlay_active : list Peer;
  rest_of_document : string
}.

(** What the transport hands to the callback: [err], of which the crawler
    reads [err.code] ([undefined] for an error without a code), or the
    decoded document. *)
Inductive Response : Type :=
| Failure (code : jsval)
| Success (body : Body).

(** A request handed to the transport and not answered yet, with the
    variables its callback closes over. *)
Record Request : Type := mkRequest {
  url : string;
  req_ipp : string;
  req_hops : Z
}.

Record Crawler : Type := mkCrawler {
  maxRequests : Z;
  currentRequests : Z;
  rawResponses : gmap string Body;
  queued : list (string * Z);
  errors : gmap string jsval;
  peersData : gmap string (gmap string jsval);
  startTime : option string;
  entryIP : option string;
  endTime : option string
}.

(** The argument of the ['done'] event. *)
Module Report.
Record t : Type := mk {
  start : option string;
  end_ : option string;
  entry : option string;
  data : gmap string Body;
  errors : gmap string jsval
}.
End Report.

Inductive Event : Type :=
| EvRequest (resp : Response)
| EvDone (report : Report.t).

(** The process: module variables, the crawler object, the requests the
    transport still owes an answer to, and the events emitted so far. *)
Record World : Type := mkWorld {
  globals : Globals;
  self : Crawler;
  outstanding : list Request;
  emitted : list Event
}.

(** [new Crawler(maxRequests)]; [None] is an omitted argument. *)
Definition new_Crawler (maxRequests : option Z) : Crawler :=
  mkCrawler
    (match maxRequests with
     | Some n => if truthy (JNum n) then n else 30
     | None => 30
     end)
    0 ∅ [] ∅ ∅ None None None.

Definition new_World (g : Globals) (maxRequests : option Z) : World :=
  mkWorld g (new_Crawler maxRequests) [] [].

(** *** Field assignments *)

Definition set_currentRequests (n : Z) (c : Crawler) : Crawler :=
  mkCrawler (maxRequests c) n (rawResponses c) (queued c) (errors c)
            (peersData c) (startTime c) (entryIP c) (endTime c).

Definition set_rawResponses (r : gmap string Body) (c : Crawler) : Crawler :=
  mkCrawler (maxRequests c) (currentRequests c) r (queued c) (errors c)
            (peersData c) (startTime c) (entryIP c) (endTime c).

Definition set_queued (q : list (string * Z)) (c : Crawler) : Crawler :=
  mkCrawler (maxRequests c) (currentRequests c) (rawResponses c) q (errors c)
            (peersData c) (startTime c) (entryIP c) (endTime c).

Definition set_errors (e : gmap string jsval) (c : Crawler) : Crawler :=
  mkCrawler (maxRequests c) (currentRequests c) (rawResponses c) (queued c) e
            (peersData c) (startTime c) (entryIP c) (endTime c).

Definition set_peersData (p : gmap string (gmap string jsval)) (c : Crawler) : Crawler :=
  mkCrawler (maxRequests c) (currentRequests c) (rawResponses c) (queued c)
            (errors c) p (startTime c) (entryIP c) (endTime c).

Definition set_startTime (t : string) (c : Crawler) : Crawler :=
  mkCrawler (maxRequests c) (currentRequests c) (rawResponses c) (queued c)
            (errors c) (peersData c) (Some t) (entryIP c) (endTime c).

Definition set_entryIP (a : string) (c : Crawler) : Crawler :=
  mkCrawler (maxRequests c) (currentRequests c) (rawResponses c) (queued c)
            (errors c) (peersData c) (startTime c) (Some a) (endTime c).

Definition set_endTime (t : string) (c : Crawler) : Crawler :=
  mkCrawler (maxRequests c) (currentRequests c) (rawResponses c) (queued c)
            (errors c) (peersData c) (startTime c) (entryIP c) (Some t).

Definition on_self (f : Crawler -> Crawler) : M World unit :=
  modify (fun w => mkWorld (globals w) (f (self w)) (outstanding w) (emitted w)).

(** Run a computation on the module variables inside the process. *)
Definition on_globals {A} (m : M Globals A) : M World A :=
  fun w =>
    let (g', r) := m (globals w) in
    (mkWorld g' (self w) (outstanding w) (emitted w), r).

(** Hand a request to the transport. *)
Definition request (r : Request) : M World unit :=
  modify (fun w => mkWorld (globals w) (self w) (outstanding w ++ [r]) (emitted w)).

(** [self.emit(...)] *)
Definition emit (e : Event) : M World unit :=
  modify (fun w => mkWorld (globals w) (self w) (outstanding w) (emitted w ++ [e])).

(** An own property is there or not. *)
Definition defined {A} (x : option A) : bool :=
  match x with
  | Some _ => true
  | None => false
  end.

(** [o[k] !== undefined] on a plain object whose own property [k], if
    there is one, is [own] and holds a value that is never [undefined] (a
    status, a document): without an own property the read finds what
    [Object.prototype] has under [k]. *)
Definition has_member {A} (own : option A) (k : string) : bool :=
  defined own || inherited k.

(** [o[k] !== undefined] on a plain object of values: an own property
    that holds [undefined] reads [undefined]. *)
Definition has_value (own : option jsval) (k : string) : bool :=
  match own with
  | Some v => bool_decide (v <> JUndefined)
  | None => inherited k
  end.

(** The own property [k] of an object of values, [undefined] when there is
    none. *)
Definition js_prop (map : gmap string jsval) (k : string) : jsval :=
  default JUndefined (map !! k).

(** ** The crawler's methods

    [DEBUG] is the module's build switch; the source ships with [true]. *)
Section Methods.
Variable DEBUG : bool.

Definition abortIfNot {S} (expression : bool) (message : string) : M S unit :=
  if negb expression then
    if negb DEBUG then throw (Error message)
    else exit message
  else ret tt.

Definition enqueue (ipp : string) : M World unit :=
  let* w := get in
  abortIfNot (negb (has_member (obj_get (queued (self w)) ipp) ipp)) "queued already" ;>
  on_self (fun this => set_queued (obj_set (queued this) ipp QUEUED) this).

Definition dequeue (ipp : string) : M World unit :=
  let* w := get in
  abortIfNot (has_member (obj_get (queued (self w)) ipp) ipp) "not queued already" ;>
  on_self (fun this => set_queued (obj_delete (queued this) ipp) this).

(** The property key of [this.queued[ipp]] is the string of [ipp]. *)
Definition enqueueIfNeeded (ipp : jsval) : M World unit :=
  if truthy ipp then
    let key := ToString ipp in
    let* w := get in
    if negb (has_member (rawResponses (self w) !! key) key)
       && negb (has_member (obj_get (queued (self w)) key) key)
       && negb (has_value (errors (self w) !! key) key)
    then enqueue key
    else ret tt
  else ret tt.

(** [crawlRequest(ip, onResponse)]: the request goes to the transport;
    [onResponse] runs when the event loop delivers the answer. *)
Definition crawlRequest (ip : string) (hops : Z) : M World unit :=
  request (mkRequest (crawlUrl ip) ip hops).

Definition crawlOne (ipp : string) (hops : Z) : M World unit :=
  on_self (fun this => set_currentRequests (currentRequests this + 1) this) ;>
  crawlRequest ipp hops.

Definition crawl (ipp : string) (hops : Z) : M World unit :=
  on_self (fun this => set_queued (obj_set (queued this) ipp REQUESTING) this) ;>
  crawlOne ipp hops.

(** One turn of the [forEach] of [requestMore]; [return false] inside the
    callback only ends that turn. *)
Definition requestMore_turn (hops : Z) (queuedIpp : string) : M World unit :=
  let* w := get in
  if (currentRequests (self w) <? maxRequests (self w))%Z then
    if bool_decide (obj_get (queued (self w)) queuedIpp = Some QUEUED)
    then crawl queuedIpp (hops + 1)
    else ret tt
  else ret tt.

Definition requestMore (hops : Z) : M World bool :=
  let* w := get in
  let ipps := obj_keys (queued (self w)) in
  forEach ipps (requestMore_turn hops) ;>
  ret (negb (length ipps =? 0)%nat).

(** The callback of [crawl], first half: the answer is recorded and the
    peers it names are offered to the queue. *)
Definition crawl_record (ipp : string) (resp : Response) : M World unit :=
  dequeue ipp ;>
  match resp with
  | Failure code =>
      on_self (fun this => set_errors (<[ipp := code]> (errors this)) this)
  | Success body =>
      on_self (fun this => set_rawResponses (<[ipp := body]> (rawResponses this)) this) ;>
      forEach (overlay_active body) (fun p =>
        let* a := on_globals (normalizeIpp (peer_ip p) (peer_port p)) in
        enqueueIfNeeded a)
  end.

Definition the_report (this : Crawler) : Report.t :=
  Report.mk (startTime this) (endTime this) (entryIP this)
            (rawResponses this) (errors this).

(** The callback of [crawl], second half: [if (!self.requestMore(hops))];
    [now] is what [moment().format()] returns. *)
Definition crawl_more (hops : Z) (now : string) : M World unit :=
  let* more := requestMore hops in
  if negb more then
    on_self (set_endTime now) ;>
    let* w := get in
    emit (EvDone (the_report (self w)))
  else ret tt.

Definition crawl_callback (ipp : string) (hops : Z) (now : string)
    (resp : Response) : M World unit :=
  crawl_record ipp resp ;> crawl_more hops now.

(** The callback that [crawlOne] hands to [crawlRequest]. *)
Definition crawlOne_callback (r : Request) (now : string) (resp : Response) : M World unit :=
  on_self (fun this => set_currentRequests (currentRequests this - 1) this) ;>
  emit (EvRequest resp) ;>
  crawl_callback (req_ipp r) (req_hops r) now resp.

Definition enter (ip : string) (now : string) : M World unit :=
  on_self (set_startTime now) ;>
  on_self (set_entryIP (withDefaultPort ip)) ;>
  crawl (withDefaultPort ip) 0.

(** The event loop answers the [i]-th outstanding request. *)
Definition deliver (i : nat) (now : string) (resp : Response) : M World unit :=
  let* w := get in
  match outstanding w !! i with
  | None => ret tt
  | Some r =>
      modify (fun w => mkWorld (globals w) (self w) (delete i (outstanding w)) (emitted w)) ;>
      crawlOne_callback r now resp
  end.

End Methods.

(** What a fatal contract violation does in either build. *)
Definition fatal (DEBUG : bool) (message : string) : outcome unit :=
  if DEBUG then Exit message else Throw (Error message).

(** [savePeerData(pk, data, defaults)]: [data] lists the own properties of
    the view in the order [_.forOwn] visits them; [map] is the record stored
    under [pk], a plain object created empty at the first view.

    One visit.  [map[k] !== undefined] also finds the members of
    [Object.prototype].  [map[k] = v] creates or updates an own property,
    except for a key [__proto__] that the record does not own: that
    assignment runs the setter of [Object.prototype], which does nothing
    for a value that is neither an object nor [null], and which for [null]
    cuts the record off from [Object.prototype]; what the record reads
    from then on is not followed here: [None]. *)
Definition savePeerData_visit (defaults : jsval) (map : gmap string jsval)
    (kv : string * jsval) : option (gmap string jsval) :=
  let (k, v) := kv in
  if String.eqb k "type" || (truthy defaults && has_value (map !! k) k)
  then Some map
  else if String.eqb k "__proto__" && negb (defined (map !! k))
  then match v with
       | JNull => None
       | _ => Some map
       end
  else Some (<[k := v]> map).

(** [_.forOwn(data, ...)] *)
Fixpoint savePeerData_forOwn (defaults : jsval) (data : list (string * jsval))
    (map : gmap string jsval) : option (gmap string jsval) :=
  match data with
  | [] => Some map
  | kv :: rest =>
      match savePeerData_visit defaults map kv with
      | Some map' => savePeerData_forOwn defaults rest map'
      | None => None
      end
  end.

(** [this.peersData[pk] !== undefined] also holds for a [pk] that names a
    member of [Object.prototype]: no record is created then, and the view
    is written onto that member, an object that the whole process shares
    and that is no part of the crawler: [None]. *)
Definition savePeerData (pk : string) (data : list (string * jsval))
    (defaults : jsval) (this : Crawler) : option Crawler :=
  match peersData this !! pk with
  | None =>
      if inherited pk then None
      else
        match savePeerData_forOwn defaults data ∅ with
        | Some record => Some (set_peersData (<[pk := record]> (peersData this)) this)
        | None => None
        end
  | Some map =>
      match savePeerData_forOwn defaults data map with
      | Some record => Some (set_peersData (<[pk := record]> (peersData this)) this)
      | None => None
      end
  end.

(** ** The key codecs that [normalizePubKey] calls

    [sjcl] and [ripple-lib] are dependencies of the crawler; what follows is
    the part of them that [normalizePubKey] runs.  Bytes are integers below
    256. *)
Abbreviation bytes_in_range := (Forall (fun b : Z => 0 <= b < 256)).

(** SHA-256 (FIPS 180-4) on 32-bit words held in [Z]. *)
Module Sha256.

Definition w32 (x : Z) : Z := x mod 2 ^ 32.
Definition add32 (x y : Z) : Z := w32 (x + y).
Definition rotr (n x : Z) : Z :=
  Z.lor (Z.shiftr x n) (w32 (Z.shiftl x (32 - n))).
Definition not32 (x : Z) : Z := w32 (Z.lnot x).

Definition Ch (x y z : Z) : Z := Z.lxor (Z.land x y) (Z.land (not32 x) z).
Definition Maj (x y z : Z) : Z :=
  Z.lxor (Z.lxor (Z.land x y) (Z.land x z)) (Z.land y z).
Definition Sigma0 (x : Z) : Z := Z.lxor (Z.lxor (rotr 2 x) (rotr 13 x)) (rotr 22 x).
Definition Sigma1 (x : Z) : Z := Z.lxor (Z.lxor (rotr 6 x) (rotr 11 x)) (rotr 25 x).
Definition sigma0 (x : Z) : Z := Z.lxor (Z.lxor (rotr 7 x) (rotr 18 x)) (Z.shiftr x 3).
Definition sigma1 (x : Z) : Z := Z.lxor (Z.lxor (rotr 17 x) (rotr 19 x)) (Z.shiftr x 10).

Definition K : list Z :=
  [ 1116352408; 1899447441; 3049323471; 3921009573; 961987163; 1508970993;
    2453635748; 2870763221; 3624381080; 310598401; 607225278; 1426881987;
    1925078388; 2162078206; 2614888103; 3248222580; 3835390401; 4022224774;
    264347078; 604807628; 770255983; 1249150122; 1555081692; 1996064986;
    2554220882; 2821834349; 2952996808; 3210313671; 3336571891; 3584528711;
    113926993; 338241895; 666307205; 773529912; 1294757372; 1396182291;
    1695183700; 1986661051; 2177026350; 2456956037; 2730485921; 2820302411;
    3259730800; 3345764771; 3516065817; 3600352804; 4094571909; 275423344;
    430227734; 506948616; 659060556; 883997877; 958139571; 1322822218;
    1537002063; 1747873779; 1955562222; 2024104815; 2227730452; 2361852424;
    2428436474; 2756734187; 3204031479; 3329325298 ].

Definition H0 : list Z :=
  [ 1779033703; 3144134277; 1013904242; 2773480762;
    1359893119; 2600822924; 528734635; 1541459225 ].

Definition at_ (l : list Z) (i : nat) : Z := nth i l 0.

(** The [n] low bytes of [x], most significant first. *)
Definition be_bytes (n : nat) (x : Z) : list Z :=
  map (fun i => Z.shiftr x (8 * Z.of_nat i) mod 256) (rev (seq 0 n)).

(** The message is followed by the byte 128, by zero bytes up to 56
    modulo 64, and by its length in bits on eight bytes. *)
Definition pad (msg : list Z) : list Z :=
  let len := Z.of_nat (length msg) in
  let zeros := Z.to_nat ((55 - len) mod 64) in
  (msg ++ [128] ++ repeat 0 zeros ++ be_bytes 8 (8 * len))%list.

Fixpoint be_words (fuel : nat) (bytes : list Z) : list Z :=
  match fuel, bytes with
  | S fuel', b0 :: b1 :: b2 :: b3 :: rest =>
      (((b0 * 256 + b1) * 256 + b2) * 256 + b3) :: be_words fuel' rest
  | _, _ => []
  end.

(** The message schedule, word 16 onwards appended one at a time. *)
Fixpoint schedule (n : nat) (W : list Z) : list Z :=
  match n with
  | O => W
  | S n' =>
      let t := length W in
      let w := add32 (add32 (sigma1 (at_ W (t - 2))) (at_ W (t - 7)))
                     (add32 (sigma0 (at_ W (t - 15))) (at_ W (t - 16))) in
      schedule n' (W ++ [w])%list
  end.

Definition round (W : list Z) (v : list Z) (t : nat) : list Z :=
  match v with
  | [a; b; c; d; e; f; g; h] =>
      let T1 := add32 (add32 (add32 h (Sigma1 e)) (add32 (Ch e f g) (at_ K t))) (at_ W t) in
      let T2 := add32 (Sigma0 a) (Maj a b c) in
      [add32 T1 T2; a; b; c; add32 d T1; e; f; g]
  | _ => v
  end.

Definition compress (H : list Z) (block : list Z) : list Z :=
  let W := schedule 48 block in
  let v := fold_left (round W) (seq 0 64) H in
  map (fun p => add32 (fst p) (snd p)) (combine H v).

Fixpoint blocks (fuel : nat) (H : list Z) (words : list Z) : list Z :=
  match fuel, words with
  | S fuel', _ :: _ => blocks fuel' (compress H (firstn 16 words)) (skipn 16 words)
  | _, _ => H
  end.

(** Modelled from the spec: the digest behind the four check bytes of
    [ripple.Base.encode_check], which calls [sjcl.hash.sha256]; [sjcl] is
    not among the crawler's sources. *)
Definition hash (msg : list Z) : list Z :=
  let padded := pad msg in
  let words := be_words (length padded) padded in
  flat_map (be_bytes 4) (blocks (length words) H0 words).

End Sha256.

(** The base64 codec of [sjcl]. *)
Module Sjcl.

Definition chars : string :=
  "ABCDEFGHIJKLMNOPQRSTUVWXYZabcdefghijklmnopqrstuvwxyz0123456789+/".

Fixpoint indexOf (c : ascii) (s : string) : option Z :=
  match s with
  | EmptyString => None
  | String c' s' => if Ascii.eqb c' c then Some 0 else Z.succ <$> indexOf c s'
  end.

(** [str.replace(/\s|=/g, '')] *)
Definition dropped (c : ascii) : bool :=
  existsb (Ascii.eqb c) [" "; "009"; "010"; "011"; "012"; "013"; "160"; "="]%char.

(** [ta] holds [bits] pending bits. *)
Fixpoint decode (str : string) (ta : Z) (bits : Z) : option (list Z) :=
  match str with
  | EmptyString => Some []
  | String c rest =>
      if dropped c then decode rest ta bits
      else
        match indexOf c chars with
        | None => None
        | Some x =>
            let ta' := ta * 64 + x in
            let bits' := bits + 6 in
            if (8 <=? bits')%Z then
              cons (Z.shiftr ta' (bits' - 8))
                <$> decode rest (ta' mod 2 ^ (bits' - 8)) (bits' - 8)
            else decode rest ta' bits'
        end
  end.

(** Modelled from the spec: "decode as base64 bytes", as
    [sjcl.codec.bytes.fromBits(sjcl.codec.base64.toBits(str))] does it
    ([sjcl] is not among the crawler's sources): white space and [=] are
    dropped, six bits are taken per character and the whole bytes among
    them returned; [None] stands for the exception thrown on a character
    outside the alphabet. *)
Definition base64_bytes (str : string) : option (list Z) := decode str 0 0.

End Sjcl.

(** The base 58 codec of [ripple-lib]. *)
Module Base.

Definition VER_NODE_PUBLIC : Z := 28.

Definition alphabet : string :=
  "rpshnaf39wBUDNEGHJKLM4PQRST7VWXYZ2bcdeCg65jkm8oFqi1tuvAxyz".

Definition letter (i : Z) : ascii :=
  default "r"%char (String.get (Z.to_nat i) alphabet).

(** Remainders of the divisions by 58, last digit first. *)
Fixpoint digits (fuel : nat) (value : Z) : list ascii :=
  match fuel with
  | O => []
  | S fuel' =>
      if (0 <? value)%Z
      then letter (value mod 58) :: digits fuel' (value / 58)
      else []
  end.

Fixpoint leading_zeros (input : list Z) : list ascii :=
  match input with
  | 0%Z :: rest => letter 0 :: leading_zeros rest
  | _ => []
  end.

Definition encode (input : list Z) : string :=
  let value := fold_left (fun acc b => acc * 256 + b) input 0 in
  let buffer := (digits (8 * length input)%nat value ++ leading_zeros input)%list in
  string_of_list_ascii (rev buffer).

(** Modelled from the spec: "re-encode with the node-public-key version
    tag", as [ripple.Base.encode_check] does it ([ripple-lib] is not among
    the crawler's sources): version byte, payload and the first four bytes
    of the double SHA-256 of both, written in base 58 with the Ripple
    alphabet; every leading zero byte gives one leading first letter. *)
Definition encode_check (version : Z) (input : list Z) : string :=
  let buffer := version :: input in
  let check := firstn 4 (Sha256.hash (Sha256.hash buffer)) in
  encode (buffer ++ check)%list.

End Base.

(** [normalizePubKey(pubKeyStr)]; on a character that is not base64 [sjcl]
    throws its own [sjcl.exception.invalid]. *)
Definition normalizePubKey (pubKeyStr : string) : outcome string :=
  if (50 <? String.length pubKeyStr)%nat
     && bool_decide (String.get 0 pubKeyStr = Some "n"%char)
  then Ok pubKeyStr
  else
    match Sjcl.base64_bytes pubKeyStr with
    | None => Throw (SjclInvalid "this isn't base64!")
    | Some bytes => Ok (Base.encode_check Base.VER_NODE_PUBLIC bytes)
    end.

(** A canonical key: more than 50 characters, the first one [n]. *)
Definition canonical (key : string) : bool :=
  (50 <? String.length key)%nat
  && bool_decide (String.get 0 key = Some "n"%char).

(** ** Node states of the design document, read off the three maps *)

Inductive NodeState : Type :=
| Unseen
| Queued
| InFlight
| Done_success (response : Body)
| Done_failure (code : jsval).

Definition node_state (this : Crawler) (addr : string) : NodeState :=
  match obj_get (queued this) addr with
  | Some status => if (status =? REQUESTING)%Z then InFlight else Queued
  | None =>
      match rawResponses this !! addr with
      | Some body => Done_success body
      | None =>
          match errors this !! addr with
          | Some code => Done_failure code
          | None => Unseen
          end
      end
  end.

(** The edges of the lifecycle: [Unseen → Queued → InFlight → Done]. *)
Inductive lifecycle : NodeState -> NodeState -> Prop :=
| lc_discover : lifecycle Unseen Queued
| lc_admit : lifecycle Queued InFlight
| lc_success body : lifecycle InFlight (Done_success body)
| lc_failure code : lifecycle InFlight (Done_failure code).

(** [addr] is a key of one of results, errors, queue. *)
Definition tracked (this : Crawler) (addr : string) : bool :=
  defined (rawResponses this !! addr)
  || defined (obj_get (queued this) addr)
  || defined (errors this !! addr).

(** What [enqueueIfNeeded] finds out about an address: one of
    [rawResponses[addr]], [queued[addr]] and [errors[addr]] is not
    [undefined]. *)
Definition seen (this : Crawler) (addr : string) : bool :=
  has_member (rawResponses this !! addr) addr
  || has_member (obj_get (queued this) addr) addr
  || has_value (errors this !! addr) addr.

(** A call moves every address by at most one edge of the lifecycle. *)
Definition respects_lifecycle (call : M World unit) (w : World) : Prop :=
  forall w' addr,
    call w = (w', Ok tt) ->
    node_state (self w) addr = node_state (self w') addr
    \/ lifecycle (node_state (self w) addr) (node_state (self w') addr).

(** ** Traversals

    A traversal starts with [enter] on a new crawler and proceeds by the
    event loop answering outstanding requests, in any order, with any
    response. *)
Inductive reachable (DEBUG : bool) : World -> Prop :=
| reach_enter g maxRequests ip now w :
    enter ip now (new_World g maxRequests) = (w, Ok tt) ->
    reachable DEBUG w
| reach_deliver w i now resp w' :
    reachable DEBUG w ->
    is_Some (outstanding w !! i) ->
    deliver DEBUG i now resp w = (w', Ok tt) ->
    reachable DEBUG w'.

(** One event of a process that crawls: a response is delivered, an
    address is offered to the queue, or an address is normalised. *)
Definition progress (DEBUG : bool) (w w' : World) : Prop :=
  (exists i now resp, deliver DEBUG i now resp w = (w', Ok tt))
  \/ (exists addr, enqueueIfNeeded DEBUG addr w = (w', Ok tt))
  \/ (exists ip port r, on_globals (normalizeIpp ip port) w = (w', r)).

(** ** Relating the state before and after a call

    [related R m]: whatever the outcome of [m], the state it leaves is
    [R]-related to the state it found. *)
Definition related {S A} (R : S -> S -> Prop) (m : M S A) : Prop :=
  forall s s' r, m s = (s', r) -> R s s'.

(** ** The parts of one delivery

    [with_queued]: an address has been appended to the queue.  [taken]: the
    request has left the transport, the counter is decremented
    and ['request'] emitted.  [stored]: the answered address has left the
    queue and its answer is in [errors] or [rawResponses].  [offer_peers]:
    the loop over [body.overlay.active].  [finalized]: [endTime] is set and
    ['done'] emitted. *)
Definition with_queued (addr : string) (w : World) : World :=
  mkWorld (globals w)
          (set_queued (queued (self w) ++ [(addr, QUEUED)]) (self w))
          (outstanding w) (emitted w).

Definition taken (i : nat) (resp : Response) (w : World) : World :=
  mkWorld (globals w)
          (set_currentRequests (currentRequests (self w) - 1) (self w))
          (delete i (outstanding w))
          (emitted w ++ [EvRequest resp]).

Definition stored (addr : string) (resp : Response) (w : World) : World :=
  let this := set_queued (obj_delete (queued (self w)) addr) (self w) in
  mkWorld (globals w)
          match resp with
          | Failure code => set_errors (<[addr := code]> (errors this)) this
          | Success body => set_rawResponses (<[addr := body]> (rawResponses this)) this
          end
          (outstanding w) (emitted w).

Definition offer_peers (DEBUG : bool) (resp : Response) : M World unit :=
  match resp with
  | Failure _ => ret tt
  | Success body =>
      forEach (overlay_active body) (fun p =>
        let* a := on_globals (normalizeIpp (peer_ip p) (peer_port p)) in
        enqueueIfNeeded DEBUG a)
  end.

Definition finalized (now : string) (w : World) : World :=
  let this := set_endTime now (self w) in
  mkWorld (globals w) this (outstanding w) (emitted w ++ [EvDone (the_report this)]).

Definition crawled (addr : string) (hops : Z) (w : World) : World :=
  mkWorld (globals w)
          (set_currentRequests (currentRequests (self w) + 1)
             (set_queued (obj_set (queued (self w)) addr REQUESTING) (self w)))
          (outstanding w ++ [mkRequest (crawlUrl addr) addr hops])
          (emitted w).

Definition done_of (resp : Response) : NodeState :=
  match resp with
  | Failure code => Done_failure code
  | Success body => Done_success body
  end.

(** Done with a document, or with an error that has a code. *)
Definition settled (s : NodeState) : Prop :=
  match s with
  | Done_success _ => True
  | Done_failure code => code <> JUndefined
  | _ => False
  end.

(** What holds of the queue and the transport throughout a traversal: the
    outstanding requests are for distinct addresses, each marked
    [REQUESTING] in the queue; an address in the queue has no stored
    response; the counter counts the outstanding requests. *)
Record consistent (w : World) : Prop := mkConsistent {
  requests_distinct : NoDup (req_ipp <$> outstanding w);
  requests_marked : forall r, r ∈ outstanding w ->
      obj_get (queued (self w)) (req_ipp r) = Some REQUESTING;
  queued_unanswered : forall addr, obj_get (queued (self w)) addr <> None ->
      rawResponses (self w) !! addr = None;
  requests_counted : Z.of_nat (length (outstanding w)) = currentRequests (self w)
}.

(** ** Relations between the worlds of a traversal

    A relation that every elementary change of a traversal establishes
    holds between the worlds before and after any delivery. *)
Record crawl_relation (R : World -> World -> Prop) : Prop := mkCrawlRelation {
  cr_refl : forall w, R w w;
  cr_trans : forall a b c, R a b -> R b c -> R a c;
  cr_globals : forall w g,
      R w (mkWorld g (self w) (outstanding w) (emitted w));
  cr_enqueue : forall w addr,
      seen (self w) addr = false -> R w (with_queued addr w);
  cr_crawl : forall w addr hops,
      currentRequests (self w) < maxRequests (self w) ->
      obj_get (queued (self w)) addr = Some QUEUED ->
      R w (crawled addr hops w);
  cr_answer : forall w i r resp,
      outstanding w !! i = Some r ->
      has_member (obj_get (queued (self w)) (req_ipp r)) (req_ipp r) = true ->
      R w (stored (req_ipp r) resp (taken i resp w));
  cr_finalize : forall w now, R w (finalized now w)
}.

(** A tracked address stays tracked. *)
Definition stays_tracked (w w' : World) : Prop :=
  forall addr, tracked (self w) addr = true -> tracked (self w') addr = true.

(** A settled address keeps its state. *)
Definition settled_is_final (w w' : World) : Prop :=
  forall addr, inherited addr = false ->
               settled (node_state (self w) addr) ->
               node_state (self w') addr = node_state (self w) addr.

Definition same_peersData (w w' : World) : Prop :=
  peersData (self w') = peersData (self w).

Definition keeps (P : World -> Prop) (w w' : World) : Prop := P w -> P w'.

Definition under_cap (w : World) : Prop :=
  1 <= maxRequests (self w) ->
  currentRequests (self w) <= maxRequests (self w).

(** The moves of the first half of a callback, for the addresses other
    than the answered one and other than those whose error had no code:
    none, or [Unseen] to [Queued]. *)
Definition only_discovers (w w' : World) : Prop :=
  forall addr,
    node_state (self w) addr <> Done_failure JUndefined ->
    node_state (self w') addr = node_state (self w) addr
    \/ (node_state (self w) addr = Unseen /\ node_state (self w') addr = Queued).

(** What [requestMore] leaves alone: the keys of the queue, the maps and
    times that go in the report, the events. *)
Definition same_report (w w' : World) : Prop :=
  obj_keys (queued (self w')) = obj_keys (queued (self w))
  /\ the_report (self w') = the_report (self w)
  /\ emitted w' = emitted w.

(** What the first half of a callback leaves alone once the answer is
    stored: the times, the entry address and the events. *)
Definition same_session (w w' : World) : Prop :=
  startTime (self w') = startTime (self w)
  /\ entryIP (self w') = entryIP (self w)
  /\ endTime (self w') = endTime (self w)
  /\ emitted w' = emitted w.

(** ** A sample traversal

    A crawler with cap 1 enters at 10.0.0.1; the entry answers with three
    peer entries, two of them for the same address. *)
Definition sample_body : Body :=
  mkBody [mkPeer (JStr "10.0.0.2") JUndefined;
          mkPeer (JStr "10.0.0.3:6561") JUndefined;
          mkPeer (JStr "10.0.0.2") (JNum 51235)]
         "{}".

Definition sample_entered : World :=
  (enter "10.0.0.1" "2016-01-01T00:00:00Z" (new_World no_globals (Some 1))).1.

Definition sample_answered : World :=
  (deliver true 0 "2016-01-01T00:00:01Z" (Success sample_body) sample_entered).1.

(** The same entry, answered by a failure instead. *)
Definition sample_failed : World :=
  (deliver true 0 "2016-01-01T00:00:05Z" (Failure (JStr "ETIMEDOUT")) sample_entered).1.

(** A traversal in which an error has no code: the entry names A and B; the
    request to A fails with an error without [code]; B then answers and
    names A. *)
Definition sample_refetched : World :=
  let A := mkPeer (JStr "10.0.0.2") JUndefined in
  let B := mkPeer (JStr "10.0.0.3") JUndefined in
  let answers := [Success (mkBody [A; B] "entry"); Failure JUndefined;
                  Success (mkBody [A] "B")] in
  (forEach answers (fun resp => deliver true 0 "2016-01-01T00:00:09Z" resp)
     (enter "10.0.0.1" "2016-01-01T00:00:00Z" (new_World no_globals None)).1).1.

(** A whole traversal with the default cap: the entry names X and Y, X names
    Y and Z, Y and Z name nobody; the answers arrive in the order in which
    the requests were issued. *)
Definition sample_complete : World :=
  let X := mkPeer (JStr "10.0.0.2") (JNum 51235) in
  let Y := mkPeer (JStr "10.0.0.3") JUndefined in
  let Z := mkPeer (JStr "10.0.0.4:6561") JUndefined in
  let answers := [mkBody [X; Y] "entry"; mkBody [Y; Z] "X"; mkBody [] "Y"; mkBody [] "Z"] in
  (forEach answers (fun body => deliver true 0 "2016-01-01T00:00:09Z" (Success body))
     (enter "10.0.0.1" "2016-01-01T00:00:00Z" (new_World no_globals None)).1).1.

(** The number of ['done'] events emitted so far. *)
Definition is_EvDone (e : Event) : bool :=
  match e with
  | EvDone _ => true
  | EvRequest _ => false
  end.

Definition done_count (w : World) : nat :=
  length (List.filter is_EvDone (emitted w)).

(** ** Well-formed addresses

    An address value is a string with a colon; the module variable [ipp] is
    in order when it is unset or holds an address, as it does in a process
    in which [normalizeIpp] is its only writer. *)
Definition is_address (v : jsval) : bool :=
  match v with
  | JStr s => has_colon s
  | _ => false
  end.

Definition ipp_in_order (g : Globals) : bool :=
  match ipp g with
  | Some v => is_address v
  | None => true
  end.

(** ** Sequences of peer views

    [peer_field this pk k] is the field [k] of the record that the crawler
    holds for [pk], [undefined] when the peer has no record or the record
    no such field; [savePeerData_all] saves the views of a list one after
    the other, each with its peer key. *)
Definition peer_field (this : Crawler) (pk k : string) : jsval :=
  js_prop (default ∅ (peersData this !! pk)) k.

Fixpoint savePeerData_all (defaults : jsval)
    (views : list (string * list (string * jsval))) (this : Crawler) : option Crawler :=
  match views with
  | [] => Some this
  | view :: rest =>
      match savePeerData view.1 view.2 defaults this with
      | Some this' => savePeerData_all defaults rest this'
      | None => None
      end
  end.

(** The record of [pk] is in the crawler when the crawler has one already
    or [pk] names no member of [Object.prototype]. *)
Definition own_record (this : Crawler) (pk : string) : Prop :=
  peersData this !! pk <> None \/ inherited pk = false.

(** ** Admission

    The addresses that wait in the queue, in the order of its keys; the
    number of requests that may still be issued; and the world after the
    addresses of a list have been handed to [crawl] one after the other. *)
Definition queued_addresses (this : Crawler) : list string :=
  List.filter (fun k => bool_decide (obj_get (queued this) k = Some QUEUED))
              (obj_keys (queued this)).

Definition free_slots (this : Crawler) : nat :=
  Z.to_nat (maxRequests this - currentRequests this).

Definition admitted (addrs : list string) (hops : Z) (w : World) : World :=
  fold_left (fun w addr => crawled addr hops w) addrs w.

(** ** Bookkeeping of a traversal

    The number of answers delivered so far; [coded w]: every answer so far
    was a document or an error with a code; and what the three maps and
    the transport satisfy throughout a traversal besides [consistent]. *)
Definition is_EvRequest (e : Event) : bool :=
  match e with
  | EvRequest _ => true
  | EvDone _ => false
  end.

Definition answer_count (w : World) : nat :=
  length (List.filter is_EvRequest (emitted w)).

Definition is_codeless (e : Event) : bool :=
  match e with
  | EvRequest (Failure JUndefined) => true
  | _ => false
  end.

Definition coded (w : World) : Prop :=
  forall e, e ∈ emitted w -> e <> EvRequest (Failure JUndefined).

Record well_tracked (w : World) : Prop := mkWellTracked {
  wt_consistent : consistent w;
  wt_keys_distinct : NoDup (obj_keys (queued (self w)));
  wt_keys_own : forall addr,
      obj_get (queued (self w)) addr <> None -> inherited addr = false;
  wt_statuses : forall addr status,
      obj_get (queued (self w)) addr = Some status ->
      status = QUEUED \/ status = REQUESTING;
  wt_requesting : forall addr,
      obj_get (queued (self w)) addr = Some REQUESTING ->
      addr ∈ req_ipp <$> outstanding w;
  wt_queued_no_error : forall addr,
      obj_get (queued (self w)) addr <> None ->
      js_prop (errors (self w)) addr = JUndefined;
  wt_answered_once : forall addr,
      rawResponses (self w) !! addr <> None ->
      js_prop (errors (self w)) addr = JUndefined;
  wt_stored_own : forall addr,
      rawResponses (self w) !! addr <> None \/ errors (self w) !! addr <> None ->
      inherited addr = false;
  wt_entry : exists entry,
      entryIP (self w) = Some entry /\ tracked (self w) entry = true
}.

(** With every answer coded, the answers are counted by the two maps and
    no error entry holds [undefined]. *)
Record well_counted (w : World) : Prop := mkWellCounted {
  wc_answers : answer_count w
               = (size (rawResponses (self w)) + size (errors (self w)))%nat;
  wc_codes : forall addr, errors (self w) !! addr <> Some JUndefined
}.

(** What the addresses of a process look like: the module variable [ipp]
    is in order, every address present in one of the three maps has a
    colon, and every outstanding request is for such an address, at the URL
    made of it. *)
Record addressed (w : World) : Prop := mkAddressed {
  ad_ipp : ipp_in_order (globals w) = true;
  ad_tracked : forall addr, tracked (self w) addr = true -> has_colon addr = true;
  ad_requests : forall r, r ∈ outstanding w ->
      has_colon (req_ipp r) = true
      /\ url r = "https://" ++ req_ipp r ++ "/crawl"
}.

(** * Properties *)

(** ** Address normalisation *)

Lemma has_colon_app (a b : string) :
  has_colon (a ++ b) = has_colon a || has_colon b.
Proof.
  induction a as [|c a IH]; simpl; [reflexivity|].
  destruct (Ascii.eqb c ":"); [reflexivity|exact IH].
Qed.

Lemma withDefaultPort_has_colon (domainOrIp : string) :
  has_colon (withDefaultPort domainOrIp) = true.
Proof.
  unfold withDefaultPort. destruct (has_colon domainOrIp) eqn:E; [exact E|].
  rewrite has_colon_app. simpl. apply orb_true_r.
Qed.

Lemma split_colon (s : string) :
  split ":" s
  = before_colon s :: match after_colon s with
                      | Some t => split ":" t
                      | None => []
                      end.
Proof.
  induction s as [|c s IH]; simpl; [reflexivity|].
  destruct (Ascii.eqb c ":"); [reflexivity|].
  rewrite IH. reflexivity.
Qed.

Lemma js_index_split_0 (s : string) :
  js_index (split ":" s) 0 = JStr (before_colon s).
Proof. rewrite split_colon. reflexivity. Qed.

Lemma js_index_split_1 (s : string) :
  js_index (split ":" s) 1
  = match embedded_port s with
    | Some p => JStr p
    | None => JUndefined
    end.
Proof.
  rewrite split_colon. unfold embedded_port.
  destruct (after_colon s) as [t|]; simpl; [|reflexivity].
  rewrite split_colon. reflexivity.
Qed.

Lemma truthy_nonempty (s : string) : s <> "" -> truthy (JStr s) = true.
Proof. intros Hs. simpl. destruct s; [congruence|reflexivity]. Qed.

Lemma normalizeIpp_string (s : string) (port : jsval) (g : Globals) :
  s <> "" ->
  normalizeIpp (JStr s) port g
  = (let a := JStr (before_colon s ++ ":" ++ port_by_precedence s port) in
     (mkGlobals (Some (JStr (before_colon s)))
                (Some (js_or (js_or port (js_index (split ":" s) 1)) (JNum DEFAULT_PORT)))
                (Some a), Ok a)).
Proof.
  intros Hs. unfold normalizeIpp. rewrite (truthy_nonempty s Hs).
  rewrite js_index_split_0. cbv zeta. simpl ToString at 1.
  do 3 f_equal; [f_equal|];
    try (unfold port_by_precedence, js_or; rewrite js_index_split_1;
         destruct (truthy port) eqn:Hp; [rewrite Hp; reflexivity|];
         destruct (embedded_port s) as [p|]; simpl; [|reflexivity];
         destruct (String.eqb p ""); reflexivity).
Qed.

(** C1.  For a non-empty [ip], [normalizeIpp] returns the host of [ip]
    followed by a colon and the port chosen by precedence: the [port]
    argument when truthy, else the port embedded after the colon of [ip],
    else the default port; the three addresses of the design document are
    instances. *)
Theorem normalizeIpp_port_precedence :
  (forall (ip : string) (port : jsval) (g : Globals),
      ip <> "" ->
      (normalizeIpp (JStr ip) port g).2
      = Ok (JStr (before_colon ip ++ ":" ++ port_by_precedence ip port)))
  /\ (forall (ip : string) (port : jsval),
         truthy port = true -> port_by_precedence ip port = ToString port)
  /\ (forall (ip p : string),
         embedded_port ip = Some p -> p <> "" ->
         port_by_precedence ip JUndefined = p)
  /\ (forall (ip : string),
         has_colon ip = false ->
         port_by_precedence ip JUndefined = pretty DEFAULT_PORT)
  /\ (normalizeIpp (JStr "10.0.0.1") JUndefined no_globals).2
     = Ok (JStr ("10.0.0.1:" ++ pretty DEFAULT_PORT))
  /\ (normalizeIpp (JStr "10.0.0.1:6561") JUndefined no_globals).2
     = Ok (JStr "10.0.0.1:6561")
  /\ (normalizeIpp (JStr "10.0.0.1") (JStr "8080") no_globals).2
     = Ok (JStr "10.0.0.1:8080").
Proof.
  repeat split.
  - intros ip port g Hip. rewrite normalizeIpp_string by assumption. reflexivity.
  - intros ip port Hp. unfold port_by_precedence. rewrite Hp. reflexivity.
  - intros ip p Hem Hp. unfold port_by_precedence. simpl. rewrite Hem.
    destruct p; [congruence|reflexivity].
  - intros ip Hc. unfold port_by_precedence, embedded_port. simpl.
    assert (Hnone : after_colon ip = None).
    { induction ip as [|c s IH]; simpl in *; [reflexivity|].
      destruct (Ascii.eqb c ":"); [discriminate|auto]. }
    rewrite Hnone. reflexivity.
Qed.

Lemma normalizeIpp_port_precedence_witness :
  "10.0.0.1:6561" <> ""
  /\ (normalizeIpp (JStr "10.0.0.1:6561") (JNum 8080) no_globals).2
     = Ok (JStr "10.0.0.1:8080").
Proof.
  split; [discriminate|].
  apply (proj1 normalizeIpp_port_precedence "10.0.0.1:6561" (JNum 8080) no_globals).
  discriminate.
Defined.

(** C2.  With an absent host the function returns the module variable
    [ipp]: on a first call that name does not exist and the read throws;
    after a call with a host, the address of that earlier call comes back. *)
Theorem normalizeIpp_absent_host_reads_shared_ipp :
  normalizeIpp JUndefined JUndefined no_globals
  = (no_globals, Throw (ReferenceError "ipp is not defined"))
  /\ (let g := (normalizeIpp (JStr "10.0.0.1") JUndefined no_globals).1 in
      (normalizeIpp JUndefined JUndefined g).2 = Ok (JStr "10.0.0.1:51235"))
  /\ (let g := (normalizeIpp (JStr "10.0.0.2") JUndefined no_globals).1 in
      (normalizeIpp JUndefined JUndefined g).2 = Ok (JStr "10.0.0.2:51235")).
Proof. repeat split. Qed.

(** In a traversal the same read stops the crawl: a first peer entry
    without [ip], in a process that has not normalised an address yet, makes
    the callback throw after the answer was stored and before
    [requestMore] runs. *)
Example peer_without_ip_stops_the_crawl :
  let body := mkBody [mkPeer JUndefined JUndefined; mkPeer (JStr "10.0.0.2") JUndefined] "{}" in
  let after := deliver true 0 "2016-01-01T00:00:01Z" (Success body) sample_entered in
  after.2 = Throw (ReferenceError "ipp is not defined")
  /\ queued (self after.1) = []
  /\ emitted after.1 = [EvRequest (Success body)].
Proof. vm_compute. repeat split. Qed.

(** ** Key normalisation *)

Lemma normalizePubKey_canonical (key : string) :
  canonical key = true -> normalizePubKey key = Ok key.
Proof. unfold canonical, normalizePubKey. intros ->. reflexivity. Qed.

(** The codecs agree with the published vectors: the SHA-256 of "abc", and
    the addresses of the accounts zero and one. *)
Example sha256_abc :
  Sha256.hash [97; 98; 99]
  = [186; 120; 22; 191; 143; 1; 207; 234; 65; 65; 64; 222; 93; 174; 34; 35;
     176; 3; 97; 163; 150; 23; 122; 156; 180; 16; 255; 97; 242; 0; 21; 173].
Proof. vm_compute. reflexivity. Qed.

Example encode_check_account_zero :
  Base.encode_check 0 (repeat 0 20) = "rrrrrrrrrrrrrrrrrrrrrhoLvTp".
Proof. vm_compute. reflexivity. Qed.

Example encode_check_account_one :
  Base.encode_check 0 (repeat 0 19 ++ [1]) = "rrrrrrrrrrrrrrrrrrrrBZbvji".
Proof. vm_compute. reflexivity. Qed.

(** ** Keys of 33 bytes normalise to canonical keys *)

Lemma be_bytes_in_range (n : nat) (x : Z) : bytes_in_range (Sha256.be_bytes n x).
Proof.
  unfold Sha256.be_bytes. apply Forall_forall. intros b Hb.
  apply list_elem_of_In, in_map_iff in Hb. destruct Hb as (i & <- & _).
  apply Z.mod_pos_bound. lia.
Qed.

Lemma be_bytes_length (n : nat) (x : Z) : length (Sha256.be_bytes n x) = n.
Proof. unfold Sha256.be_bytes. rewrite length_map, length_rev, length_seq. reflexivity. Qed.

Lemma hash_in_range (msg : list Z) : bytes_in_range (Sha256.hash msg).
Proof.
  unfold Sha256.hash. apply Forall_forall. intros b Hb.
  apply list_elem_of_In, in_flat_map in Hb. destruct Hb as (w & _ & Hb).
  pose proof (be_bytes_in_range 4 w) as Hr. rewrite Forall_forall in Hr.
  apply Hr, list_elem_of_In, Hb.
Qed.

Lemma round_length (W v : list Z) (t : nat) :
  length v = 8%nat -> length (Sha256.round W v t) = 8%nat.
Proof.
  intros Hv. do 9 (destruct v as [|? v]; try discriminate Hv). reflexivity.
Qed.

Lemma compress_length (H block : list Z) :
  length H = 8%nat -> length (Sha256.compress H block) = 8%nat.
Proof.
  intros HH. unfold Sha256.compress.
  rewrite length_map, length_combine, HH.
  assert (Hfold : forall ts v, length v = 8%nat ->
            length (fold_left (Sha256.round (Sha256.schedule 48 block)) ts v) = 8%nat).
  { induction ts as [|t ts IH]; intros v Hv; cbn [fold_left]; [exact Hv|].
    apply IH, round_length, Hv. }
  rewrite (Hfold _ _ HH). reflexivity.
Qed.

Lemma blocks_length (fuel : nat) (H words : list Z) :
  length H = 8%nat -> length (Sha256.blocks fuel H words) = 8%nat.
Proof.
  revert H words. induction fuel as [|fuel IH]; intros H words HH;
    cbn [Sha256.blocks]; [exact HH|].
  destruct words; [exact HH|]. apply IH, compress_length, HH.
Qed.

Lemma hash_length (msg : list Z) : length (Sha256.hash msg) = 32%nat.
Proof.
  unfold Sha256.hash.
  pose proof (blocks_length (length (Sha256.be_words (length (Sha256.pad msg)) (Sha256.pad msg)))
                Sha256.H0 (Sha256.be_words (length (Sha256.pad msg)) (Sha256.pad msg)) eq_refl)
    as Hlen.
  destruct (Sha256.blocks _ _ _) as [|w0 [|w1 [|w2 [|w3 [|w4 [|w5 [|w6 [|w7 [|w8 ws]]]]]]]]];
    try discriminate Hlen.
  cbn [flat_map]. rewrite !length_app, !be_bytes_length. reflexivity.
Qed.

Lemma indexOf_range (c : ascii) (s : string) (x : Z) :
  Sjcl.indexOf c s = Some x -> 0 <= x < Z.of_nat (String.length s).
Proof.
  revert x. induction s as [|c' s IH]; intros x; simpl; [discriminate|].
  destruct (Ascii.eqb c' c); [intros [= <-]; lia|].
  destruct (Sjcl.indexOf c s) as [y|]; [|discriminate].
  intros [= <-]. specialize (IH y eq_refl). lia.
Qed.

Lemma decode_in_range (str : string) (ta bits : Z) (bytes : list Z) :
  0 <= bits < 8 -> 0 <= ta < 2 ^ bits ->
  Sjcl.decode str ta bits = Some bytes -> bytes_in_range bytes.
Proof.
  revert ta bits bytes.
  induction str as [|c str IH]; intros ta bits bytes Hbits Hta; cbn [Sjcl.decode].
  - intros [= <-]. constructor.
  - destruct (Sjcl.dropped c); [apply IH; assumption|].
    destruct (Sjcl.indexOf c Sjcl.chars) as [x|] eqn:Hx; [|discriminate].
    apply indexOf_range in Hx. change (Z.of_nat (String.length Sjcl.chars)) with 64 in Hx.
    assert (Hta' : 0 <= ta * 64 + x < 2 ^ (bits + 6)).
    { rewrite Z.pow_add_r by lia. change (2 ^ 6) with 64. nia. }
    destruct (8 <=? bits + 6)%Z eqn:Hge.
    + apply Z.leb_le in Hge.
      destruct (Sjcl.decode str _ _) as [rest|] eqn:Hrest; cbn [fmap option_fmap option_map];
        [|intros Hnone; discriminate Hnone].
      intros [= <-]. constructor.
      * rewrite Z.shiftr_div_pow2 by lia. split.
        { apply Z.div_pos; [lia|]. apply Z.pow_pos_nonneg; lia. }
        { apply Z.div_lt_upper_bound; [apply Z.pow_pos_nonneg; lia|].
          change 256 with (2 ^ 8). rewrite <- Z.pow_add_r by lia.
          replace (bits + 6 - 8 + 8) with (bits + 6) by lia. lia. }
      * eapply IH; [| |exact Hrest]; [lia|].
        apply Z.mod_pos_bound, Z.pow_pos_nonneg; lia.
    + apply Z.leb_gt in Hge. apply IH; [lia|exact Hta'].
Qed.

Lemma be_value_bounds (input : list Z) (acc : Z) :
  bytes_in_range input ->
  let value := fold_left (fun a b => a * 256 + b) input acc in
  acc * 256 ^ Z.of_nat (length input) <= value
  < (acc + 1) * 256 ^ Z.of_nat (length input).
Proof.
  intros Hin. revert acc. induction Hin as [|b input Hb _ IH]; intros acc; simpl.
  - lia.
  - specialize (IH (acc * 256 + b)). cbv zeta in IH.
    rewrite Nat2Z.inj_succ, Z.pow_succ_r by lia.
    assert (0 < 256 ^ Z.of_nat (length input)) by (apply Z.pow_pos_nonneg; lia).
    nia.
Qed.

Lemma digits_leading (n fuel : nat) (value d : Z) :
  (n < fuel)%nat -> 1 <= d < 58 ->
  d * 58 ^ Z.of_nat n <= value < (d + 1) * 58 ^ Z.of_nat n ->
  exists low, Base.digits fuel value = (low ++ [Base.letter d])%list /\ length low = n.
Proof.
  revert fuel value. induction n as [|n IH]; intros fuel value Hfuel Hd Hv.
  - destruct fuel as [|fuel]; [lia|]. simpl in *.
    assert (value = d) by lia. subst value.
    assert (Hpos : (0 <? d)%Z = true) by (apply Z.ltb_lt; lia). rewrite Hpos.
    rewrite Z.mod_small, Z.div_small by lia.
    exists []. split; [|reflexivity]. destruct fuel; reflexivity.
  - destruct fuel as [|fuel]; [lia|].
    rewrite Nat2Z.inj_succ, Z.pow_succ_r in Hv by lia.
    assert (0 < 58 ^ Z.of_nat n) by (apply Z.pow_pos_nonneg; lia).
    simpl. assert (Hpos : (0 <? value)%Z = true) by (apply Z.ltb_lt; nia). rewrite Hpos.
    destruct (IH fuel (value / 58)) as (low & Hlow & Hlen); [lia|exact Hd| |].
    + split.
      * apply Z.div_le_lower_bound; lia.
      * apply Z.div_lt_upper_bound; lia.
    + exists (Base.letter (value mod 58) :: low). rewrite Hlow. split; [reflexivity|].
      simpl. rewrite Hlen. reflexivity.
Qed.

Lemma string_of_list_ascii_length (l : list ascii) :
  String.length (string_of_list_ascii l) = length l.
Proof. induction l as [|c l IH]; simpl; [reflexivity|]. rewrite IH. reflexivity. Qed.

Lemma node_public_bounds :
  4 * 58 ^ 51 <= 28 * 256 ^ 37 /\ (28 + 1) * 256 ^ 37 <= (4 + 1) * 58 ^ 51.
Proof. split; apply Z.leb_le; vm_compute; reflexivity. Qed.

Lemma encode_node_public (payload : list Z) :
  length payload = 37%nat -> bytes_in_range payload ->
  canonical (Base.encode (28 :: payload)) = true.
Proof.
  intros Hlen Hin.
  pose proof (be_value_bounds payload 28 Hin) as Hv. cbv zeta in Hv.
  rewrite Hlen in Hv. change (Z.of_nat 37) with 37 in Hv.
  destruct node_public_bounds as [Hlo Hhi].
  destruct (digits_leading 51 (8 * length (28 :: payload))
              (fold_left (fun acc b => acc * 256 + b) payload 28) 4)
    as (low & Hdig & Hlow).
  - cbn [length]. rewrite Hlen. lia.
  - lia.
  - change (Z.of_nat 51) with 51. lia.
  - unfold Base.encode.
    change (fold_left (fun acc b => acc * 256 + b) (28 :: payload) 0)
      with (fold_left (fun acc b => acc * 256 + b) payload 28).
    rewrite Hdig.
    change (Base.leading_zeros (28 :: payload)) with (@nil ascii).
    rewrite app_nil_r, rev_app_distr.
    change (rev [Base.letter 4]) with ["n"%char].
    unfold canonical. cbn [app string_of_list_ascii String.length String.get].
    rewrite string_of_list_ascii_length, length_rev, Hlow.
    reflexivity.
Qed.

Lemma encode_check_node_public (bytes : list Z) :
  length bytes = 33%nat -> bytes_in_range bytes ->
  canonical (Base.encode_check Base.VER_NODE_PUBLIC bytes) = true.
Proof.
  intros Hlen Hin. unfold Base.encode_check.
  set (check := firstn 4 (Sha256.hash (Sha256.hash (Base.VER_NODE_PUBLIC :: bytes)))).
  assert (Hcheck : length check = 4%nat).
  { unfold check. rewrite length_firstn, hash_length. reflexivity. }
  assert (Hcin : bytes_in_range check).
  { unfold check. apply Forall_take, hash_in_range. }
  change ((Base.VER_NODE_PUBLIC :: bytes) ++ check)%list
    with (28 :: (bytes ++ check))%list.
  apply encode_node_public.
  - rewrite length_app. lia.
  - apply Forall_app. split; assumption.
Qed.

Lemma normalizePubKey_33_bytes (k : string) (bytes : list Z) :
  Sjcl.base64_bytes k = Some bytes -> length bytes = 33%nat ->
  exists r, normalizePubKey k = Ok r /\ canonical r = true.
Proof.
  intros Hk Hlen. unfold normalizePubKey. fold (canonical k).
  destruct (canonical k) eqn:Hc; [eauto|].
  rewrite Hk. eexists. split; [reflexivity|].
  apply encode_check_node_public; [exact Hlen|].
  eapply (decode_in_range k 0 0); [lia|simpl; lia|exact Hk].
Qed.

(** C3, as stated, fails: the three bytes of "AAAA" normalise to an
    eleven-letter key, which is not canonical and which a second
    normalisation decodes as base64 into another key. *)
Lemma normalizePubKey_short_key_not_idempotent :
  normalizePubKey "AAAA" = Ok "ngdqPe5PpPY"
  /\ normalizePubKey "ngdqPe5PpPY" = Ok "sPEQ1CFLqq4nyJWsaL"
  /\ ~ (forall k r : string,
          normalizePubKey k = Ok r -> normalizePubKey r = normalizePubKey k).
Proof.
  assert (H1 : normalizePubKey "AAAA" = Ok "ngdqPe5PpPY") by (vm_compute; reflexivity).
  assert (H2 : normalizePubKey "ngdqPe5PpPY" = Ok "sPEQ1CFLqq4nyJWsaL")
    by (vm_compute; reflexivity).
  split; [exact H1|]. split; [exact H2|].
  intros Hall. specialize (Hall _ _ H1). rewrite H1, H2 in Hall. discriminate.
Qed.

(** C3, amended.  Normalising twice is normalising once whenever the first
    result is canonical (more than 50 characters, starting with [n]); a
    canonical key is returned as it is; and the result is canonical for
    every base64 key of 33 bytes, the size of a node public key. *)
Theorem normalizePubKey_idempotent_on_canonical :
  (forall k r : string,
      normalizePubKey k = Ok r ->
      canonical r = true ->
      normalizePubKey r = normalizePubKey k)
  /\ (forall k : string, canonical k = true -> normalizePubKey k = Ok k)
  /\ (forall (k : string) (bytes : list Z),
         Sjcl.base64_bytes k = Some bytes ->
         length bytes = 33%nat ->
         exists r, normalizePubKey k = Ok r
                   /\ canonical r = true
                   /\ normalizePubKey r = normalizePubKey k).
Proof.
  split; [|split].
  - intros k r Hk Hr. rewrite Hk. apply normalizePubKey_canonical. exact Hr.
  - exact normalizePubKey_canonical.
  - intros k bytes Hk Hlen.
    destruct (normalizePubKey_33_bytes k bytes Hk Hlen) as (r & Hr & Hc).
    exists r. split; [exact Hr|]. split; [exact Hc|].
    rewrite Hr. apply normalizePubKey_canonical. exact Hc.
Qed.

Lemma normalizePubKey_idempotent_on_canonical_witness :
  let k := "Aq1zxbp6Gm3ydVmtFpHYJ0PDmEWhJ2aGFdz6uuFmc9Az" in
  let r := "n9Kit7ciGzApGi2sKFd8xa1xxzsSwxFrN5jhAsWqS65yxfvegWRE" in
  normalizePubKey k = Ok r /\ canonical r = true
  /\ normalizePubKey r = normalizePubKey k.
Proof.
  intros k r.
  assert (Hk : normalizePubKey k = Ok r) by (vm_compute; reflexivity).
  assert (Hr : canonical r = true) by (vm_compute; reflexivity).
  split; [exact Hk|]. split; [exact Hr|].
  exact (proj1 normalizePubKey_idempotent_on_canonical k r Hk Hr).
Defined.

(** ** Reasoning about calls *)

Section Related.
Context {S : Type} (R : S -> S -> Prop).
Hypothesis R_refl : forall s, R s s.
Hypothesis R_trans : forall a b c, R a b -> R b c -> R a c.

Lemma related_ret {A} (a : A) : related R (ret a).
Proof. intros s s' r [= <- _]. apply R_refl. Qed.

Lemma related_bind {A B} (m : M S A) (f : A -> M S B) :
  related R m -> (forall a, related R (f a)) -> related R (bind m f).
Proof.
  intros Hm Hf s s' r. unfold bind.
  destruct (m s) as [s1 [a|e|msg]] eqn:Em.
  - intros Ef. eapply R_trans; [eapply Hm, Em|eapply Hf, Ef].
  - intros [= <- _]. eapply Hm, Em.
  - intros [= <- _]. eapply Hm, Em.
Qed.

Lemma related_forEach {A} (arr : list A) (f : A -> M S unit) :
  (forall x, related R (f x)) -> related R (forEach arr f).
Proof.
  intros Hf. induction arr as [|x arr IH]; simpl.
  - apply related_ret.
  - apply related_bind; [apply Hf|intros _; exact IH].
Qed.

End Related.

(** A call that returns did so from each of its parts. *)
Lemma bind_Ok {S A B} (m : M S A) (f : A -> M S B) s s' b :
  bind m f s = (s', Ok b) ->
  exists s1 a, m s = (s1, Ok a) /\ f a s1 = (s', Ok b).
Proof.
  unfold bind. destruct (m s) as [s1 [a|e|msg]]; [eauto|discriminate..].
Qed.

(** ** Plain objects *)

Lemma obj_get_set_eq {V} (o : list (string * V)) k v :
  obj_get (obj_set o k v) k = Some v.
Proof.
  induction o as [|[k' v'] o IH]; simpl.
  - rewrite String.eqb_refl. reflexivity.
  - destruct (String.eqb k' k) eqn:E; simpl; rewrite E; auto.
Qed.

Lemma obj_get_set_ne {V} (o : list (string * V)) k k' v :
  k <> k' -> obj_get (obj_set o k v) k' = obj_get o k'.
Proof.
  intros Hne. induction o as [|[k0 v0] o IH]; simpl.
  - apply String.eqb_neq in Hne. rewrite Hne. reflexivity.
  - destruct (String.eqb k0 k) eqn:E; simpl.
    + apply String.eqb_eq in E. subst k0.
      apply String.eqb_neq in Hne. rewrite Hne. reflexivity.
    + rewrite IH. reflexivity.
Qed.

Lemma obj_get_delete_eq {V} (o : list (string * V)) k :
  obj_get (obj_delete o k) k = None.
Proof.
  induction o as [|[k' v'] o IH]; simpl; [reflexivity|].
  destruct (String.eqb k' k) eqn:E; simpl; [|rewrite E]; auto.
Qed.

Lemma obj_get_delete_ne {V} (o : list (string * V)) k k' :
  k <> k' -> obj_get (obj_delete o k) k' = obj_get o k'.
Proof.
  intros Hne. induction o as [|[k0 v0] o IH]; simpl; [reflexivity|].
  destruct (String.eqb k0 k) eqn:E; simpl.
  - apply String.eqb_eq in E. subst k0.
    apply String.eqb_neq in Hne. rewrite Hne. exact IH.
  - rewrite IH. reflexivity.
Qed.

Lemma obj_set_fresh {V} (o : list (string * V)) k v :
  obj_get o k = None -> obj_set o k v = (o ++ [(k, v)])%list.
Proof.
  induction o as [|[k' v'] o IH]; simpl; [reflexivity|].
  destruct (String.eqb k' k); [discriminate|].
  intros H. rewrite IH by exact H. reflexivity.
Qed.

Lemma obj_fst_set_present {V} (o : list (string * V)) k v :
  obj_get o k <> None -> map fst (obj_set o k v) = map fst o.
Proof.
  induction o as [|[k' v'] o IH]; simpl; [congruence|].
  destruct (String.eqb k' k); simpl; [reflexivity|].
  intros H. rewrite IH by exact H. reflexivity.
Qed.

Lemma obj_keys_set_present {V} (o : list (string * V)) k v :
  obj_get o k <> None -> obj_keys (obj_set o k v) = obj_keys o.
Proof. intros H. unfold obj_keys. rewrite obj_fst_set_present by exact H. reflexivity. Qed.

Lemma obj_fst_delete {V} (o : list (string * V)) (k : string) :
  map fst (obj_delete o k) = List.filter (fun k' => negb (String.eqb k' k)) (map fst o).
Proof.
  induction o as [|[k' v'] o IH]; simpl; [reflexivity|].
  destruct (String.eqb k' k); simpl; rewrite IH; reflexivity.
Qed.

Lemma obj_get_fst {V} (o : list (string * V)) (k : string) :
  obj_get o k = None <-> k ∉ map fst o.
Proof.
  induction o as [|[k' v'] o IH]; simpl.
  - split; [intros _; apply not_elem_of_nil|reflexivity].
  - rewrite not_elem_of_cons. destruct (String.eqb k' k) eqn:E.
    + apply String.eqb_eq in E. subst. split; [discriminate|intros [? _]; congruence].
    + apply String.eqb_neq in E. rewrite IH. intuition congruence.
Qed.

Lemma obj_delete_snoc {V} (o : list (string * V)) (k : string) (v : V) :
  obj_get o k = None -> obj_delete (o ++ [(k, v)]) k = o.
Proof.
  induction o as [|[k' v'] o IH]; simpl.
  - rewrite String.eqb_refl. reflexivity.
  - destruct (String.eqb k' k); [discriminate|]. intros H. rewrite IH by exact H. reflexivity.
Qed.

(** *** The order of [Object.keys] *)

Lemma insert_index_perm (n : Z) (k : string) (l : list (Z * string)) :
  insert_index n k l ≡ₚ (n, k) :: l.
Proof.
  induction l as [|[m k'] l IH]; simpl; [reflexivity|].
  destruct (n <? m)%Z; [reflexivity|]. rewrite IH. apply Permutation_swap.
Qed.

Lemma index_keys_perm (keys : list string) :
  map snd (index_keys keys) ≡ₚ List.filter defined_index keys.
Proof.
  induction keys as [|k keys IH]; simpl; [reflexivity|].
  unfold defined_index at 1. destruct (array_index k) as [n|]; [|exact IH].
  rewrite insert_index_perm. simpl. rewrite IH. reflexivity.
Qed.

Lemma filter_split_perm {A} (f : A -> bool) (l : list A) :
  (List.filter f l ++ List.filter (fun x => negb (f x)) l)%list ≡ₚ l.
Proof.
  induction l as [|x l IH]; simpl; [reflexivity|].
  destruct (f x); simpl.
  - rewrite IH. reflexivity.
  - rewrite <- Permutation_middle. rewrite IH. reflexivity.
Qed.

Lemma obj_keys_perm {V} (o : list (string * V)) : obj_keys o ≡ₚ map fst o.
Proof.
  unfold obj_keys. rewrite index_keys_perm. apply filter_split_perm.
Qed.

Lemma obj_get_keys {V} (o : list (string * V)) (k : string) :
  obj_get o k = None <-> k ∉ obj_keys o.
Proof. rewrite obj_keys_perm. apply obj_get_fst. Qed.

Lemma obj_keys_nil {V} (o : list (string * V)) : obj_keys o = [] <-> o = [].
Proof.
  split; [|intros ->; reflexivity].
  intros H. pose proof (obj_keys_perm o) as Hp. rewrite H in Hp.
  apply Permutation_nil_l in Hp. destruct o; [reflexivity|discriminate].
Qed.

Lemma obj_keys_length {V} (o : list (string * V)) : length (obj_keys o) = length o.
Proof. rewrite obj_keys_perm. apply length_map. Qed.

Lemma obj_keys_NoDup {V} (o : list (string * V)) :
  NoDup (obj_keys o) <-> NoDup (map fst o).
Proof. rewrite obj_keys_perm. reflexivity. Qed.

Lemma NoDup_List_filter {A} (f : A -> bool) (l : list A) :
  NoDup l -> NoDup (List.filter f l).
Proof.
  induction 1 as [|x l Hx _ IH]; simpl; [constructor|].
  destruct (f x); [|exact IH]. constructor; [|exact IH].
  intros Hin. apply Hx. apply list_elem_of_In in Hin. apply List.filter_In in Hin.
  apply list_elem_of_In, Hin.
Qed.

Lemma obj_keys_snoc_NoDup {V} (o : list (string * V)) (k : string) (v : V) :
  obj_get o k = None -> NoDup (obj_keys o) -> NoDup (obj_keys (o ++ [(k, v)])).
Proof.
  rewrite !obj_keys_NoDup, map_app. intros Hk Hnd. apply NoDup_app.
  split; [exact Hnd|]. split; [|apply NoDup_singleton].
  intros x Hx Hin. simpl in Hin. apply list_elem_of_singleton in Hin. subst x.
  apply obj_get_fst in Hk. contradiction.
Qed.

Lemma obj_keys_delete_NoDup {V} (o : list (string * V)) (k : string) :
  NoDup (obj_keys o) -> NoDup (obj_keys (obj_delete o k)).
Proof.
  rewrite !obj_keys_NoDup, obj_fst_delete. apply NoDup_List_filter.
Qed.

(** A key that is not an array index is listed where it was created. *)
Lemma obj_keys_snoc {V} (o : list (string * V)) (k : string) (v : V) :
  array_index k = None -> obj_keys (o ++ [(k, v)]) = (obj_keys o ++ [k])%list.
Proof.
  intros Hk. unfold obj_keys. rewrite map_app. cbn [map fst].
  assert (Hi : index_keys (map fst o ++ [k]) = index_keys (map fst o)).
  { unfold index_keys. rewrite fold_right_app. cbn [fold_right]. rewrite Hk. reflexivity. }
  assert (Hd : defined_index k = false) by (unfold defined_index; rewrite Hk; reflexivity).
  rewrite Hi, List.filter_app. cbn [List.filter]. rewrite Hd.
  cbn [negb]. rewrite app_assoc. reflexivity.
Qed.

(** Array indices come first, in numeric order; "01" and 2^32 - 1 are no
    array indices. *)
Example obj_keys_order :
  obj_keys [("b", QUEUED); ("2", QUEUED); ("a", QUEUED); ("10", QUEUED);
            ("01", QUEUED); ("1", QUEUED); ("4294967295", QUEUED)]
  = ["1"; "2"; "10"; "b"; "a"; "01"; "4294967295"].
Proof. vm_compute. reflexivity. Qed.

(** *** Keys with a colon *)

Lemma decimal_colon (s : string) (acc : Z) : has_colon s = true -> decimal acc s = None.
Proof.
  revert acc. induction s as [|c s IH]; intros acc; simpl; [discriminate|].
  destruct (Ascii.eqb c ":") eqn:E.
  - apply Ascii.eqb_eq in E. subst c. reflexivity.
  - intros H. destruct (digit c); [apply IH, H|reflexivity].
Qed.

Lemma array_index_colon (k : string) : has_colon k = true -> array_index k = None.
Proof.
  intros H. unfold array_index. destruct k as [|c rest]; [reflexivity|].
  destruct (Ascii.eqb c "0" && negb (String.eqb rest "")); [reflexivity|].
  rewrite decimal_colon by exact H. reflexivity.
Qed.

Lemma inherited_no_colon (k : string) : has_colon k = true -> inherited k = false.
Proof.
  intros H. destruct (inherited k) eqn:E; [|reflexivity].
  unfold inherited in E. apply existsb_exists in E. destruct E as (x & Hin & Heq).
  apply String.eqb_eq in Heq. subst x. simpl in Hin.
  repeat (destruct Hin as [<-|Hin]; [discriminate H|]). destruct Hin.
Qed.

(** *** Reads *)

Lemma has_member_own {A} (own : option A) (k : string) :
  inherited k = false -> has_member own k = defined own.
Proof. intros H. unfold has_member. rewrite H. apply orb_false_r. Qed.

Lemma has_member_false {A} (own : option A) (k : string) :
  has_member own k = false <-> own = None /\ inherited k = false.
Proof.
  unfold has_member. destruct own, (inherited k); simpl; intuition congruence.
Qed.

(** ** Queue primitives *)

Lemma enqueue_absent DEBUG (w : World) (addr : string) :
  has_member (obj_get (queued (self w)) addr) addr = false ->
  enqueue DEBUG addr w = (with_queued addr w, Ok tt).
Proof.
  intros Hq. unfold enqueue, bind, get, abortIfNot, on_self, modify, with_queued.
  rewrite Hq. simpl. apply has_member_false in Hq. destruct Hq as [Hq _].
  rewrite obj_set_fresh by exact Hq. reflexivity.
Qed.

Lemma enqueue_present DEBUG (w : World) (addr : string) :
  has_member (obj_get (queued (self w)) addr) addr = true ->
  enqueue DEBUG addr w = (w, fatal DEBUG "queued already").
Proof.
  intros Hq. unfold enqueue, bind, get, abortIfNot, fatal. rewrite Hq.
  destruct DEBUG; reflexivity.
Qed.

Lemma dequeue_absent DEBUG (w : World) (addr : string) :
  has_member (obj_get (queued (self w)) addr) addr = false ->
  dequeue DEBUG addr w = (w, fatal DEBUG "not queued already").
Proof.
  intros Hq. unfold dequeue, bind, get, abortIfNot, fatal. rewrite Hq.
  destruct DEBUG; reflexivity.
Qed.

Lemma dequeue_present DEBUG (w : World) (addr : string) :
  has_member (obj_get (queued (self w)) addr) addr = true ->
  dequeue DEBUG addr w
  = (mkWorld (globals w) (set_queued (obj_delete (queued (self w)) addr) (self w))
             (outstanding w) (emitted w), Ok tt).
Proof.
  intros Hq. unfold dequeue, bind, get, abortIfNot. rewrite Hq. reflexivity.
Qed.

(** A name of [Object.prototype] passes for a key of the queue: dequeueing
    it from a queue that does not hold it returns, and enqueueing it in an
    empty queue is a violation. *)
Example inherited_name_in_queue :
  let w := new_World no_globals None in
  dequeue true "constructor" w = (w, Ok tt)
  /\ enqueue true "toString" w = (w, Exit "queued already")
  /\ enqueueIfNeeded true (JStr "toString") w = (w, Ok tt).
Proof. repeat split. Qed.

(** C5.  For an address, a string that names no member of
    [Object.prototype], as is every string with a colon: [enqueue] on an
    address that is in the queue, and [dequeue] on one that is not, end the
    process after the message in a debug build and throw an [Error] in a
    production build; the crawler is left as it was, and the callback that
    hits the violation passes it on with nothing written to the [errors]
    or [rawResponses] maps. *)
Theorem contract_violation_is_fatal (DEBUG : bool) (w : World) (addr : string) :
  (has_colon addr = true -> inherited addr = false)
  /\ (obj_get (queued (self w)) addr <> None ->
      enqueue DEBUG addr w = (w, fatal DEBUG "queued already"))
  /\ (inherited addr = false ->
      obj_get (queued (self w)) addr = None ->
      dequeue DEBUG addr w = (w, fatal DEBUG "not queued already")
      /\ forall u hops now resp,
          exists w',
            crawlOne_callback DEBUG (mkRequest u addr hops) now resp w
            = (w', fatal DEBUG "not queued already")
            /\ errors (self w') = errors (self w)
            /\ rawResponses (self w') = rawResponses (self w)
            /\ queued (self w') = queued (self w))
  /\ fatal true = Exit
  /\ fatal false = (fun message => Throw (Error message)).
Proof.
  split; [apply inherited_no_colon|].
  split.
  { intros Hq. apply enqueue_present. unfold has_member.
    destruct (obj_get (queued (self w)) addr); [reflexivity|congruence]. }
  split; [|split; reflexivity].
  intros Hown Hq.
  assert (Hm : has_member (obj_get (queued (self w)) addr) addr = false)
    by (apply has_member_false; split; assumption).
  split; [apply dequeue_absent, Hm|].
  intros u hops now resp. eexists. split.
  - unfold crawlOne_callback, crawl_callback, crawl_record, bind at 1 2 3 4.
    simpl. rewrite dequeue_absent by exact Hm.
    unfold fatal. destruct DEBUG; reflexivity.
  - simpl. auto.
Qed.

Lemma contract_violation_is_fatal_witness :
  let w := new_World no_globals None in
  let w1 := with_queued "10.0.0.1:51235" w in
  has_colon "10.0.0.1:51235" = true
  /\ enqueue true "10.0.0.1:51235" w1 = (w1, Exit "queued already")
  /\ enqueue false "10.0.0.1:51235" w1 = (w1, Throw (Error "queued already"))
  /\ dequeue true "10.0.0.1:51235" w = (w, Exit "not queued already")
  /\ dequeue false "10.0.0.1:51235" w = (w, Throw (Error "not queued already")).
Proof.
  intros w w1.
  assert (Hc : has_colon "10.0.0.1:51235" = true) by reflexivity.
  pose proof (proj1 (contract_violation_is_fatal true w "10.0.0.1:51235") Hc) as Hown.
  split; [exact Hc|].
  split; [apply (proj1 (proj2 (contract_violation_is_fatal true w1 "10.0.0.1:51235")));
          discriminate|].
  split; [apply (proj1 (proj2 (contract_violation_is_fatal false w1 "10.0.0.1:51235")));
          discriminate|].
  split.
  - apply (proj1 (proj2 (proj2 (contract_violation_is_fatal true w "10.0.0.1:51235"))));
      [exact Hown|reflexivity].
  - apply (proj1 (proj2 (proj2 (contract_violation_is_fatal false w "10.0.0.1:51235"))));
      [exact Hown|reflexivity].
Defined.

(** ** Merging peer views *)

Lemma savePeerData_Some (pk : string) (data : list (string * jsval))
    (defaults : jsval) (this after : Crawler) :
  savePeerData pk data defaults this = Some after
  <-> own_record this pk
      /\ exists record,
          savePeerData_forOwn defaults data (default ∅ (peersData this !! pk)) = Some record
          /\ after = set_peersData (<[pk := record]> (peersData this)) this.
Proof.
  unfold savePeerData, own_record. destruct (peersData this !! pk) as [map|]; simpl.
  - destruct (savePeerData_forOwn defaults data map) as [record|]; split.
    + intros [= <-]. split; [left; discriminate|]. eauto.
    + intros (_ & record' & [= <-] & ->). reflexivity.
    + discriminate.
    + intros (_ & record' & H & _). discriminate.
  - destruct (inherited pk).
    + split; [discriminate|]. intros ([H|H] & _); congruence.
    + destruct (savePeerData_forOwn defaults data ∅) as [record|]; split.
      * intros [= <-]. split; [right; reflexivity|]. eauto.
      * intros (_ & record' & [= <-] & ->). reflexivity.
      * discriminate.
      * intros (_ & record' & H & _). discriminate.
Qed.

Lemma savePeerData_field (pk : string) (data : list (string * jsval))
    (defaults : jsval) (this after : Crawler) :
  savePeerData pk data defaults this = Some after ->
  exists record,
    savePeerData_forOwn defaults data (default ∅ (peersData this !! pk)) = Some record
    /\ peersData after !! pk = Some record.
Proof.
  intros H. apply savePeerData_Some in H. destruct H as (_ & record & Hrec & ->).
  exists record. split; [exact Hrec|]. simpl. apply lookup_insert_eq.
Qed.

(** Without [defaults] the value of the later view is the one kept. *)
Lemma savePeerData_last_view_wins (pk k : string) (v1 v2 : jsval) (this : Crawler) :
  k <> "type" -> k <> "__proto__" -> inherited pk = false ->
  exists once twice,
    savePeerData pk [(k, v1)] JUndefined this = Some once
    /\ savePeerData pk [(k, v2)] JUndefined once = Some twice
    /\ js_prop (default ∅ (peersData once !! pk)) k = v1
    /\ js_prop (default ∅ (peersData twice !! pk)) k = v2.
Proof.
  intros Hk Hp Hpk. apply String.eqb_neq in Hk, Hp.
  assert (Hone : forall this0 v,
            savePeerData pk [(k, v)] JUndefined this0
            = Some (set_peersData
                      (<[pk := <[k := v]> (default ∅ (peersData this0 !! pk))]>
                         (peersData this0)) this0)).
  { intros this0 v. unfold savePeerData, savePeerData_forOwn, savePeerData_visit.
    rewrite Hk, Hp, Hpk. simpl. destruct (peersData this0 !! pk); reflexivity. }
  eexists. eexists. split; [apply Hone|]. split; [apply Hone|].
  simpl. rewrite !lookup_insert_eq. simpl. unfold js_prop. rewrite !lookup_insert_eq.
  split; reflexivity.
Qed.

(** C6.  Two views of the same peer saved with [savePeerData(pk, view)]:
    the field [ip] of the consolidated record holds the value of the first
    view after the first call and the value of the second view after the
    second call. *)
Theorem savePeerData_later_view_overwrites :
  exists first second,
    savePeerData "n9KAa2" [("ip", JStr "10.0.0.1")] JUndefined (new_Crawler None)
    = Some first
    /\ savePeerData "n9KAa2" [("ip", JStr "10.0.0.2")] JUndefined first = Some second
    /\ js_prop (default ∅ (peersData first !! "n9KAa2")) "ip" = JStr "10.0.0.1"
    /\ js_prop (default ∅ (peersData second !! "n9KAa2")) "ip" = JStr "10.0.0.2".
Proof.
  destruct (savePeerData_last_view_wins "n9KAa2" "ip" (JStr "10.0.0.1") (JStr "10.0.0.2")
              (new_Crawler None)) as (first & second & H1 & H2 & Hfirst & Hsecond);
    [discriminate..|reflexivity|].
  exists first, second. repeat split; assumption.
Qed.

(** ** The calls of a delivery, one by one *)

Lemma requestMore_turn_eq (hops : Z) (k : string) (w : World) :
  requestMore_turn hops k w
  = (if (currentRequests (self w) <? maxRequests (self w))%Z
        && bool_decide (obj_get (queued (self w)) k = Some QUEUED)
     then crawled k (hops + 1) w else w, Ok tt).
Proof.
  unfold requestMore_turn, bind, get.
  destruct (currentRequests (self w) <? maxRequests (self w))%Z; [|reflexivity].
  simpl. destruct (bool_decide _); reflexivity.
Qed.

(** An address is not seen when it names no member of [Object.prototype],
    is a key of neither [rawResponses] nor [queued], and [errors] holds
    nothing or [undefined] for it. *)
Lemma seen_false (this : Crawler) (addr : string) :
  seen this addr = false
  <-> inherited addr = false
      /\ rawResponses this !! addr = None
      /\ obj_get (queued this) addr = None
      /\ js_prop (errors this) addr = JUndefined.
Proof.
  unfold seen, has_member, has_value, js_prop.
  destruct (inherited addr), (rawResponses this !! addr), (obj_get (queued this) addr),
    (errors this !! addr) as [[]|]; simpl;
    rewrite ?orb_true_r; simpl; intuition congruence.
Qed.

Lemma seen_queued (this : Crawler) (addr : string) :
  obj_get (queued this) addr <> None -> seen this addr = true.
Proof.
  intros H. destruct (seen this addr) eqn:E; [reflexivity|].
  apply seen_false in E. destruct E as (_ & _ & Hq & _). congruence.
Qed.

Lemma enqueueIfNeeded_eq DEBUG (addr : jsval) (w : World) :
  enqueueIfNeeded DEBUG addr w
  = (if truthy addr && negb (seen (self w) (ToString addr))
     then with_queued (ToString addr) w else w, Ok tt).
Proof.
  unfold enqueueIfNeeded. destruct (truthy addr); [|reflexivity].
  unfold bind at 1, get. simpl.
  destruct (seen (self w) (ToString addr)) eqn:Hs.
  - unfold seen in Hs. rewrite <- !negb_orb, Hs. reflexivity.
  - pose proof Hs as Hs'. unfold seen in Hs. rewrite <- !negb_orb, Hs. simpl.
    apply enqueue_absent. apply seen_false in Hs'. destruct Hs' as (Hi & _ & Hq & _).
    apply has_member_false. split; assumption.
Qed.

Lemma crawl_record_eq DEBUG (addr : string) (resp : Response) (w : World) :
  crawl_record DEBUG addr resp w
  = if has_member (obj_get (queued (self w)) addr) addr
    then offer_peers DEBUG resp (stored addr resp w)
    else (w, fatal DEBUG "not queued already").
Proof.
  unfold crawl_record, bind at 1.
  destruct (has_member (obj_get (queued (self w)) addr) addr) eqn:Hq; simpl.
  - rewrite dequeue_present by exact Hq.
    destruct resp; reflexivity.
  - rewrite dequeue_absent by exact Hq. unfold fatal. destruct DEBUG; reflexivity.
Qed.

Lemma has_member_present {A} (own : option A) (k : string) :
  own <> None -> has_member own k = true.
Proof. unfold has_member. destruct own; [reflexivity|congruence]. Qed.

Lemma forEach_returns {S A} (arr : list A) (f : A -> M S unit) (s : S) :
  (forall x s, exists s', f x s = (s', Ok tt)) ->
  exists s', forEach arr f s = (s', Ok tt).
Proof.
  intros Hf. revert s. induction arr as [|x arr IH]; intros s; simpl.
  - eexists. reflexivity.
  - unfold bind. destruct (Hf x s) as [s1 ->]. apply IH.
Qed.

Lemma requestMore_eq (hops : Z) (w : World) :
  exists w', forEach (obj_keys (queued (self w))) (requestMore_turn hops) w = (w', Ok tt)
    /\ requestMore hops w = (w', Ok (negb (length (queued (self w)) =? 0)%nat)).
Proof.
  destruct (forEach_returns (obj_keys (queued (self w))) (requestMore_turn hops) w)
    as [w' Hw'].
  { intros k s. rewrite requestMore_turn_eq. eauto. }
  exists w'. split; [exact Hw'|].
  unfold requestMore, bind at 1, get. unfold bind. rewrite Hw'.
  rewrite obj_keys_length. reflexivity.
Qed.

Lemma crawl_more_eq (hops : Z) (now : string) (w : World) :
  exists w', forEach (obj_keys (queued (self w))) (requestMore_turn hops) w = (w', Ok tt)
    /\ crawl_more hops now w
       = (match queued (self w) with
          | [] => finalized now w'
          | _ => w'
          end, Ok tt).
Proof.
  destruct (requestMore_eq hops w) as (w' & Hturns & Hmore).
  exists w'. split; [exact Hturns|].
  unfold crawl_more, bind at 1. rewrite Hmore.
  destruct (queued (self w)); reflexivity.
Qed.

Lemma deliver_eq DEBUG (i : nat) (now : string) (resp : Response) (w : World) (r : Request) :
  outstanding w !! i = Some r ->
  deliver DEBUG i now resp w
  = crawl_callback DEBUG (req_ipp r) (req_hops r) now resp (taken i resp w).
Proof.
  intros Hr. unfold deliver, bind at 1, get. rewrite Hr. reflexivity.
Qed.

(** ** The two loops of a callback *)

Section Loops.
Variable DEBUG : bool.
Variable R : World -> World -> Prop.
Hypothesis R_refl : forall w, R w w.
Hypothesis R_trans : forall a b c, R a b -> R b c -> R a c.

Lemma offer_peers_related (resp : Response) :
  (forall w g, R w (mkWorld g (self w) (outstanding w) (emitted w))) ->
  (forall w addr, seen (self w) addr = false -> R w (with_queued addr w)) ->
  related R (offer_peers DEBUG resp).
Proof.
  intros Hglobals Henqueue. destruct resp as [code|body]; simpl.
  - apply related_ret, R_refl.
  - apply related_forEach; [exact R_refl|exact R_trans|].
    intros p. apply related_bind; [exact R_trans| |].
    + intros w w' r. unfold on_globals.
      destruct (normalizeIpp (peer_ip p) (peer_port p) (globals w)) as [g' r'].
      intros [= <- _]. apply Hglobals.
    + intros a w w' r. rewrite enqueueIfNeeded_eq.
      destruct (truthy a); simpl; [|intros [= <- _]; apply R_refl].
      destruct (seen (self w) (ToString a)) eqn:Ht; simpl; intros [= <- _].
      * apply R_refl.
      * apply Henqueue, Ht.
Qed.

Lemma requestMore_turns_related (hops : Z) (keys : list string) :
  (forall w addr h,
      currentRequests (self w) < maxRequests (self w) ->
      obj_get (queued (self w)) addr = Some QUEUED ->
      R w (crawled addr h w)) ->
  related R (forEach keys (requestMore_turn hops)).
Proof.
  intros Hcrawl. apply related_forEach; [exact R_refl|exact R_trans|].
  intros k w w' r. rewrite requestMore_turn_eq.
  destruct (currentRequests (self w) <? maxRequests (self w))%Z eqn:Hc; simpl;
    [|intros [= <- _]; apply R_refl].
  case_bool_decide as Hq; intros [= <- _]; [|apply R_refl].
  apply Hcrawl; [apply Z.ltb_lt, Hc|exact Hq].
Qed.

End Loops.

(** The two halves of a delivery that returns. *)
Lemma deliver_halves DEBUG (w w' : World) (i : nat) (r : Request) now resp :
  outstanding w !! i = Some r ->
  deliver DEBUG i now resp w = (w', Ok tt) ->
  exists wm,
    has_member (obj_get (queued (self w)) (req_ipp r)) (req_ipp r) = true
    /\ offer_peers DEBUG resp (stored (req_ipp r) resp (taken i resp w)) = (wm, Ok tt)
    /\ crawl_record DEBUG (req_ipp r) resp (taken i resp w) = (wm, Ok tt)
    /\ crawl_more (req_hops r) now wm = (w', Ok tt).
Proof.
  intros Hr. rewrite (deliver_eq DEBUG i now resp w r Hr).
  unfold crawl_callback. intros Hcb.
  apply bind_Ok in Hcb. destruct Hcb as (wm & [] & Hrec & Hmore).
  exists wm. pose proof Hrec as Hrec'.
  rewrite crawl_record_eq in Hrec.
  change (queued (self (taken i resp w))) with (queued (self w)) in Hrec.
  destruct (has_member (obj_get (queued (self w)) (req_ipp r)) (req_ipp r)) eqn:Hq.
  - repeat split; assumption.
  - unfold fatal in Hrec. destruct DEBUG; discriminate.
Qed.

(** ** Deliveries establish every crawl relation *)

Section CrawlRelation.
Variable DEBUG : bool.
Variable R : World -> World -> Prop.
Hypothesis HR : crawl_relation R.

Lemma crawl_more_related (hops : Z) (now : string) : related R (crawl_more hops now).
Proof.
  intros w w' r. destruct (crawl_more_eq hops now w) as (w3 & Hturns & ->).
  intros [= <- _].
  assert (H3 : R w w3).
  { eapply (requestMore_turns_related R (cr_refl R HR) (cr_trans R HR));
      [|exact Hturns].
    intros; apply (cr_crawl R HR); assumption. }
  destruct (queued (self w)); [|exact H3].
  eapply (cr_trans R HR); [exact H3|apply (cr_finalize R HR)].
Qed.

Lemma deliver_related (w w' : World) (i : nat) (r : Request) now resp :
  outstanding w !! i = Some r ->
  deliver DEBUG i now resp w = (w', Ok tt) ->
  R w w'.
Proof.
  intros Hr Hd.
  destruct (deliver_halves DEBUG w w' i r now resp Hr Hd) as (wm & Hq & Hoffer & _ & Hmore).
  eapply (cr_trans R HR); [apply (cr_answer R HR w i r resp Hr Hq)|].
  eapply (cr_trans R HR); [|eapply crawl_more_related, Hmore].
  eapply (offer_peers_related DEBUG R (cr_refl R HR) (cr_trans R HR)); [| |exact Hoffer].
  - apply (cr_globals R HR).
  - apply (cr_enqueue R HR).
Qed.

End CrawlRelation.

(** ** Node states under the elementary changes *)

Lemma obj_get_snoc {V} (o : list (string * V)) k v k' :
  obj_get (o ++ [(k, v)]) k'
  = match obj_get o k' with
    | Some x => Some x
    | None => if String.eqb k k' then Some v else None
    end.
Proof.
  induction o as [|[k0 v0] o IH]; simpl; [reflexivity|].
  destruct (String.eqb k0 k'); [reflexivity|exact IH].
Qed.

Lemma obj_get_snoc_ne {V} (o : list (string * V)) k v k' :
  k <> k' -> obj_get (o ++ [(k, v)]) k' = obj_get o k'.
Proof.
  intros Hne. rewrite obj_get_snoc. apply String.eqb_neq in Hne. rewrite Hne.
  destruct (obj_get o k'); reflexivity.
Qed.

Lemma node_state_ext (this this' : Crawler) (addr : string) :
  obj_get (queued this') addr = obj_get (queued this) addr ->
  rawResponses this' !! addr = rawResponses this !! addr ->
  errors this' !! addr = errors this !! addr ->
  node_state this' addr = node_state this addr.
Proof. unfold node_state. intros -> -> ->. reflexivity. Qed.

Lemma node_state_queued (this : Crawler) (addr : string) :
  obj_get (queued this) addr = Some QUEUED -> node_state this addr = Queued.
Proof. unfold node_state. intros ->. reflexivity. Qed.

Lemma node_state_requesting (this : Crawler) (addr : string) :
  obj_get (queued this) addr = Some REQUESTING -> node_state this addr = InFlight.
Proof. unfold node_state. intros ->. reflexivity. Qed.

Lemma settled_not_queued (this : Crawler) (addr : string) :
  settled (node_state this addr) -> obj_get (queued this) addr = None.
Proof.
  unfold node_state. destruct (obj_get (queued this) addr) as [st|]; [|reflexivity].
  destruct (st =? REQUESTING)%Z; intros [].
Qed.

Lemma settled_seen (this : Crawler) (addr : string) :
  settled (node_state this addr) -> seen this addr = true.
Proof.
  intros Hd. destruct (seen this addr) eqn:Hs; [reflexivity|].
  apply seen_false in Hs. destruct Hs as (_ & Hr & Hq & He).
  unfold node_state, js_prop in *. rewrite Hq, Hr in Hd.
  destruct (errors this !! addr) as [code|]; simpl in *; [congruence|destruct Hd].
Qed.

(** The state of another address is not touched by an answer. *)
Lemma node_state_stored_ne (w : World) (addr a : string) (resp : Response) :
  a <> addr ->
  node_state (self (stored a resp w)) addr = node_state (self w) addr.
Proof.
  intros Hne. apply node_state_ext; destruct resp; simpl;
    rewrite ?obj_get_delete_ne, ?lookup_insert_ne by exact Hne; reflexivity.
Qed.

Lemma node_state_with_queued_ne (w : World) (a addr : string) :
  a <> addr ->
  node_state (self (with_queued a w)) addr = node_state (self w) addr.
Proof.
  intros Hne. apply node_state_ext; simpl; [|reflexivity..].
  apply obj_get_snoc_ne, Hne.
Qed.

Lemma node_state_crawled_ne (w : World) (a addr : string) (hops : Z) :
  a <> addr ->
  node_state (self (crawled a hops w)) addr = node_state (self w) addr.
Proof.
  intros Hne. apply node_state_ext; simpl; [|reflexivity..].
  apply obj_get_set_ne, Hne.
Qed.

(** ** Instances of crawl relations *)

Lemma stays_tracked_relation : crawl_relation stays_tracked.
Proof.
  split; unfold stays_tracked.
  - intros; assumption.
  - intros a b c Hab Hbc addr Ha. apply Hbc, Hab, Ha.
  - intros; assumption.
  - intros w a Ha addr. unfold tracked. simpl. rewrite obj_get_snoc.
    destruct (rawResponses (self w) !! addr), (obj_get (queued (self w)) addr),
      (errors (self w) !! addr); simpl; intros H; rewrite ?orb_true_r;
      first [reflexivity | discriminate | exact H].
  - intros w a hops _ Hq addr. unfold tracked. simpl.
    destruct (decide (a = addr)) as [->|Hne].
    + rewrite obj_get_set_eq. intros _. simpl. rewrite orb_true_r. reflexivity.
    + rewrite obj_get_set_ne by exact Hne. auto.
  - intros w i r resp _ _ addr. unfold tracked.
    destruct (decide (req_ipp r = addr)) as [<-|Hne].
    + intros _. destruct resp; simpl; rewrite lookup_insert_eq; simpl;
        rewrite ?orb_true_r; reflexivity.
    + destruct resp; simpl;
        rewrite obj_get_delete_ne, lookup_insert_ne by exact Hne; auto.
  - intros; assumption.
Qed.

Lemma settled_is_final_relation : crawl_relation settled_is_final.
Proof.
  split; unfold settled_is_final.
  - reflexivity.
  - intros a b c Hab Hbc addr Hi Hd. rewrite Hbc; [apply Hab; assumption|exact Hi|].
    rewrite Hab by assumption. exact Hd.
  - reflexivity.
  - intros w a Ha addr _ Hd. apply node_state_with_queued_ne.
    intros ->. apply settled_seen in Hd. congruence.
  - intros w a hops _ Hq addr _ Hd. apply node_state_crawled_ne.
    intros ->. apply settled_not_queued in Hd. congruence.
  - intros w i r resp _ Hq addr Hi Hd.
    rewrite node_state_stored_ne; [reflexivity|].
    intros Heq. apply settled_not_queued in Hd. rewrite Heq in Hq.
    unfold has_member in Hq. rewrite Hd, Hi in Hq. discriminate.
  - reflexivity.
Qed.

Lemma same_peersData_relation : crawl_relation same_peersData.
Proof.
  split; unfold same_peersData; try (intros; reflexivity).
  - intros a b c -> ->. reflexivity.
  - intros w i r []; reflexivity.
Qed.

Lemma under_cap_relation : crawl_relation (keeps under_cap).
Proof.
  split; unfold keeps, under_cap; simpl; auto.
  - intros w a hops Hc _ _ _. lia.
  - intros w i r resp _ _ Hc Hm. destruct resp; simpl in *; specialize (Hc Hm); lia.
Qed.

(** ** Consistency of queue and transport *)

Lemma consistent_relation : crawl_relation (keeps consistent).
Proof.
  split; unfold keeps.
  - intros; assumption.
  - intros a b c Hab Hbc Ha. apply Hbc, Hab, Ha.
  - intros w g [Hd Hm Hu Hc]. split; simpl; assumption.
  - intros w a Ha [Hd Hm Hu Hc]. apply seen_false in Ha.
    destruct Ha as (_ & Hraw & Hq & _). split; simpl.
    + exact Hd.
    + intros r Hr. specialize (Hm r Hr).
      rewrite obj_get_snoc_ne; [exact Hm|]. intros ->. congruence.
    + intros addr. destruct (decide (a = addr)) as [<-|Hne]; [intros _; exact Hraw|].
      rewrite obj_get_snoc_ne by exact Hne. apply Hu.
    + exact Hc.
  - intros w a hops _ Hq [Hd Hm Hu Hc]. split; simpl.
    + rewrite fmap_app. apply NoDup_app. split; [exact Hd|]. split.
      * intros x Hx Hin. simpl in Hin. apply list_elem_of_singleton in Hin. subst x.
        apply list_elem_of_fmap in Hx. destruct Hx as (r & Hr & Hin).
        specialize (Hm r Hin). rewrite <- Hr, Hq in Hm. discriminate.
      * apply NoDup_singleton.
    + intros r Hr. apply elem_of_app in Hr. destruct Hr as [Hr|Hr].
      * specialize (Hm r Hr). destruct (decide (a = req_ipp r)) as [Heq|Hne].
        { rewrite <- Heq, Hq in Hm. discriminate. }
        rewrite obj_get_set_ne by exact Hne. exact Hm.
      * apply list_elem_of_singleton in Hr. subst r. simpl. apply obj_get_set_eq.
    + intros addr. destruct (decide (a = addr)) as [<-|Hne].
      * intros _. apply Hu. congruence.
      * rewrite obj_get_set_ne by exact Hne. apply Hu.
    + rewrite length_app. simpl. lia.
  - intros w i r resp Hr Hq [Hd Hm Hu Hc].
    assert (Hperm : outstanding w ≡ₚ r :: delete i (outstanding w))
      by (apply delete_Permutation, Hr).
    assert (Hd' : NoDup (req_ipp r :: (req_ipp <$> delete i (outstanding w)))).
    { change (NoDup (req_ipp <$> r :: delete i (outstanding w))).
      rewrite <- Hperm. exact Hd. }
    apply NoDup_cons in Hd'. destruct Hd' as [Hnotin Hd'].
    assert (Hlen : length (outstanding w) = S (length (delete i (outstanding w))))
      by (rewrite Hperm at 1; reflexivity).
    assert (Hother : forall r', r' ∈ delete i (outstanding w) -> req_ipp r <> req_ipp r').
    { intros r' Hr' Heq. apply Hnotin. rewrite Heq.
      apply list_elem_of_fmap_2, Hr'. }
    split.
    + destruct resp; exact Hd'.
    + intros r' Hr'.
      assert (Hget : obj_get (obj_delete (queued (self w)) (req_ipp r)) (req_ipp r')
                     = Some REQUESTING).
      { rewrite obj_get_delete_ne by (apply Hother, Hr').
        apply Hm. eapply list_elem_of_delete_inv, Hr'. }
      destruct resp; exact Hget.
    + intros addr Haddr.
      assert (Hne : req_ipp r <> addr).
      { intros <-. destruct resp; simpl in Haddr;
          rewrite obj_get_delete_eq in Haddr; congruence. }
      assert (Hin : obj_get (queued (self w)) addr <> None).
      { destruct resp; simpl in Haddr;
          rewrite obj_get_delete_ne in Haddr by exact Hne; exact Haddr. }
      destruct resp; simpl; rewrite ?lookup_insert_ne by exact Hne; apply Hu, Hin.
    + destruct resp; simpl in *; lia.
  - intros w now [Hd Hm Hu Hc]. split; simpl; assumption.
Qed.

Lemma enter_eq (ip now : string) (w : World) :
  enter ip now w
  = (crawled (withDefaultPort ip) 0
       (mkWorld (globals w)
                (set_entryIP (withDefaultPort ip) (set_startTime now (self w)))
                (outstanding w) (emitted w)), Ok tt).
Proof. reflexivity. Qed.

Lemma reachable_consistent DEBUG (w : World) : reachable DEBUG w -> consistent w.
Proof.
  induction 1 as [g maxRequests ip now w Henter|w i now resp w' _ IH [r Hr] Hd].
  - rewrite enter_eq in Henter. injection Henter as <-. split; simpl.
    + apply NoDup_singleton.
    + intros r Hr. apply list_elem_of_singleton in Hr. subst r. simpl.
      rewrite String.eqb_refl. reflexivity.
    + intros addr _. apply lookup_empty.
    + reflexivity.
  - exact (deliver_related DEBUG _ consistent_relation w w' i r now resp Hr Hd IH).
Qed.

(** ** Admission, in the order of the keys *)

Lemma requestMore_turns_admit (hops : Z) (keys : list string) (w : World) :
  NoDup keys ->
  forEach keys (requestMore_turn hops) w
  = (admitted
       (take (free_slots (self w))
          (List.filter (fun k => bool_decide (obj_get (queued (self w)) k = Some QUEUED)) keys))
       (hops + 1) w, Ok tt).
Proof.
  revert w. induction keys as [|k keys IH]; intros w Hnd.
  - simpl. rewrite take_nil. reflexivity.
  - apply NoDup_cons in Hnd. destruct Hnd as [Hk Hnd].
    cbn [forEach]. unfold bind. rewrite requestMore_turn_eq.
    rewrite IH by exact Hnd. clear IH. cbn [List.filter].
    destruct (currentRequests (self w) <? maxRequests (self w))%Z eqn:Hc.
    + apply Z.ltb_lt in Hc.
      case_bool_decide as Hq; cbn [andb]; [|reflexivity].
      assert (Hfree : free_slots (self w) = S (free_slots (self (crawled k (hops + 1) w)))).
      { unfold free_slots. simpl. lia. }
      assert (Hfilter :
        List.filter (fun k0 => bool_decide
            (obj_get (queued (self (crawled k (hops + 1) w))) k0 = Some QUEUED)) keys
        = List.filter (fun k0 => bool_decide
            (obj_get (queued (self w)) k0 = Some QUEUED)) keys).
      { apply List.filter_ext_in. intros k' Hin. simpl.
        rewrite obj_get_set_ne; [reflexivity|].
        intros ->. apply Hk, list_elem_of_In, Hin. }
      rewrite Hfilter, Hfree. reflexivity.
    + apply Z.ltb_ge in Hc. cbn [andb].
      assert (Hfree : free_slots (self w) = 0%nat) by (unfold free_slots; lia).
      rewrite Hfree. rewrite !take_0. reflexivity.
Qed.

Lemma admitted_fields (addrs : list string) (hops : Z) (w : World) :
  outstanding (admitted addrs hops w)
  = (outstanding w ++ ((fun a => mkRequest (crawlUrl a) a hops) <$> addrs))%list
  /\ currentRequests (self (admitted addrs hops w))
     = currentRequests (self w) + Z.of_nat (length addrs)
  /\ (forall a, a ∉ addrs ->
        obj_get (queued (self (admitted addrs hops w))) a = obj_get (queued (self w)) a)
  /\ (forall a, a ∈ addrs ->
        obj_get (queued (self (admitted addrs hops w))) a = Some REQUESTING)
  /\ rawResponses (self (admitted addrs hops w)) = rawResponses (self w)
  /\ errors (self (admitted addrs hops w)) = errors (self w)
  /\ emitted (admitted addrs hops w) = emitted w.
Proof.
  revert w. induction addrs as [|a addrs IH]; intros w.
  - simpl. rewrite app_nil_r. repeat split; try lia.
    intros a Ha. apply elem_of_nil in Ha. destruct Ha.
  - destruct (IH (crawled a hops w)) as (Ho & Hc & Hkeep & Hreq & Hraw & Herr & Hem).
    change (admitted (a :: addrs) hops w) with (admitted addrs hops (crawled a hops w)).
    rewrite Ho, Hc, Hraw, Herr, Hem. simpl. split; [|split; [|split; [|split]]].
    + rewrite <- app_assoc. reflexivity.
    + lia.
    + intros b Hnot. apply not_elem_of_cons in Hnot. destruct Hnot as [Hne Hnot].
      rewrite Hkeep by exact Hnot. simpl. apply obj_get_set_ne. congruence.
    + intros b Hb. apply elem_of_cons in Hb.
      destruct (decide (b ∈ addrs)) as [Hin|Hnot]; [apply Hreq, Hin|].
      destruct Hb as [->|Hb]; [|contradiction].
      rewrite Hkeep by exact Hnot. simpl. apply obj_get_set_eq.
    + repeat split.
Qed.

(** ** Bookkeeping of the three maps *)

Lemma well_tracked_relation : crawl_relation (keeps well_tracked).
Proof.
  split; unfold keeps.
  - intros; assumption.
  - intros a b c Hab Hbc Ha. apply Hbc, Hab, Ha.
  - intros w g [Hc Hk Ho Hs Hr Hqe Hao Hso He]. split; try assumption.
    apply (cr_globals _ consistent_relation w g Hc).
  - intros w a Hnew [Hc Hk Ho Hs Hr Hqe Hao Hso [entry [He Het]]].
    pose proof Hnew as Hnew'. apply seen_false in Hnew'.
    destruct Hnew' as (Hown & Hraw & Hq & Herr). split.
    + apply (cr_enqueue _ consistent_relation w a Hnew Hc).
    + simpl. apply obj_keys_snoc_NoDup; assumption.
    + intros addr. simpl. rewrite obj_get_snoc.
      destruct (obj_get (queued (self w)) addr) as [st|] eqn:E;
        [intros _; apply Ho; congruence|].
      destruct (String.eqb a addr) eqn:E2; [|congruence].
      apply String.eqb_eq in E2. subst addr. intros _. exact Hown.
    + intros addr status. simpl. rewrite obj_get_snoc.
      destruct (obj_get (queued (self w)) addr) as [st|] eqn:E; [intros [= <-]; eapply Hs, E|].
      destruct (String.eqb a addr); [intros [= <-]; left; reflexivity|discriminate].
    + intros addr. simpl. rewrite obj_get_snoc.
      destruct (obj_get (queued (self w)) addr) as [st|] eqn:E; [intros [= ->]; apply Hr, E|].
      destruct (String.eqb a addr); discriminate.
    + intros addr. simpl. destruct (decide (a = addr)) as [<-|Hne]; [intros _; exact Herr|].
      rewrite obj_get_snoc_ne by exact Hne. apply Hqe.
    + exact Hao.
    + exact Hso.
    + exists entry. split; [exact He|].
      apply (cr_enqueue _ stays_tracked_relation w a Hnew entry Het).
  - intros w a hops Hlt Hq [Hc Hk Ho Hs Hr Hqe Hao Hso [entry [He Het]]]. split.
    + apply (cr_crawl _ consistent_relation w a hops Hlt Hq Hc).
    + simpl. rewrite obj_keys_set_present by congruence. exact Hk.
    + intros addr. simpl. destruct (decide (a = addr)) as [<-|Hne].
      * intros _. apply Ho. congruence.
      * rewrite obj_get_set_ne by exact Hne. apply Ho.
    + intros addr status. simpl. destruct (decide (a = addr)) as [<-|Hne].
      * rewrite obj_get_set_eq. intros [= <-]. right. reflexivity.
      * rewrite obj_get_set_ne by exact Hne. apply Hs.
    + intros addr. simpl. rewrite fmap_app, elem_of_app.
      destruct (decide (a = addr)) as [<-|Hne].
      * intros _. right. simpl. apply list_elem_of_here.
      * rewrite obj_get_set_ne by exact Hne. intros H. left. apply Hr, H.
    + intros addr. simpl. destruct (decide (a = addr)) as [<-|Hne].
      * intros _. apply Hqe. congruence.
      * rewrite obj_get_set_ne by exact Hne. apply Hqe.
    + exact Hao.
    + exact Hso.
    + exists entry. split; [exact He|].
      apply (cr_crawl _ stays_tracked_relation w a hops Hlt Hq entry Het).
  - intros w i r resp Hri Hm [Hc Hk Ho Hs Hr Hqe Hao Hso [entry [He Het]]].
    assert (Hq : obj_get (queued (self w)) (req_ipp r) <> None).
    { rewrite (requests_marked w Hc r (list_elem_of_lookup_2 _ _ _ Hri)). discriminate. }
    set (a := req_ipp r) in *.
    assert (Hperm : outstanding w ≡ₚ r :: delete i (outstanding w))
      by (apply delete_Permutation, Hri).
    assert (Hrest : forall addr, addr <> a -> addr ∈ req_ipp <$> outstanding w ->
              addr ∈ req_ipp <$> delete i (outstanding w)).
    { intros addr Hne Hin. rewrite Hperm in Hin. simpl in Hin.
      apply elem_of_cons in Hin. destruct Hin as [Heq|Hin]; [contradiction|exact Hin]. }
    assert (Hraw : rawResponses (self w) !! a = None)
      by (apply (queued_unanswered w Hc), Hq).
    assert (Herr : js_prop (errors (self w)) a = JUndefined) by (apply Hqe, Hq).
    assert (Hown : inherited a = false) by (apply Ho, Hq).
    assert (Hleft : forall addr,
              obj_get (obj_delete (queued (self w)) a) addr <> None ->
              a <> addr /\ obj_get (queued (self w)) addr <> None).
    { intros addr Hst. destruct (decide (a = addr)) as [<-|Hne];
        [rewrite obj_get_delete_eq in Hst; congruence|].
      rewrite obj_get_delete_ne in Hst by exact Hne. split; assumption. }
    split.
    + apply (cr_answer _ consistent_relation w i r resp Hri Hm Hc).
    + destruct resp; apply obj_keys_delete_NoDup, Hk.
    + intros addr Hst. apply Ho, (Hleft addr). destruct resp; exact Hst.
    + intros addr status Hst.
      assert (Hst' : obj_get (obj_delete (queued (self w)) a) addr = Some status)
        by (destruct resp; exact Hst).
      destruct (Hleft addr) as [Hne _]; [congruence|].
      rewrite obj_get_delete_ne in Hst' by exact Hne. eapply Hs, Hst'.
    + intros addr Hst.
      assert (Hst' : obj_get (obj_delete (queued (self w)) a) addr = Some REQUESTING)
        by (destruct resp; exact Hst).
      destruct (Hleft addr) as [Hne _]; [congruence|].
      rewrite obj_get_delete_ne in Hst' by exact Hne.
      assert (Hin : addr ∈ req_ipp <$> delete i (outstanding w))
        by (apply Hrest; [congruence|apply Hr, Hst']).
      destruct resp; exact Hin.
    + intros addr Hst.
      destruct (Hleft addr) as [Hne Hin]; [destruct resp; exact Hst|].
      unfold js_prop in *. destruct resp; simpl;
        rewrite ?lookup_insert_ne by exact Hne; apply Hqe, Hin.
    + intros addr. unfold js_prop in *. destruct resp as [code|body]; simpl.
      * destruct (decide (a = addr)) as [<-|Hne]; [congruence|].
        rewrite lookup_insert_ne by exact Hne. apply Hao.
      * destruct (decide (a = addr)) as [<-|Hne]; [intros _; exact Herr|].
        rewrite lookup_insert_ne by exact Hne. apply Hao.
    + intros addr. destruct (decide (a = addr)) as [<-|Hne]; [intros _; exact Hown|].
      destruct resp; simpl; rewrite ?lookup_insert_ne by exact Hne; apply Hso.
    + exists entry. split; [destruct resp; exact He|].
      apply (cr_answer _ stays_tracked_relation w i r resp Hri Hm entry Het).
  - intros w now [Hc Hk Ho Hs Hr Hqe Hao Hso He]. split; try assumption.
    apply (cr_finalize _ consistent_relation w now Hc).
Qed.

Lemma reachable_well_tracked DEBUG (w : World) : reachable DEBUG w -> well_tracked w.
Proof.
  induction 1 as [g maxRequests ip now w Henter|w i now resp w' Hw IH [r Hr] Hd].
  - pose proof (reachable_consistent DEBUG w (reach_enter DEBUG g maxRequests ip now w Henter))
      as Hc.
    rewrite enter_eq in Henter. injection Henter as <-. split; simpl.
    + exact Hc.
    + apply obj_keys_NoDup. simpl. apply NoDup_singleton.
    + intros addr. destruct (String.eqb _ addr) eqn:E; [|congruence].
      apply String.eqb_eq in E. subst addr. intros _.
      apply inherited_no_colon, withDefaultPort_has_colon.
    + intros addr status. destruct (String.eqb _ addr); [|discriminate].
      intros [= <-]. right. reflexivity.
    + intros addr. destruct (String.eqb _ addr) eqn:E; [|discriminate].
      apply String.eqb_eq in E. subst addr. intros _. apply list_elem_of_here.
    + intros addr _. unfold js_prop. rewrite lookup_empty. reflexivity.
    + intros addr _. unfold js_prop. rewrite lookup_empty. reflexivity.
    + intros addr. rewrite !lookup_empty. intros [H|H]; congruence.
    + eexists. split; [reflexivity|]. unfold tracked. simpl.
      rewrite String.eqb_refl. simpl. rewrite orb_true_r. reflexivity.
  - destruct (deliver_halves DEBUG w w' i r now resp Hr Hd) as (_ & Hm & _).
    exact (deliver_related DEBUG _ well_tracked_relation w w' i r now resp Hr Hd IH).
Qed.

(** The world between the two halves of a delivery is well tracked. *)
Lemma deliver_middle_well_tracked DEBUG (w wm : World) (i : nat) (r : Request) resp :
  well_tracked w ->
  outstanding w !! i = Some r ->
  offer_peers DEBUG resp (stored (req_ipp r) resp (taken i resp w)) = (wm, Ok tt) ->
  well_tracked wm.
Proof.
  intros Hw Hr Hoffer.
  eapply (offer_peers_related DEBUG (keeps well_tracked)); [| | | |exact Hoffer|].
  - apply (cr_refl _ well_tracked_relation).
  - apply (cr_trans _ well_tracked_relation).
  - apply (cr_globals _ well_tracked_relation).
  - apply (cr_enqueue _ well_tracked_relation).
  - apply (cr_answer _ well_tracked_relation w i r resp Hr); [|exact Hw].
    apply has_member_present.
    rewrite (requests_marked w (wt_consistent w Hw) r (list_elem_of_lookup_2 _ _ _ Hr)).
    discriminate.
Qed.

(** [requestMore] moves exactly the first waiting addresses that fit under
    the cap from Queued to InFlight. *)
Lemma crawl_more_admits (hops : Z) (now : string) (w w' : World) :
  NoDup (obj_keys (queued (self w))) ->
  crawl_more hops now w = (w', Ok tt) ->
  let chosen := take (free_slots (self w)) (queued_addresses (self w)) in
  (forall addr, addr ∈ chosen ->
     node_state (self w) addr = Queued /\ node_state (self w') addr = InFlight)
  /\ (forall addr, addr ∉ chosen -> node_state (self w') addr = node_state (self w) addr)
  /\ currentRequests (self w') = currentRequests (self w) + Z.of_nat (length chosen)
  /\ (chosen <> [] -> currentRequests (self w') <= maxRequests (self w)).
Proof.
  intros Hnd Hmore chosen.
  destruct (crawl_more_eq hops now w) as (w3 & Hturns & Heq).
  rewrite Heq in Hmore. injection Hmore as Hw'.
  rewrite requestMore_turns_admit in Hturns by exact Hnd. injection Hturns as Hw3.
  fold (queued_addresses (self w)) in Hw3. fold chosen in Hw3.
  destruct (admitted_fields chosen (hops + 1) w) as (_ & Hcur & Hkeep & Hreq & Hraw & Herr & _).
  rewrite Hw3 in Hcur, Hkeep, Hreq, Hraw, Herr.
  assert (Hstate : forall addr, node_state (self w') addr = node_state (self w3) addr).
  { intros addr. subst w'. destruct (queued (self w)); reflexivity. }
  assert (Hcount : currentRequests (self w') = currentRequests (self w3)).
  { subst w'. destruct (queued (self w)); reflexivity. }
  split; [|split; [|split]].
  - intros addr Hin. rewrite Hstate. split.
    + apply node_state_queued.
      assert (Hq : addr ∈ queued_addresses (self w)).
      { unfold chosen in Hin. rewrite <- (take_drop (free_slots (self w))).
        apply elem_of_app. left. exact Hin. }
      unfold queued_addresses in Hq. apply list_elem_of_In, List.filter_In in Hq.
      destruct Hq as [_ Hq]. apply bool_decide_eq_true in Hq. exact Hq.
    + apply node_state_requesting, Hreq, Hin.
  - intros addr Hnot. rewrite Hstate. apply node_state_ext;
      [apply Hkeep, Hnot|rewrite Hraw; reflexivity|rewrite Herr; reflexivity].
  - rewrite Hcount. exact Hcur.
  - intros Hne. rewrite Hcount, Hcur.
    assert (Hlen : (length chosen <= free_slots (self w))%nat).
    { unfold chosen. rewrite length_take. lia. }
    assert (Hpos : (0 < free_slots (self w))%nat).
    { destruct (free_slots (self w)); [|lia]. unfold chosen in Hne.
      rewrite take_0 in Hne. congruence. }
    unfold free_slots in *. lia.
Qed.

(** ** The moves of the two halves *)

Lemma only_discovers_trans (a b c : World) :
  only_discovers a b -> only_discovers b c -> only_discovers a c.
Proof.
  intros Hab Hbc addr Hne. destruct (Hab addr Hne) as [Eab|[Ea Eb]].
  - destruct (Hbc addr) as [Ebc|[Eb' Ec]]; [congruence| |].
    + left. congruence.
    + right. split; congruence.
  - destruct (Hbc addr) as [Ebc|[Eb' Ec]]; [congruence| |].
    + right. split; congruence.
    + congruence.
Qed.

Lemma offer_peers_only_discovers DEBUG (resp : Response) (w w' : World) :
  offer_peers DEBUG resp w = (w', Ok tt) -> only_discovers w w'.
Proof.
  apply (offer_peers_related DEBUG only_discovers).
  - intros s addr _. left. reflexivity.
  - exact only_discovers_trans.
  - intros s g addr _. left. reflexivity.
  - intros s a Ha addr Hcode. destruct (decide (a = addr)) as [<-|Hne].
    + right. apply seen_false in Ha. destruct Ha as (_ & Hr & Hq & He).
      split.
      * unfold node_state, js_prop in *. rewrite Hq, Hr in *.
        destruct (errors (self s) !! a); simpl in *; congruence.
      * apply node_state_queued. simpl. rewrite obj_get_snoc, Hq.
        rewrite String.eqb_refl. reflexivity.
    + left. apply node_state_with_queued_ne, Hne.
Qed.

Lemma offer_peers_same_session DEBUG (resp : Response) (w w' : World) :
  offer_peers DEBUG resp w = (w', Ok tt) -> same_session w w'.
Proof.
  apply (offer_peers_related DEBUG same_session); unfold same_session.
  - intros s. repeat split.
  - intros a b c (-> & -> & -> & ->) (-> & -> & -> & ->). repeat split.
  - intros s g. repeat split.
  - intros s a _. repeat split.
Qed.

Lemma offer_peers_stored DEBUG (resp : Response) (w w' : World) (addr : string) :
  offer_peers DEBUG resp (stored addr resp w) = (w', Ok tt) ->
  rawResponses (self w) !! addr = None ->
  node_state (self w') addr = done_of resp.
Proof.
  intros Hoffer Hraw.
  assert (Hdone : node_state (self (stored addr resp w)) addr = done_of resp).
  { unfold node_state. destruct resp; simpl; rewrite obj_get_delete_eq.
    - rewrite Hraw, lookup_insert_eq. reflexivity.
    - rewrite lookup_insert_eq. reflexivity. }
  destruct resp as [code|body]; [simpl in Hoffer; injection Hoffer as <-; exact Hdone|].
  assert (Hkept : keeps (fun s => obj_get (queued (self s)) addr = None
                                 /\ rawResponses (self s) !! addr = Some body)
                        (stored addr (Success body) w) w').
  { eapply (offer_peers_related DEBUG
              (keeps (fun s => obj_get (queued (self s)) addr = None
                               /\ rawResponses (self s) !! addr = Some body))
              (fun s H => H) (fun a b c Hab Hbc Ha => Hbc (Hab Ha)) (Success body));
      [| |exact Hoffer].
    - intros s g H. exact H.
    - intros s a Ha [Hq Hr]. apply seen_false in Ha. destruct Ha as (_ & Ha & _).
      simpl. split; [|exact Hr]. rewrite obj_get_snoc_ne; [exact Hq|congruence]. }
  destruct Hkept as [Hq Hr];
    [simpl; rewrite obj_get_delete_eq, lookup_insert_eq; split; reflexivity|].
  unfold node_state. rewrite Hq, Hr. reflexivity.
Qed.

Lemma requestMore_turns_same_report (hops : Z) (keys : list string) (w w' : World) :
  forEach keys (requestMore_turn hops) w = (w', Ok tt) -> same_report w w'.
Proof.
  apply (requestMore_turns_related same_report); unfold same_report.
  - intros s. repeat split.
  - intros a b c (-> & -> & ->) (-> & -> & ->). repeat split.
  - intros s a h _ Hq. simpl. repeat split.
    apply obj_keys_set_present. congruence.
Qed.

(** The scan of an empty queue finalizes; any other scan leaves the
    session open. *)
Lemma crawl_more_cases (hops : Z) (now : string) (w w' : World) :
  crawl_more hops now w = (w', Ok tt) ->
  (queued (self w) = [] /\ w' = finalized now w)
  \/ (queued (self w) <> [] /\ same_report w w').
Proof.
  destruct (crawl_more_eq hops now w) as (w3 & Hturns & ->). intros [= <-].
  destruct (queued (self w)) as [|kv q] eqn:Hq.
  - left. simpl in Hturns. injection Hturns as <-. split; reflexivity.
  - right. split; [discriminate|].
    apply requestMore_turns_same_report in Hturns. exact Hturns.
Qed.

(** Every crawl relation holds along the events of a crawling process. *)
Lemma progress_related DEBUG (R : World -> World -> Prop) (w w' : World) :
  crawl_relation R -> rtc (progress DEBUG) w w' -> R w w'.
Proof.
  intros HR. induction 1 as [w|w w1 w2 Hstep _ IH].
  - apply (cr_refl R HR).
  - apply (cr_trans R HR w w1 w2); [|exact IH].
    destruct Hstep as [(i & now & resp & Hd)|[(addr & He)|(ip & port & r & Hg)]].
    + destruct (outstanding w !! i) as [r|] eqn:Hr.
      * exact (deliver_related DEBUG R HR w w1 i r now resp Hr Hd).
      * unfold deliver, bind, get in Hd. rewrite Hr in Hd. injection Hd as <-.
        apply (cr_refl R HR).
    + rewrite enqueueIfNeeded_eq in He. injection He as <-.
      destruct (truthy addr && negb (seen (self w) (ToString addr))) eqn:Hc.
      * apply (cr_enqueue R HR).
        apply andb_true_iff in Hc. destruct Hc as [_ Hc].
        apply negb_true_iff in Hc. exact Hc.
      * apply (cr_refl R HR).
    + unfold on_globals in Hg.
      destruct (normalizeIpp ip port (globals w)) as [g' r'].
      injection Hg as <- _. apply (cr_globals R HR).
Qed.

(** ** The queue *)

Lemma seen_ext (this this' : Crawler) (addr : string) :
  rawResponses this' !! addr = rawResponses this !! addr ->
  obj_get (queued this') addr = obj_get (queued this) addr ->
  errors this' !! addr = errors this !! addr ->
  seen this' addr = seen this addr.
Proof. unfold seen. intros -> -> ->. reflexivity. Qed.

(** An address that has been seen stays seen, unless [errors] comes to
    hold [undefined] for it. *)
Lemma stays_seen_relation (addr : string) :
  crawl_relation
    (keeps (fun w => seen (self w) addr = true
                     \/ errors (self w) !! addr = Some JUndefined)).
Proof.
  split; unfold keeps.
  - intros; assumption.
  - intros a b c Hab Hbc Ha. apply Hbc, Hab, Ha.
  - intros; assumption.
  - intros w a _ [Hs|He]; [left|right; exact He].
    destruct (seen (self (with_queued a w)) addr) eqn:E; [reflexivity|].
    apply seen_false in E. simpl in E. destruct E as (Hi & Hr & Hq & He).
    rewrite obj_get_snoc in Hq.
    destruct (obj_get (queued (self w)) addr) eqn:Hq'; [discriminate|].
    assert (seen (self w) addr = false) by (apply seen_false; auto). congruence.
  - intros w a hops _ Ha [Hs|He]; [left|right; exact He].
    destruct (seen (self (crawled a hops w)) addr) eqn:E; [reflexivity|].
    apply seen_false in E. simpl in E. destruct E as (Hi & Hr & Hq & He).
    destruct (decide (a = addr)) as [<-|Hne]; [rewrite obj_get_set_eq in Hq; discriminate|].
    rewrite obj_get_set_ne in Hq by exact Hne.
    assert (seen (self w) addr = false) by (apply seen_false; auto). congruence.
  - intros w i r resp _ _ H. destruct (decide (req_ipp r = addr)) as [<-|Hne].
    + destruct resp as [code|body]; simpl.
      * destruct (decide (code = JUndefined)) as [->|Hc];
          [right; apply lookup_insert_eq|left].
        unfold seen, has_value. simpl. rewrite lookup_insert_eq.
        rewrite bool_decide_eq_true_2 by exact Hc. apply orb_true_r.
      * left. unfold seen, has_member. simpl. rewrite lookup_insert_eq. reflexivity.
    + assert (Hs : seen (self (stored (req_ipp r) resp (taken i resp w))) addr
                   = seen (self w) addr).
      { apply seen_ext; destruct resp; simpl;
          rewrite ?lookup_insert_ne, ?obj_get_delete_ne by exact Hne; reflexivity. }
      rewrite Hs. destruct H as [H|H]; [left; exact H|right].
      destruct resp; simpl; rewrite ?lookup_insert_ne by exact Hne; exact H.
  - intros; assumption.
Qed.

Lemma sample_refetched_reachable : reachable true sample_refetched.
Proof.
  unfold sample_refetched.
  set (A := mkPeer (JStr "10.0.0.2") JUndefined).
  set (B := mkPeer (JStr "10.0.0.3") JUndefined).
  set (t := "2016-01-01T00:00:09Z").
  set (w0 := (enter "10.0.0.1" "2016-01-01T00:00:00Z" (new_World no_globals None)).1).
  assert (H0 : reachable true w0) by (eapply reach_enter; reflexivity).
  set (w1 := (deliver true 0 t (Success (mkBody [A; B] "entry")) w0).1).
  assert (H1 : reachable true w1).
  { apply (reach_deliver true w0 0 t (Success (mkBody [A; B] "entry")));
      [exact H0|eexists; vm_compute; reflexivity|vm_compute; reflexivity]. }
  set (w2 := (deliver true 0 t (Failure JUndefined) w1).1).
  assert (H2 : reachable true w2).
  { apply (reach_deliver true w1 0 t (Failure JUndefined));
      [exact H1|eexists; vm_compute; reflexivity|vm_compute; reflexivity]. }
  apply (reach_deliver true w2 0 t (Success (mkBody [A] "B")));
    [exact H2|eexists; vm_compute; reflexivity|vm_compute; reflexivity].
Qed.

(** C4.  [enqueueIfNeeded] takes [errors[addr] === undefined] for "no
    error stored": an address whose request failed with an error that has
    no [code] is a key of [errors], Done by the three maps, and all the
    same enqueued again when it is offered.  So in the sample traversal:
    the request to 10.0.0.2 fails without a code, 10.0.0.3 then names
    10.0.0.2, and a second request to 10.0.0.2 is outstanding. *)
Theorem failure_without_code_is_enqueued_again :
  (forall (DEBUG : bool) (w : World) (addr : string),
      has_colon addr = true ->
      rawResponses (self w) !! addr = None ->
      obj_get (queued (self w)) addr = None ->
      errors (self w) !! addr = Some JUndefined ->
      tracked (self w) addr = true
      /\ node_state (self w) addr = Done_failure JUndefined
      /\ enqueueIfNeeded DEBUG (JStr addr) w = (with_queued addr w, Ok tt)
      /\ node_state (self (with_queued addr w)) addr = Queued)
  /\ reachable true sample_refetched
  /\ emitted sample_refetched
     = [EvRequest (Success (mkBody [mkPeer (JStr "10.0.0.2") JUndefined;
                                    mkPeer (JStr "10.0.0.3") JUndefined] "entry"));
        EvRequest (Failure JUndefined);
        EvRequest (Success (mkBody [mkPeer (JStr "10.0.0.2") JUndefined] "B"))]
  /\ errors (self sample_refetched) !! "10.0.0.2:51235" = Some JUndefined
  /\ queued (self sample_refetched) = [("10.0.0.2:51235", REQUESTING)]
  /\ outstanding sample_refetched
     = [mkRequest "https://10.0.0.2:51235/crawl" "10.0.0.2:51235" 2].
Proof.
  split.
  - intros DEBUG w addr Hc Hr Hq He.
    assert (Hs : seen (self w) addr = false).
    { apply seen_false. unfold js_prop. rewrite He.
      repeat split; [apply inherited_no_colon, Hc|assumption..]. }
    assert (Ht : truthy (JStr addr) = true) by (destruct addr; [discriminate Hc|reflexivity]).
    split; [unfold tracked; rewrite He; apply orb_true_r|].
    split; [unfold node_state; rewrite Hq, Hr, He; reflexivity|].
    split.
    + rewrite enqueueIfNeeded_eq, Ht. simpl. rewrite Hs. reflexivity.
    + apply node_state_queued. simpl. rewrite obj_get_snoc, Hq, String.eqb_refl.
      reflexivity.
  - split; [exact sample_refetched_reachable|]. vm_compute. repeat split.
Qed.

Lemma failure_without_code_is_enqueued_again_witness :
  let w := mkWorld no_globals
             (set_errors {[ "10.0.0.2:51235" := JUndefined ]} (new_Crawler None)) [] [] in
  has_colon "10.0.0.2:51235" = true
  /\ errors (self w) !! "10.0.0.2:51235" = Some JUndefined
  /\ enqueueIfNeeded true (JStr "10.0.0.2:51235") w
     = (with_queued "10.0.0.2:51235" w, Ok tt).
Proof.
  intros w.
  assert (He : errors (self w) !! "10.0.0.2:51235" = Some JUndefined)
    by (vm_compute; reflexivity).
  split; [reflexivity|]. split; [exact He|].
  apply (proj1 failure_without_code_is_enqueued_again true w "10.0.0.2:51235");
    [reflexivity|vm_compute; reflexivity|reflexivity|exact He].
Defined.

(** ** The cap on outstanding requests *)

Lemma reachable_under_cap DEBUG (w : World) : reachable DEBUG w -> under_cap w.
Proof.
  induction 1 as [g maxRequests ip now w Henter|w i now resp w' _ IH [r Hr] Hd].
  - rewrite enter_eq in Henter. injection Henter as <-.
    unfold under_cap. simpl. lia.
  - exact (deliver_related DEBUG _ under_cap_relation w w' i r now resp Hr Hd IH).
Qed.

(** C7, as stated, fails: [enter] issues the first request without looking
    at the cap, so a crawler built with the cap -1 has one request
    outstanding. *)
Lemma entry_request_ignores_cap :
  let w := (enter "10.0.0.1" "2016-01-01T00:00:00Z" (new_World no_globals (Some (-1)))).1 in
  reachable true w
  /\ maxRequests (self w) = -1
  /\ currentRequests (self w) = 1
  /\ length (outstanding w) = 1%nat
  /\ ~ currentRequests (self w) <= maxRequests (self w).
Proof.
  intros w. split; [eapply reach_enter; reflexivity|].
  repeat split. simpl. lia.
Qed.

(** C7, amended.  In a traversal with a cap of at least 1 the counter never
    exceeds the cap and counts exactly the outstanding requests, so with a
    cap of 1 at most one request is outstanding; [requestMore] issues a
    request only after finding the counter below the cap. *)
Theorem outstanding_requests_within_cap (DEBUG : bool) :
  (forall w : World,
      reachable DEBUG w ->
      1 <= maxRequests (self w) ->
      currentRequests (self w) <= maxRequests (self w)
      /\ Z.of_nat (length (outstanding w)) = currentRequests (self w)
      /\ (maxRequests (self w) = 1 -> (length (outstanding w) <= 1)%nat))
  /\ (forall (w w' : World) (hops : Z) (addr : string),
         requestMore_turn hops addr w = (w', Ok tt) ->
         outstanding w' <> outstanding w ->
         currentRequests (self w) < maxRequests (self w)).
Proof.
  split.
  - intros w Hw Hcap.
    pose proof (reachable_under_cap DEBUG w Hw Hcap) as Hle.
    pose proof (requests_counted w (reachable_consistent DEBUG w Hw)) as Hcount.
    split; [exact Hle|]. split; [exact Hcount|]. intros H1. lia.
  - intros w w' hops addr Hturn Hne. rewrite requestMore_turn_eq in Hturn.
    destruct (currentRequests (self w) <? maxRequests (self w))%Z eqn:Hc;
      [apply Z.ltb_lt, Hc|].
    simpl in Hturn. injection Hturn as <-. congruence.
Qed.

(** ** The sample traversal *)

Lemma sample_entered_reachable : reachable true sample_entered.
Proof. eapply reach_enter. reflexivity. Qed.

Lemma sample_delivery :
  deliver true 0 "2016-01-01T00:00:01Z" (Success sample_body) sample_entered
  = (sample_answered, Ok tt).
Proof. vm_compute. reflexivity. Qed.

Lemma sample_answered_reachable : reachable true sample_answered.
Proof.
  apply (reach_deliver true sample_entered 0 "2016-01-01T00:00:01Z" (Success sample_body));
    [exact sample_entered_reachable|eexists; vm_compute; reflexivity|exact sample_delivery].
Qed.

(** With cap 1 the first peer is admitted and the second one waits. *)
Example sample_answered_queue :
  queued (self sample_answered)
  = [("10.0.0.2:51235", REQUESTING); ("10.0.0.3:6561", QUEUED)]
  /\ (req_ipp <$> outstanding sample_answered) = ["10.0.0.2:51235"]
  /\ currentRequests (self sample_answered) = 1.
Proof. vm_compute. repeat split. Qed.

Lemma outstanding_requests_within_cap_witness :
  reachable true sample_answered
  /\ 1 <= maxRequests (self sample_answered)
  /\ currentRequests (self sample_answered) <= maxRequests (self sample_answered)
  /\ Z.of_nat (length (outstanding sample_answered))
     = currentRequests (self sample_answered)
  /\ (length (outstanding sample_answered) <= 1)%nat.
Proof.
  assert (Hcap : 1 <= maxRequests (self sample_answered)) by (vm_compute; discriminate).
  destruct (proj1 (outstanding_requests_within_cap true) sample_answered
              sample_answered_reachable Hcap) as (H1 & H2 & H3).
  split; [exact sample_answered_reachable|]. split; [exact Hcap|].
  split; [exact H1|]. split; [exact H2|]. apply H3. vm_compute. reflexivity.
Defined.

(** The completed traversal holds one response per node, Y included, which
    was discovered twice; four requests were made and ['done'] came last. *)
Example sample_complete_report :
  queued (self sample_complete) = []
  /\ outstanding sample_complete = []
  /\ size (rawResponses (self sample_complete)) = 4%nat
  /\ (rest_of_document <$> rawResponses (self sample_complete) !! "10.0.0.3:51235") = Some "Y"
  /\ errors (self sample_complete) = ∅
  /\ length (emitted sample_complete) = 5%nat
  /\ last (emitted sample_complete) = Some (EvDone (the_report (self sample_complete))).
Proof. vm_compute. repeat split. Qed.

(** ** The lifecycle of an address *)

(** C8, as stated, fails: [enter] marks the entry address [REQUESTING]
    at once, so it goes from Unseen to InFlight without being Queued. *)
Lemma entry_address_is_never_queued :
  let w0 := new_World no_globals None in
  let w1 := (enter "10.0.0.1" "2016-01-01T00:00:00Z" w0).1 in
  enter "10.0.0.1" "2016-01-01T00:00:00Z" w0 = (w1, Ok tt)
  /\ node_state (self w0) "10.0.0.1:51235" = Unseen
  /\ node_state (self w1) "10.0.0.1:51235" = InFlight
  /\ ~ respects_lifecycle (enter "10.0.0.1" "2016-01-01T00:00:00Z") w0.
Proof.
  intros w0 w1. split; [reflexivity|]. split; [reflexivity|]. split; [reflexivity|].
  intros H. destruct (H w1 "10.0.0.1:51235" eq_refl) as [Heq|Hedge].
  - discriminate Heq.
  - change (lifecycle Unseen InFlight) in Hedge. inversion Hedge.
Qed.

(** C8, amended.  The entry address goes from Unseen to InFlight when the
    traversal is entered, without being Queued and without the cap being
    consulted.  In every delivery of a traversal the answered address goes
    from InFlight to Done with the response it got; during the first half
    of the callback any other address that is not Done with an error
    without code stays as it is or goes from Unseen to Queued; during
    [requestMore] the first waiting addresses in the order of the keys, as
    many as fit under the cap, go from Queued to InFlight, and every other
    address stays as it is.  An address that is Done with a document, or
    with an error that has a code, keeps that state for the rest of the
    crawl. *)
Theorem lifecycle_followed (DEBUG : bool) :
  (forall g maxRequests ip now addr,
      let w0 := new_World g maxRequests in
      let w1 := (enter ip now w0).1 in
      enter ip now w0 = (w1, Ok tt)
      /\ node_state (self w0) addr = Unseen
      /\ node_state (self w1) addr
         = if decide (addr = withDefaultPort ip) then InFlight else Unseen)
  /\ (forall w w' i r now resp,
         reachable DEBUG w ->
         outstanding w !! i = Some r ->
         deliver DEBUG i now resp w = (w', Ok tt) ->
         exists wm,
           crawl_record DEBUG (req_ipp r) resp (taken i resp w) = (wm, Ok tt)
           /\ crawl_more (req_hops r) now wm = (w', Ok tt)
           /\ node_state (self w) (req_ipp r) = InFlight
           /\ node_state (self wm) (req_ipp r) = done_of resp
           /\ (forall addr, addr <> req_ipp r ->
                 node_state (self w) addr <> Done_failure JUndefined ->
                 node_state (self wm) addr = node_state (self w) addr
                 \/ (node_state (self w) addr = Unseen
                     /\ node_state (self wm) addr = Queued))
           /\ (let chosen := take (free_slots (self wm)) (queued_addresses (self wm)) in
               (forall addr, addr ∈ chosen ->
                  node_state (self wm) addr = Queued
                  /\ node_state (self w') addr = InFlight)
               /\ (forall addr, addr ∉ chosen ->
                      node_state (self w') addr = node_state (self wm) addr)
               /\ currentRequests (self w')
                  = currentRequests (self wm) + Z.of_nat (length chosen)
               /\ (chosen <> [] -> currentRequests (self w') <= maxRequests (self wm))))
  /\ (forall w w' addr,
         rtc (progress DEBUG) w w' ->
         inherited addr = false ->
         settled (node_state (self w) addr) ->
         node_state (self w') addr = node_state (self w) addr).
Proof.
  split; [|split].
  - intros g maxRequests ip now addr w0 w1.
    split; [reflexivity|]. split; [reflexivity|].
    unfold w1. rewrite enter_eq. cbn [fst].
    destruct (decide (addr = withDefaultPort ip)) as [->|Hne].
    + apply node_state_requesting. simpl. rewrite String.eqb_refl. reflexivity.
    + rewrite node_state_crawled_ne by congruence. reflexivity.
  - intros w w' i r now resp Hw Hr Hd.
    destruct (deliver_halves DEBUG w w' i r now resp Hr Hd)
      as (wm & _ & Hoffer & Hrec & Hmore).
    pose proof (reachable_well_tracked DEBUG w Hw) as Hwt.
    pose proof (wt_consistent w Hwt) as Hcons.
    pose proof (requests_marked w Hcons r (list_elem_of_lookup_2 _ _ _ Hr)) as Hmark.
    exists wm. split; [exact Hrec|]. split; [exact Hmore|].
    split; [|split; [|split]].
    + apply node_state_requesting, Hmark.
    + eapply offer_peers_stored; [exact Hoffer|].
      simpl. apply (queued_unanswered w Hcons). congruence.
    + intros addr Hne Hcode.
      pose proof (offer_peers_only_discovers DEBUG resp _ wm Hoffer addr) as Hdisc.
      rewrite node_state_stored_ne in Hdisc by congruence.
      apply Hdisc, Hcode.
    + apply (crawl_more_admits (req_hops r) now wm w'); [|exact Hmore].
      apply (wt_keys_distinct wm).
      exact (deliver_middle_well_tracked DEBUG w wm i r resp Hwt Hr Hoffer).
  - intros w w' addr Hrtc Hown Hdone.
    exact (progress_related DEBUG settled_is_final w w' settled_is_final_relation
             Hrtc addr Hown Hdone).
Qed.

Lemma lifecycle_followed_witness :
  let w := sample_entered in
  let r := mkRequest "https://10.0.0.1:51235/crawl" "10.0.0.1:51235" 0 in
  reachable true w /\ outstanding w !! 0%nat = Some r
  /\ node_state (self w) "10.0.0.1:51235" = InFlight
  /\ node_state (self sample_answered) "10.0.0.1:51235" = Done_success sample_body
  /\ node_state (self sample_answered) "10.0.0.2:51235" = InFlight
  /\ node_state (self sample_answered) "10.0.0.3:6561" = Queued.
Proof.
  intros w r.
  assert (Hr : outstanding w !! 0%nat = Some r) by (vm_compute; reflexivity).
  destruct (proj1 (proj2 (lifecycle_followed true)) w sample_answered 0%nat r
              "2016-01-01T00:00:01Z" (Success sample_body)
              sample_entered_reachable Hr sample_delivery)
    as (wm & _ & _ & Hin & _).
  split; [exact sample_entered_reachable|]. split; [exact Hr|].
  split; [exact Hin|]. vm_compute. repeat split.
Defined.

(** ** The end of a traversal *)

Lemma stored_session (addr : string) (i : nat) (resp : Response) (w : World) :
  startTime (self (stored addr resp (taken i resp w))) = startTime (self w)
  /\ entryIP (self (stored addr resp (taken i resp w))) = entryIP (self w)
  /\ endTime (self (stored addr resp (taken i resp w))) = endTime (self w)
  /\ emitted (stored addr resp (taken i resp w)) = (emitted w ++ [EvRequest resp])%list.
Proof. destruct resp; repeat split. Qed.

(** What a delivery that returns does to the session. *)
Lemma deliver_session DEBUG (w w' : World) (i : nat) (r : Request) now resp :
  outstanding w !! i = Some r ->
  deliver DEBUG i now resp w = (w', Ok tt) ->
  exists wm,
    crawl_record DEBUG (req_ipp r) resp (taken i resp w) = (wm, Ok tt)
    /\ crawl_more (req_hops r) now wm = (w', Ok tt)
    /\ obj_keys (queued (self w')) = obj_keys (queued (self wm))
    /\ (queued (self wm) = [] ->
        endTime (self w') = Some now
        /\ emitted w'
           = (emitted w
              ++ [EvRequest resp;
                  EvDone (Report.mk (startTime (self w)) (Some now)
                                    (entryIP (self w))
                                    (rawResponses (self w'))
                                    (errors (self w')))])%list)
    /\ (queued (self wm) <> [] ->
        endTime (self w') = endTime (self w)
        /\ emitted w' = (emitted w ++ [EvRequest resp])%list).
Proof.
  intros Hr Hd.
  destruct (deliver_halves DEBUG w w' i r now resp Hr Hd)
    as (wm & Hq & Hoffer & Hrec & Hmore).
  exists wm. split; [exact Hrec|]. split; [exact Hmore|].
  pose proof (offer_peers_same_session DEBUG resp _ wm Hoffer) as Hsess.
  destruct (stored_session (req_ipp r) i resp w) as (Es & Ee & Et & Eem).
  destruct Hsess as (Hs & He & Ht & Hem).
  rewrite Es in Hs. rewrite Ee in He. rewrite Et in Ht. rewrite Eem in Hem.
  destruct (crawl_more_cases _ _ _ _ Hmore) as [[Hempty ->]|[Hnonempty Hsame]].
  - split; [reflexivity|]. split; [|congruence].
    intros _. split; [reflexivity|].
    simpl. unfold the_report. simpl. rewrite Hem, Hs, He. rewrite <- app_assoc.
    reflexivity.
  - destruct Hsame as (Hkeys & Hrep & Hemit).
    split; [exact Hkeys|]. split; [congruence|].
    intros _. split.
    + assert (E : Report.end_ (the_report (self w')) = Report.end_ (the_report (self wm)))
        by (rewrite Hrep; reflexivity).
      simpl in E. congruence.
    + congruence.
Qed.

(** In a traversal ['done'] is emitted at most once, and once it has been
    the queue is empty. *)
Lemma reachable_done_once DEBUG (w : World) :
  reachable DEBUG w ->
  done_count w = 0%nat \/ (done_count w = 1%nat /\ queued (self w) = []).
Proof.
  induction 1 as [g maxRequests ip now w Henter|w i now resp w' Hw IH [r Hr] Hd].
  - rewrite enter_eq in Henter. injection Henter as <-. left. reflexivity.
  - assert (Hbusy : queued (self w) <> []).
    { pose proof (requests_marked w (reachable_consistent DEBUG w Hw) r
                    (list_elem_of_lookup_2 _ _ _ Hr)) as Hm.
      intros Hq. rewrite Hq in Hm. discriminate Hm. }
    destruct IH as [Hnone|[_ Hq]]; [|contradiction].
    destruct (deliver_session DEBUG w w' i r now resp Hr Hd)
      as (wm & _ & _ & Hkeys & Hclosed & Hopen).
    unfold done_count in *.
    destruct (queued (self wm)) as [|kv q] eqn:Hwm.
    + destruct (Hclosed eq_refl) as (_ & ->). right. split.
      * rewrite List.filter_app, length_app, Hnone. reflexivity.
      * apply obj_keys_nil. exact Hkeys.
    + destruct (Hopen ltac:(discriminate)) as (_ & ->). left.
      rewrite List.filter_app, length_app, Hnone. reflexivity.
Qed.

(** C9.  A delivery finalizes the session exactly when the queue that
    [requestMore] scans is empty: then [endTime] is set, and ['done'] is
    emitted after ['request'] with the report made of [startTime], that
    [endTime], [entryIP], [rawResponses] and [errors]; when the scanned
    queue is not empty, [endTime] stays as it is and only ['request'] is
    emitted.  [requestMore] does not change the keys of the queue, entering
    emits nothing, and in a traversal an empty queue means that no request
    is outstanding and ['done'] is emitted at most once. *)
Theorem done_exactly_on_empty_queue (DEBUG : bool) :
  (forall w w' i r now resp,
      outstanding w !! i = Some r ->
      deliver DEBUG i now resp w = (w', Ok tt) ->
      exists wm,
        crawl_record DEBUG (req_ipp r) resp (taken i resp w) = (wm, Ok tt)
        /\ crawl_more (req_hops r) now wm = (w', Ok tt)
        /\ obj_keys (queued (self w')) = obj_keys (queued (self wm))
        /\ (queued (self wm) = [] ->
            endTime (self w') = Some now
            /\ emitted w'
               = (emitted w
                  ++ [EvRequest resp;
                      EvDone (Report.mk (startTime (self w)) (Some now)
                                        (entryIP (self w))
                                        (rawResponses (self w'))
                                        (errors (self w')))])%list)
        /\ (queued (self wm) <> [] ->
            endTime (self w') = endTime (self w)
            /\ emitted w' = (emitted w ++ [EvRequest resp])%list))
  /\ (forall ip now w,
         emitted (enter ip now w).1 = emitted w
         /\ endTime (self (enter ip now w).1) = endTime (self w))
  /\ (forall w, reachable DEBUG w -> queued (self w) = [] -> outstanding w = [])
  /\ (forall w, reachable DEBUG w ->
         done_count w = 0%nat \/ (done_count w = 1%nat /\ queued (self w) = [])).
Proof.
  split; [exact (deliver_session DEBUG)|]. split; [|split].
  - intros ip now w. rewrite enter_eq. split; reflexivity.
  - intros w Hw Hq.
    pose proof (requests_marked w (reachable_consistent DEBUG w Hw)) as Hm.
    destruct (outstanding w) as [|r rest]; [reflexivity|].
    specialize (Hm r (list_elem_of_here _ _)). rewrite Hq in Hm. discriminate.
  - exact (reachable_done_once DEBUG).
Qed.

Lemma done_exactly_on_empty_queue_witness :
  let w := sample_entered in
  let r := mkRequest "https://10.0.0.1:51235/crawl" "10.0.0.1:51235" 0 in
  outstanding w !! 0%nat = Some r
  /\ deliver true 0 "2016-01-01T00:00:05Z" (Failure (JStr "ETIMEDOUT")) w
     = (sample_failed, Ok tt)
  /\ queued (self sample_failed) = []
  /\ endTime (self sample_failed) = Some "2016-01-01T00:00:05Z"
  /\ emitted sample_failed
     = [EvRequest (Failure (JStr "ETIMEDOUT"));
        EvDone (Report.mk (Some "2016-01-01T00:00:00Z") (Some "2016-01-01T00:00:05Z")
                          (Some "10.0.0.1:51235")
                          (rawResponses (self sample_failed))
                          (errors (self sample_failed)))]
  /\ errors (self sample_failed) !! "10.0.0.1:51235" = Some (JStr "ETIMEDOUT").
Proof.
  intros w r.
  assert (Hr : outstanding w !! 0%nat = Some r) by (vm_compute; reflexivity).
  assert (Hd : deliver true 0 "2016-01-01T00:00:05Z" (Failure (JStr "ETIMEDOUT")) w
               = (sample_failed, Ok tt))
    by (vm_compute; reflexivity).
  destruct (proj1 (done_exactly_on_empty_queue true) w sample_failed 0%nat r
              "2016-01-01T00:00:05Z" (Failure (JStr "ETIMEDOUT")) Hr Hd)
    as (wm & _ & _ & Hkeys & Hclosed & _).
  assert (Hempty : queued (self sample_failed) = []) by (vm_compute; reflexivity).
  assert (Hwm : queued (self wm) = []).
  { apply obj_keys_nil. rewrite <- Hkeys, Hempty. reflexivity. }
  destruct (Hclosed Hwm) as (Hend & Hemit).
  split; [exact Hr|]. split; [exact Hd|]. split; [exact Hempty|].
  split; [exact Hend|]. split; [exact Hemit|]. vm_compute. reflexivity.
Defined.

(** ** The merged peer records *)

Lemma reachable_no_peersData DEBUG (w : World) :
  reachable DEBUG w -> peersData (self w) = ∅.
Proof.
  induction 1 as [g maxRequests ip now w Henter|w i now resp w' _ IH [r Hr] Hd].
  - rewrite enter_eq in Henter. injection Henter as <-. reflexivity.
  - rewrite <- IH.
    exact (deliver_related DEBUG _ same_peersData_relation w w' i r now resp Hr Hd).
Qed.

(** C10.  No call of a traversal writes [peersData]: it is empty in every
    world of a traversal, [enter] and every delivery leave it as it is in
    any world, and the report carries [rawResponses] and [errors] and no
    peer record. *)
Theorem crawl_leaves_peersData_alone (DEBUG : bool) :
  (forall w, reachable DEBUG w -> peersData (self w) = ∅)
  /\ (forall w w' i now resp,
         deliver DEBUG i now resp w = (w', Ok tt) ->
         peersData (self w') = peersData (self w))
  /\ (forall ip now w, peersData (self (enter ip now w).1) = peersData (self w))
  /\ (forall this,
         Report.data (the_report this) = rawResponses this
         /\ Report.errors (the_report this) = errors this).
Proof.
  split; [exact (reachable_no_peersData DEBUG)|]. split; [|split].
  - intros w w' i now resp Hd. destruct (outstanding w !! i) as [r|] eqn:Hr.
    + exact (deliver_related DEBUG _ same_peersData_relation w w' i r now resp Hr Hd).
    + unfold deliver, bind, get in Hd. rewrite Hr in Hd. injection Hd as <-.
      reflexivity.
  - intros ip now w. rewrite enter_eq. reflexivity.
  - intros this. split; reflexivity.
Qed.

Lemma crawl_leaves_peersData_alone_witness :
  reachable true sample_answered /\ peersData (self sample_answered) = ∅.
Proof.
  split; [exact sample_answered_reachable|].
  exact (proj1 (crawl_leaves_peersData_alone true) sample_answered
               sample_answered_reachable).
Defined.

(** * Further properties of the source *)

(** ** Addresses and their ports *)

Lemma has_colon_before_colon (s : string) : has_colon (before_colon s) = false.
Proof.
  induction s as [|c s IH]; simpl; [reflexivity|].
  destruct (Ascii.eqb c ":") eqn:E; simpl; [reflexivity|]. rewrite E. exact IH.
Qed.

Lemma before_colon_app (h t : string) :
  has_colon h = false -> before_colon (h ++ ":" ++ t) = h.
Proof.
  induction h as [|c h IH]; simpl; [reflexivity|].
  destruct (Ascii.eqb c ":"); [discriminate|]. intros H. rewrite IH by exact H. reflexivity.
Qed.

Lemma after_colon_app (h t : string) :
  has_colon h = false -> after_colon (h ++ ":" ++ t) = Some t.
Proof.
  induction h as [|c h IH]; simpl; [reflexivity|].
  destruct (Ascii.eqb c ":"); [discriminate|]. exact IH.
Qed.

Lemma before_colon_free (s : string) : has_colon s = false -> before_colon s = s.
Proof.
  induction s as [|c s IH]; simpl; [reflexivity|].
  destruct (Ascii.eqb c ":"); [discriminate|]. intros H. rewrite IH by exact H. reflexivity.
Qed.

Lemma after_colon_free (s : string) : has_colon s = false -> after_colon s = None.
Proof.
  induction s as [|c s IH]; simpl; [reflexivity|].
  destruct (Ascii.eqb c ":"); [discriminate|]. exact IH.
Qed.

Lemma string_eqb_empty (s : string) : String.eqb s "" = false <-> s <> "".
Proof. destruct s; simpl; split; congruence. Qed.

(** X1.  [withDefaultPort] always yields a string with a colon, leaves such
    a string as it is, so applying it twice is applying it once, and the
    URL of a string is the URL of the string with its port. *)
Theorem withDefaultPort_idempotent (domainOrIp : string) :
  has_colon (withDefaultPort domainOrIp) = true
  /\ (has_colon domainOrIp = true -> withDefaultPort domainOrIp = domainOrIp)
  /\ withDefaultPort (withDefaultPort domainOrIp) = withDefaultPort domainOrIp
  /\ crawlUrl (withDefaultPort domainOrIp) = crawlUrl domainOrIp.
Proof.
  pose proof (withDefaultPort_has_colon domainOrIp) as Hc.
  assert (Hid : withDefaultPort (withDefaultPort domainOrIp) = withDefaultPort domainOrIp).
  { unfold withDefaultPort at 1. rewrite Hc. reflexivity. }
  split; [exact Hc|]. split; [|split].
  - intros H. unfold withDefaultPort. rewrite H. reflexivity.
  - exact Hid.
  - unfold crawlUrl. rewrite Hid. reflexivity.
Qed.

Lemma withDefaultPort_idempotent_witness :
  has_colon "10.0.0.1:6561" = true /\ withDefaultPort "10.0.0.1:6561" = "10.0.0.1:6561".
Proof.
  split; [reflexivity|].
  apply (proj1 (proj2 (withDefaultPort_idempotent "10.0.0.1:6561"))). reflexivity.
Defined.

Lemma port_by_precedence_falsy (ip : string) (port : jsval) :
  truthy port = false ->
  port_by_precedence ip port = port_by_precedence ip JUndefined.
Proof. intros H. unfold port_by_precedence. rewrite H. reflexivity. Qed.

(** X2.  Without an explicit port, [normalizeIpp] and [withDefaultPort] give
    the same address for a non-empty string without a colon and for a
    string "host:port" with a non-empty port; on "host:" they differ:
    [normalizeIpp] puts the default port, [withDefaultPort] keeps the
    string. *)
Theorem normalizeIpp_agrees_with_withDefaultPort :
  (forall (s : string) (port : jsval) (g : Globals),
      s <> "" -> has_colon s = false -> truthy port = false ->
      (normalizeIpp (JStr s) port g).2 = Ok (JStr (withDefaultPort s)))
  /\ (forall (host p : string) (port : jsval) (g : Globals),
         has_colon host = false -> has_colon p = false -> p <> "" ->
         truthy port = false ->
         (normalizeIpp (JStr (host ++ ":" ++ p)) port g).2
         = Ok (JStr (withDefaultPort (host ++ ":" ++ p))))
  /\ (forall (host : string) (port : jsval) (g : Globals),
         has_colon host = false -> truthy port = false ->
         (normalizeIpp (JStr (host ++ ":")) port g).2
         = Ok (JStr (host ++ ":" ++ pretty DEFAULT_PORT))
         /\ withDefaultPort (host ++ ":") = host ++ ":").
Proof.
  split; [|split].
  - intros s port g Hs Hc Hp. rewrite normalizeIpp_string by exact Hs. cbv zeta.
    unfold snd. rewrite port_by_precedence_falsy by exact Hp.
    rewrite before_colon_free by exact Hc.
    unfold port_by_precedence, embedded_port. simpl truthy. cbv iota.
    rewrite after_colon_free by exact Hc. simpl.
    unfold withDefaultPort. rewrite Hc. reflexivity.
  - intros host p port g Hh Hpc Hpne Hp.
    assert (Hne : host ++ ":" ++ p <> "") by (destruct host; discriminate).
    rewrite normalizeIpp_string by exact Hne. cbv zeta. unfold snd.
    rewrite port_by_precedence_falsy by exact Hp.
    rewrite before_colon_app by exact Hh.
    unfold port_by_precedence, embedded_port. simpl truthy. cbv iota.
    rewrite after_colon_app by exact Hh. simpl.
    rewrite before_colon_free by exact Hpc.
    apply string_eqb_empty in Hpne. rewrite Hpne.
    unfold withDefaultPort. rewrite has_colon_app. simpl. rewrite orb_true_r.
    reflexivity.
  - intros host port g Hh Hp. split.
    + assert (Hne : host ++ ":" <> "") by (destruct host; discriminate).
      rewrite normalizeIpp_string by exact Hne. cbv zeta. unfold snd.
      rewrite port_by_precedence_falsy by exact Hp.
      change (host ++ ":") with (host ++ ":" ++ "").
      rewrite before_colon_app by exact Hh.
      unfold port_by_precedence, embedded_port. simpl truthy. cbv iota.
      rewrite after_colon_app by exact Hh. reflexivity.
    + unfold withDefaultPort. rewrite has_colon_app. simpl. rewrite orb_true_r.
      reflexivity.
Qed.

Lemma normalizeIpp_agrees_with_withDefaultPort_witness :
  (normalizeIpp (JStr "10.0.0.1") JNull no_globals).2 = Ok (JStr (withDefaultPort "10.0.0.1"))
  /\ (normalizeIpp (JStr ("10.0.0.1" ++ ":" ++ "6561")) (JNum 0) no_globals).2
     = Ok (JStr (withDefaultPort ("10.0.0.1" ++ ":" ++ "6561"))).
Proof.
  destruct normalizeIpp_agrees_with_withDefaultPort as (Hplain & Hport & _).
  split.
  - apply Hplain; [discriminate|reflexivity|reflexivity].
  - apply Hport; [reflexivity|reflexivity|discriminate|reflexivity].
Defined.

Lemma port_by_precedence_plain (ip : string) :
  has_colon (port_by_precedence ip JUndefined) = false
  /\ port_by_precedence ip JUndefined <> "".
Proof.
  unfold port_by_precedence, embedded_port. simpl truthy. cbv iota.
  destruct (after_colon ip) as [t|]; simpl; [|split; [reflexivity|discriminate]].
  destruct (String.eqb (before_colon t) "") eqn:E; [split; [reflexivity|discriminate]|].
  split; [apply has_colon_before_colon|apply string_eqb_empty, E].
Qed.

Lemma has_colon_normalized (host p : string) : has_colon (host ++ ":" ++ p) = true.
Proof. rewrite has_colon_app. simpl. apply orb_true_r. Qed.

(** X3.  Without an explicit port, what [normalizeIpp] returns for a
    non-empty string contains a colon and is returned unchanged when
    normalised again, whatever the module variables hold. *)
Theorem normalizeIpp_idempotent (ip : string) (port port' : jsval) (g g' : Globals) :
  ip <> "" -> truthy port = false -> truthy port' = false ->
  exists a,
    (normalizeIpp (JStr ip) port g).2 = Ok (JStr a)
    /\ has_colon a = true
    /\ (normalizeIpp (JStr a) port' g').2 = Ok (JStr a).
Proof.
  intros Hip Hp Hp'.
  destruct (port_by_precedence_plain ip) as (Hfree & Hne).
  exists (before_colon ip ++ ":" ++ port_by_precedence ip JUndefined).
  split; [|split].
  - rewrite normalizeIpp_string by exact Hip. cbv zeta. unfold snd.
    rewrite (port_by_precedence_falsy ip port Hp). reflexivity.
  - apply has_colon_normalized.
  - set (P := port_by_precedence ip JUndefined) in *.
    assert (Ha : before_colon ip ++ ":" ++ P <> "")
      by (destruct (before_colon ip); discriminate).
    rewrite normalizeIpp_string by exact Ha. cbv zeta. unfold snd.
    rewrite (port_by_precedence_falsy _ port' Hp').
    rewrite before_colon_app by apply has_colon_before_colon.
    unfold port_by_precedence at 1, embedded_port. simpl truthy. cbv iota.
    rewrite after_colon_app by apply has_colon_before_colon. simpl.
    rewrite (before_colon_free P Hfree).
    apply string_eqb_empty in Hne. rewrite Hne. reflexivity.
Qed.

Lemma normalizeIpp_idempotent_witness :
  exists a,
    (normalizeIpp (JStr "10.0.0.1:6561:x") JUndefined no_globals).2 = Ok (JStr a)
    /\ has_colon a = true
    /\ (normalizeIpp (JStr a) JUndefined no_globals).2 = Ok (JStr a).
Proof.
  apply (normalizeIpp_idempotent "10.0.0.1:6561:x" JUndefined JUndefined);
    [discriminate|reflexivity|reflexivity].
Defined.

(** X4.  [normalizeIpp] keeps the module variable [ipp] in order: when it
    returns, the value returned is the value of [ipp] and is a string with
    a colon, never [undefined]; when it throws, the module variables are
    as they were. *)
Theorem normalizeIpp_returns_ipp (ip port : jsval) (g : Globals) :
  ipp_in_order g = true ->
  ipp_in_order (normalizeIpp ip port g).1 = true
  /\ match (normalizeIpp ip port g).2 with
     | Ok v => ipp (normalizeIpp ip port g).1 = Some v /\ is_address v = true
     | Throw _ => (normalizeIpp ip port g).1 = g
     | Exit _ => False
     end.
Proof.
  intros Hg. destruct (truthy ip) eqn:Ht.
  - destruct ip as [| |b|n|s]; try discriminate Ht;
      try (unfold normalizeIpp; rewrite Ht; simpl; split; [exact Hg|reflexivity]).
    assert (Hs : s <> "") by (destruct s; [discriminate Ht|discriminate]).
    rewrite normalizeIpp_string by exact Hs. cbv zeta.
    unfold ipp_in_order, fst, snd, ipp, is_address.
    rewrite has_colon_normalized. repeat split.
  - unfold normalizeIpp. rewrite Ht. unfold ipp_in_order in Hg.
    destruct (ipp g) as [v|] eqn:Hv; simpl.
    + split; [unfold ipp_in_order; rewrite Hv; exact Hg|]. split; [exact Hv|exact Hg].
    + split; [unfold ipp_in_order; rewrite Hv; reflexivity|reflexivity].
Qed.

Lemma normalizeIpp_returns_ipp_witness :
  ipp_in_order no_globals = true
  /\ ipp_in_order (normalizeIpp (JStr "10.0.0.1") (JNum 6561) no_globals).1 = true.
Proof.
  split; [reflexivity|].
  apply (proj1 (normalizeIpp_returns_ipp (JStr "10.0.0.1") (JNum 6561) no_globals eq_refl)).
Defined.

(** ** Merging peer views, in both modes *)

Lemma savePeerData_visit_other (defaults : jsval) (map map' : gmap string jsval)
    (k k' : string) (v : jsval) :
  savePeerData_visit defaults map (k, v) = Some map' ->
  k <> k' -> map' !! k' = map !! k'.
Proof.
  unfold savePeerData_visit. intros H Hne.
  destruct (String.eqb k "type" || _); [injection H as <-; reflexivity|].
  destruct (String.eqb k "__proto__" && _).
  - destruct v; try discriminate; injection H as <-; reflexivity.
  - injection H as <-. apply lookup_insert_ne, Hne.
Qed.

Lemma savePeerData_visit_type (defaults : jsval) (map map' : gmap string jsval)
    (kv : string * jsval) :
  savePeerData_visit defaults map kv = Some map' -> map' !! "type" = map !! "type".
Proof.
  destruct kv as [k v]. destruct (decide (k = "type")) as [->|Hne].
  - unfold savePeerData_visit. simpl. intros [= <-]. reflexivity.
  - intros H. eapply savePeerData_visit_other; [exact H|exact Hne].
Qed.

Lemma savePeerData_visit_stores (defaults : jsval) (map : gmap string jsval)
    (k : string) (v : jsval) :
  k <> "type" -> k <> "__proto__" ->
  truthy defaults = false \/ has_value (map !! k) k = false ->
  savePeerData_visit defaults map (k, v) = Some (<[k := v]> map).
Proof.
  intros Hk Hp Hmode. apply String.eqb_neq in Hk, Hp.
  unfold savePeerData_visit. rewrite Hk, Hp. simpl.
  destruct Hmode as [-> | ->]; [reflexivity|]. rewrite andb_false_r. reflexivity.
Qed.

Lemma savePeerData_forOwn_other (defaults : jsval) (data : list (string * jsval))
    (map record : gmap string jsval) (k : string) :
  savePeerData_forOwn defaults data map = Some record ->
  k ∉ data.*1 -> record !! k = map !! k.
Proof.
  revert map. induction data as [|[k0 v0] data IH]; intros map H Hk; cbn [savePeerData_forOwn] in H.
  - injection H as <-. reflexivity.
  - simpl in Hk. apply not_elem_of_cons in Hk. destruct Hk as [Hne Hk].
    destruct (savePeerData_visit defaults map (k0, v0)) as [map'|] eqn:Hv; [|discriminate].
    rewrite (IH map' H Hk). eapply savePeerData_visit_other; [exact Hv|congruence].
Qed.

Lemma savePeerData_forOwn_type (defaults : jsval) (data : list (string * jsval))
    (map record : gmap string jsval) :
  savePeerData_forOwn defaults data map = Some record ->
  record !! "type" = map !! "type".
Proof.
  revert map. induction data as [|kv data IH]; intros map H; cbn [savePeerData_forOwn] in H.
  - injection H as <-. reflexivity.
  - destruct (savePeerData_visit defaults map kv) as [map'|] eqn:Hv; [|discriminate].
    rewrite (IH map' H). eapply savePeerData_visit_type, Hv.
Qed.

Lemma savePeerData_forOwn_member (data : list (string * jsval))
    (defaults : jsval) (map record : gmap string jsval) (k : string) (v : jsval) :
  savePeerData_forOwn defaults data map = Some record ->
  NoDup data.*1 -> (k, v) ∈ data -> k <> "type" -> k <> "__proto__" ->
  truthy defaults = false \/ has_value (map !! k) k = false ->
  record !! k = Some v.
Proof.
  revert map. induction data as [|[k0 v0] data IH]; intros map H Hnd Hin Hk Hp Hmode.
  - apply elem_of_nil in Hin. destruct Hin.
  - simpl in Hnd. apply NoDup_cons in Hnd. destruct Hnd as [Hfresh Hnd]. cbn [savePeerData_forOwn] in H.
    destruct (savePeerData_visit defaults map (k0, v0)) as [map'|] eqn:Hv; [|discriminate].
    apply elem_of_cons in Hin. destruct Hin as [[= <- <-]|Hin].
    + rewrite (savePeerData_forOwn_other _ _ _ _ _ H Hfresh).
      rewrite savePeerData_visit_stores in Hv by assumption. injection Hv as <-.
      apply lookup_insert_eq.
    + assert (Hne : k0 <> k).
      { intros ->. apply Hfresh. apply list_elem_of_fmap. exists (k, v).
        split; [reflexivity|exact Hin]. }
      apply (IH map' H Hnd Hin Hk Hp).
      destruct Hmode as [Hf|Hu]; [left; exact Hf|right].
      rewrite (savePeerData_visit_other _ _ _ _ _ _ Hv Hne). exact Hu.
Qed.




(** X6.  Without [defaults], a call of [savePeerData] that lands in the
    crawler merges the view over the record: every field of the view but
    [type] and [__proto__] takes the value of the view, whatever the record
    held, and every field that the view lacks keeps its value. *)
Theorem savePeerData_merges_view (pk : string) (data : list (string * jsval))
    (defaults : jsval) (this after : Crawler) :
  truthy defaults = false ->
  NoDup data.*1 ->
  savePeerData pk data defaults this = Some after ->
  exists record,
    peersData after !! pk = Some record
    /\ (forall k v, (k, v) ∈ data -> k <> "type" -> k <> "__proto__" ->
                    record !! k = Some v)
    /\ (forall k, k = "type" \/ k ∉ data.*1 ->
                  record !! k = default ∅ (peersData this !! pk) !! k).
Proof.
  intros Hd Hnd H. apply savePeerData_field in H. destruct H as (record & Hrec & Hafter).
  exists record. split; [exact Hafter|]. split.
  - intros k v Hin Hk Hp. eapply savePeerData_forOwn_member; eauto.
  - intros k [->|Hk];
      [eapply savePeerData_forOwn_type, Hrec|eapply savePeerData_forOwn_other; eauto].
Qed.

Lemma savePeerData_merges_view_witness :
  let this := set_peersData
                {[ "n9KAa2" := {[ "ip" := JStr "10.0.0.1"; "uptime" := JNum 7 ]} ]}
                (new_Crawler None) in
  let data := [("ip", JStr "10.0.0.2"); ("type", JStr "peer")] in
  truthy JUndefined = false /\ NoDup data.*1
  /\ exists after record,
      savePeerData "n9KAa2" data JUndefined this = Some after
      /\ peersData after !! "n9KAa2" = Some record
      /\ record !! "ip" = Some (JStr "10.0.0.2")
      /\ record !! "uptime" = Some (JNum 7)
      /\ record !! "type" = None.
Proof.
  intros this data.
  assert (Hnd : NoDup data.*1) by (apply (bool_decide_unpack _); vm_compute; exact I).
  split; [reflexivity|]. split; [exact Hnd|].
  destruct (savePeerData "n9KAa2" data JUndefined this) as [after|] eqn:E;
    [|vm_compute in E; discriminate].
  destruct (savePeerData_merges_view "n9KAa2" data JUndefined this after eq_refl Hnd E)
    as (record & Hrec & Hset & Hkeep).
  exists after, record. split; [reflexivity|]. split; [exact Hrec|]. split; [|split].
  - apply Hset; [apply list_elem_of_here|discriminate..].
  - rewrite Hkeep; [vm_compute; reflexivity|]. right. vm_compute.
    intros H. apply list_elem_of_In in H. simpl in H. intuition discriminate.
  - rewrite Hkeep; [vm_compute; reflexivity|]. left. reflexivity.
Defined.

Lemma savePeerData_visit_keeps (defaults : jsval) (map map' : gmap string jsval)
    (kv : string * jsval) (k : string) :
  truthy defaults = true -> has_value (map !! k) k = true ->
  savePeerData_visit defaults map kv = Some map' ->
  map' !! k = map !! k.
Proof.
  intros Hd Hk. destruct kv as [k0 v0]. destruct (decide (k0 = k)) as [->|Hne].
  - unfold savePeerData_visit. rewrite Hd, Hk. rewrite orb_true_r.
    intros [= <-]. reflexivity.
  - intros H. eapply savePeerData_visit_other; [exact H|exact Hne].
Qed.

Lemma savePeerData_forOwn_keeps (defaults : jsval) (data : list (string * jsval))
    (map record : gmap string jsval) (k : string) :
  truthy defaults = true -> has_value (map !! k) k = true ->
  savePeerData_forOwn defaults data map = Some record ->
  record !! k = map !! k.
Proof.
  intros Hd. revert map. induction data as [|kv data IH]; intros map Hk H; cbn [savePeerData_forOwn] in H.
  - injection H as <-. reflexivity.
  - destruct (savePeerData_visit defaults map kv) as [map'|] eqn:Hv; [|discriminate].
    pose proof (savePeerData_visit_keeps _ _ _ _ _ Hd Hk Hv) as Hsame.
    rewrite <- Hsame. apply IH; [rewrite Hsame; exact Hk|exact H].
Qed.

Lemma savePeerData_keeps_field (pk pk' k : string) (data : list (string * jsval))
    (defaults : jsval) (this after : Crawler) :
  truthy defaults = true ->
  has_value (default ∅ (peersData this !! pk') !! k) k = true ->
  savePeerData pk data defaults this = Some after ->
  default ∅ (peersData after !! pk') !! k = default ∅ (peersData this !! pk') !! k.
Proof.
  intros Hd Hk H. apply savePeerData_Some in H. destruct H as (_ & record & Hrec & ->).
  simpl. destruct (decide (pk' = pk)) as [->|Hne].
  - rewrite lookup_insert_eq. simpl. eapply savePeerData_forOwn_keeps; eauto.
  - rewrite lookup_insert_ne by congruence. reflexivity.
Qed.

Lemma peer_field_has_value (this : Crawler) (pk k : string) :
  peer_field this pk k <> JUndefined ->
  has_value (default ∅ (peersData this !! pk) !! k) k = true.
Proof.
  unfold peer_field, js_prop, has_value.
  destruct (default ∅ (peersData this !! pk) !! k) as [v|]; simpl; [|congruence].
  intros H. apply bool_decide_eq_true_2, H.
Qed.

Lemma savePeerData_all_keeps (defaults : jsval)
    (views : list (string * list (string * jsval))) (this last : Crawler) (pk k : string) :
  truthy defaults = true ->
  peer_field this pk k <> JUndefined ->
  savePeerData_all defaults views this = Some last ->
  peer_field last pk k = peer_field this pk k.
Proof.
  intros Hd. revert this.
  induction views as [|[pk0 data] views IH]; intros this Hk H; cbn [savePeerData_all fst snd] in H.
  - injection H as <-. reflexivity.
  - destruct (savePeerData pk0 data defaults this) as [this'|] eqn:Hs; [|discriminate].
    assert (Hstep : peer_field this' pk k = peer_field this pk k).
    { unfold peer_field, js_prop.
      rewrite (savePeerData_keeps_field pk0 pk k data defaults this this' Hd
                 (peer_field_has_value this pk k Hk) Hs). reflexivity. }
    rewrite (IH this') by (rewrite ?Hstep; assumption). exact Hstep.
Qed.

(** X7.  With [defaults] set, [savePeerData] fills the fields that are
    unset and leaves the others: a field of the view that the record lacks
    (not [type], not the name of a member of [Object.prototype]) takes the
    value of the view, and a field holding a value keeps it through every
    later view of every peer, so the first view to give a field a value
    decides it. *)
Theorem savePeerData_defaults_first_view_decides (defaults : jsval)
    (pk k : string) (v : jsval) (data : list (string * jsval))
    (views : list (string * list (string * jsval))) (this first last : Crawler) :
  truthy defaults = true ->
  NoDup data.*1 -> (k, v) ∈ data -> k <> "type" -> inherited k = false ->
  v <> JUndefined ->
  peer_field this pk k = JUndefined ->
  savePeerData pk data defaults this = Some first ->
  savePeerData_all defaults views first = Some last ->
  peer_field first pk k = v /\ peer_field last pk k = v.
Proof.
  intros Hd Hnd Hin Hk Hown Hv Hunset Hfirst Hlast.
  assert (Hp : k <> "__proto__") by (intros ->; discriminate Hown).
  assert (Hf : peer_field first pk k = v).
  { apply savePeerData_field in Hfirst. destruct Hfirst as (record & Hrec & Hafter).
    unfold peer_field, js_prop. rewrite Hafter. simpl.
    rewrite (savePeerData_forOwn_member data defaults _ record k v Hrec Hnd Hin Hk Hp);
      [reflexivity|].
    right. unfold peer_field, js_prop in Hunset. unfold has_value.
    destruct (default ∅ (peersData this !! pk) !! k) as [x|]; simpl in *;
      [subst x; apply bool_decide_eq_false_2; congruence|exact Hown]. }
  split; [exact Hf|].
  rewrite (savePeerData_all_keeps defaults views first last pk k Hd); [exact Hf| |exact Hlast].
  rewrite Hf. exact Hv.
Qed.

Lemma savePeerData_defaults_first_view_decides_witness :
  let data := [("ip", JStr "10.0.0.1"); ("type", JStr "in")] in
  let views := [("n9KAa2", [("ip", JStr "10.0.0.2")]); ("n9MZf8", [("ip", JStr "10.0.0.3")])] in
  exists first last,
    savePeerData "n9KAa2" data (JBool true) (new_Crawler None) = Some first
    /\ savePeerData_all (JBool true) views first = Some last
    /\ peer_field first "n9KAa2" "ip" = JStr "10.0.0.1"
    /\ peer_field last "n9KAa2" "ip" = JStr "10.0.0.1".
Proof.
  intros data views.
  destruct (savePeerData "n9KAa2" data (JBool true) (new_Crawler None)) as [first|] eqn:E1;
    [|vm_compute in E1; discriminate].
  destruct (savePeerData_all (JBool true) views first) as [last|] eqn:E2.
  2:{ vm_compute in E1. injection E1 as <-. vm_compute in E2. discriminate. }
  exists first, last. split; [reflexivity|]. split; [exact E2|].
  apply (savePeerData_defaults_first_view_decides (JBool true) "n9KAa2" "ip"
           (JStr "10.0.0.1") data views (new_Crawler None) first last).
  - reflexivity.
  - apply (bool_decide_unpack _). vm_compute. exact I.
  - apply list_elem_of_here.
  - discriminate.
  - reflexivity.
  - discriminate.
  - reflexivity.
  - exact E1.
  - exact E2.
Defined.

(** ** The queue as a list of keys *)

Lemma world_eta (w : World) :
  mkWorld (globals w) (set_queued (queued (self w)) (self w)) (outstanding w) (emitted w) = w.
Proof. destruct w as [g [] o e]. reflexivity. Qed.

Lemma filter_all {A} (f : A -> bool) (l : list A) :
  (forall x, x ∈ l -> f x = true) -> List.filter f l = l.
Proof.
  induction l as [|x l IH]; intros H; simpl; [reflexivity|].
  rewrite (H x (list_elem_of_here _ _)). rewrite IH; [reflexivity|].
  intros y Hy. apply H. apply list_elem_of_further, Hy.
Qed.

Lemma filter_comm {A} (f g : A -> bool) (l : list A) :
  List.filter f (List.filter g l) = List.filter g (List.filter f l).
Proof.
  induction l as [|x l IH]; simpl; [reflexivity|].
  destruct (f x) eqn:Ef, (g x) eqn:Eg; simpl; rewrite ?Ef, ?Eg, IH; reflexivity.
Qed.

(** Deleting a key that is not an array index leaves the other keys in
    their order. *)
Lemma obj_keys_delete {V} (o : list (string * V)) (k : string) :
  array_index k = None ->
  obj_keys (obj_delete o k) = List.filter (fun k' => negb (String.eqb k' k)) (obj_keys o).
Proof.
  intros Hk. unfold obj_keys. rewrite obj_fst_delete, List.filter_app.
  set (keys := map fst o).
  assert (Hidx : index_keys (List.filter (fun k' => negb (String.eqb k' k)) keys)
                 = index_keys keys).
  { induction keys as [|k0 keys IH]; simpl; [reflexivity|].
    destruct (String.eqb k0 k) eqn:E; simpl.
    - apply String.eqb_eq in E. subst k0. rewrite Hk. exact IH.
    - rewrite IH. reflexivity. }
  rewrite Hidx. f_equal; [|apply filter_comm].
  symmetry. apply filter_all. intros x Hx.
  rewrite index_keys_perm in Hx. apply list_elem_of_In, List.filter_In in Hx.
  destruct Hx as [_ Hx]. apply negb_true_iff, String.eqb_neq. intros ->.
  unfold defined_index in Hx. rewrite Hk in Hx. discriminate.
Qed.

(** X8.  For an address, a string that names no member of
    [Object.prototype]: when it is not in the queue, enqueueing and then
    dequeueing it returns without a fault and leaves the process exactly
    as it was; when it is in the queue, dequeueing and then enqueueing it
    returns without a fault, gives it the status [QUEUED], changes nothing
    else, and, unless the address is an array index, [Object.keys] lists
    it last and the other keys in the order they had. *)
Theorem dequeue_undoes_enqueue (DEBUG : bool) (w : World) (addr : string) :
  inherited addr = false ->
  (obj_get (queued (self w)) addr = None ->
   (enqueue DEBUG addr ;> dequeue DEBUG addr) w = (w, Ok tt))
  /\ (obj_get (queued (self w)) addr <> None ->
      exists w',
        (dequeue DEBUG addr ;> enqueue DEBUG addr) w = (w', Ok tt)
        /\ obj_get (queued (self w')) addr = Some QUEUED
        /\ (forall k, k <> addr ->
              obj_get (queued (self w')) k = obj_get (queued (self w)) k)
        /\ (array_index addr = None ->
            obj_keys (queued (self w'))
            = (List.filter (fun k => negb (String.eqb k addr)) (obj_keys (queued (self w)))
               ++ [addr])%list)
        /\ set_queued (queued (self w)) (self w') = self w
        /\ globals w' = globals w /\ outstanding w' = outstanding w
        /\ emitted w' = emitted w).
Proof.
  intros Hown. split.
  - intros Hq. unfold bind.
    rewrite enqueue_absent by (apply has_member_false; split; assumption).
    rewrite dequeue_present.
    + simpl. rewrite obj_delete_snoc by exact Hq. rewrite world_eta. reflexivity.
    + apply has_member_present. simpl. rewrite obj_get_snoc, Hq, String.eqb_refl.
      discriminate.
  - intros Hq. eexists. split.
    + unfold bind. rewrite dequeue_present by (apply has_member_present, Hq).
      rewrite enqueue_absent; [reflexivity|].
      apply has_member_false. split; [simpl; apply obj_get_delete_eq|exact Hown].
    + simpl. split; [|split; [|split]].
      * rewrite obj_get_snoc, obj_get_delete_eq, String.eqb_refl. reflexivity.
      * intros k Hne. rewrite obj_get_snoc_ne by congruence.
        apply obj_get_delete_ne. congruence.
      * intros Hidx. rewrite obj_keys_snoc by exact Hidx.
        rewrite obj_keys_delete by exact Hidx. reflexivity.
      * repeat split. destruct w as [g [] o e]. reflexivity.
Qed.

Lemma dequeue_undoes_enqueue_witness :
  inherited "10.0.0.9:51235" = false
  /\ obj_get (queued (self sample_answered)) "10.0.0.9:51235" = None
  /\ (enqueue true "10.0.0.9:51235" ;> dequeue true "10.0.0.9:51235") sample_answered
     = (sample_answered, Ok tt).
Proof.
  assert (Hq : obj_get (queued (self sample_answered)) "10.0.0.9:51235" = None)
    by (vm_compute; reflexivity).
  split; [reflexivity|]. split; [exact Hq|].
  exact (proj1 (dequeue_undoes_enqueue true sample_answered "10.0.0.9:51235" eq_refl) Hq).
Defined.

(** X18.  [enqueueIfNeeded] changes nothing when the address is falsy or
    one of [rawResponses[addr]], [queued[addr]] and [errors[addr]] is not
    [undefined]; otherwise it appends the address to the queue with status
    [QUEUED].  Once an address has been offered, offering it again later in
    the crawl changes nothing, unless [errors] has come to hold [undefined]
    for it. *)
Theorem enqueueIfNeeded_skips_seen (DEBUG : bool) :
  (forall (w : World) (addr : jsval),
      truthy addr = false \/ seen (self w) (ToString addr) = true ->
      enqueueIfNeeded DEBUG addr w = (w, Ok tt))
  /\ (forall (w : World) (addr : jsval),
         truthy addr = true ->
         seen (self w) (ToString addr) = false ->
         enqueueIfNeeded DEBUG addr w = (with_queued (ToString addr) w, Ok tt)
         /\ obj_get (queued (self (with_queued (ToString addr) w))) (ToString addr)
            = Some QUEUED
         /\ seen (self (with_queued (ToString addr) w)) (ToString addr) = true)
  /\ (forall (w0 w1 w2 : World) (addr : jsval),
         truthy addr = true ->
         enqueueIfNeeded DEBUG addr w0 = (w1, Ok tt) ->
         rtc (progress DEBUG) w1 w2 ->
         errors (self w2) !! ToString addr <> Some JUndefined ->
         enqueueIfNeeded DEBUG addr w2 = (w2, Ok tt)).
Proof.
  assert (Hnew : forall (w : World) (a : string),
            seen (self w) a = false ->
            obj_get (queued (self (with_queued a w))) a = Some QUEUED).
  { intros w a Hn. apply seen_false in Hn. destruct Hn as (_ & _ & Hq & _).
    simpl. rewrite obj_get_snoc, Hq, String.eqb_refl. reflexivity. }
  split; [|split].
  - intros w addr H. rewrite enqueueIfNeeded_eq.
    destruct H as [-> | ->]; [reflexivity|]. rewrite andb_false_r. reflexivity.
  - intros w addr Ht Hn. rewrite enqueueIfNeeded_eq, Ht, Hn. cbn [andb negb].
    split; [reflexivity|]. split; [apply Hnew, Hn|].
    apply seen_queued. rewrite (Hnew w _ Hn). discriminate.
  - intros w0 w1 w2 addr Ht H1 Hrtc Herr.
    assert (Hs1 : seen (self w1) (ToString addr) = true).
    { rewrite enqueueIfNeeded_eq, Ht in H1. cbn [andb] in H1. injection H1 as <-.
      destruct (seen (self w0) (ToString addr)) eqn:H0; cbn [negb]; [exact H0|].
      apply seen_queued. rewrite (Hnew w0 _ H0). discriminate. }
    apply (progress_related DEBUG _ w1 w2 (stays_seen_relation (ToString addr))) in Hrtc.
    destruct (Hrtc (or_introl Hs1)) as [Hs2|He]; [|contradiction].
    rewrite enqueueIfNeeded_eq, Hs2, andb_false_r. reflexivity.
Qed.

Lemma enqueueIfNeeded_skips_seen_witness :
  let w := new_World no_globals None in
  let addr := JStr "10.0.0.2:51235" in
  truthy addr = true /\ seen (self w) (ToString addr) = false
  /\ enqueueIfNeeded true addr w = (with_queued "10.0.0.2:51235" w, Ok tt)
  /\ enqueueIfNeeded true addr (with_queued "10.0.0.2:51235" w)
     = (with_queued "10.0.0.2:51235" w, Ok tt).
Proof.
  intros w addr.
  assert (Ht : truthy addr = true) by reflexivity.
  assert (Hn : seen (self w) (ToString addr) = false) by reflexivity.
  pose proof (enqueueIfNeeded_skips_seen true) as (_ & Hnew & Honce).
  destruct (Hnew w addr Ht Hn) as (Hfirst & _).
  split; [exact Ht|]. split; [exact Hn|]. split; [exact Hfirst|].
  apply (Honce w _ _ addr Ht Hfirst (rtc_refl _ _)). vm_compute. discriminate.
Defined.

(** ** The order of admission *)

(** X9.  [requestMore] admits the waiting addresses first come, first
    served: of the addresses with status [QUEUED], in the order of the keys
    of the queue, as many as there are free slots are handed to [crawl]
    with [hops + 1], and the others keep waiting; it answers whether the
    queue had a key. *)
Theorem requestMore_first_come_first_served (hops : Z) (w : World) :
  NoDup (obj_keys (queued (self w))) ->
  let chosen := take (free_slots (self w)) (queued_addresses (self w)) in
  requestMore hops w
  = (admitted chosen (hops + 1) w, Ok (negb (length (queued (self w)) =? 0)%nat))
  /\ outstanding (admitted chosen (hops + 1) w)
     = (outstanding w ++ ((fun a => mkRequest (crawlUrl a) a (hops + 1)) <$> chosen))%list
  /\ (forall a, a ∈ chosen ->
        obj_get (queued (self (admitted chosen (hops + 1) w))) a = Some REQUESTING)
  /\ (forall a, a ∈ obj_keys (queued (self w)) -> a ∉ chosen ->
        obj_get (queued (self (admitted chosen (hops + 1) w))) a
        = obj_get (queued (self w)) a).
Proof.
  intros Hnd chosen.
  destruct (admitted_fields chosen (hops + 1) w) as (Ho & _ & Hkeep & Hreq & _).
  split; [|split; [exact Ho|split; [exact Hreq|]]].
  - destruct (requestMore_eq hops w) as (w' & Hturns & Hmore).
    rewrite requestMore_turns_admit in Hturns by exact Hnd.
    injection Hturns as <-. exact Hmore.
  - intros a _ Hnot. apply Hkeep, Hnot.
Qed.

Lemma requestMore_first_come_first_served_witness :
  let w := with_queued "10.0.0.3:51235"
             (with_queued "10.0.0.2:51235" (new_World no_globals (Some 1))) in
  NoDup (obj_keys (queued (self w)))
  /\ outstanding (requestMore 0 w).1
     = [mkRequest "https://10.0.0.2:51235/crawl" "10.0.0.2:51235" 1].
Proof.
  intros w.
  assert (Hnd : NoDup (obj_keys (queued (self w))))
    by (apply (bool_decide_unpack _); vm_compute; exact I).
  split; [exact Hnd|].
  destruct (requestMore_first_come_first_served 0 w Hnd) as (Heq & Hout & _).
  rewrite Heq. unfold fst. rewrite Hout. vm_compute. reflexivity.
Defined.

(** ** Bookkeeping of a traversal *)

Lemma js_prop_undefined (map : gmap string jsval) (k : string) :
  js_prop map k = JUndefined <-> map !! k = None \/ map !! k = Some JUndefined.
Proof.
  unfold js_prop. destruct (map !! k) as [v|]; simpl; [|intuition].
  split; [intros ->; right; reflexivity|intros [H|H]; congruence].
Qed.

Lemma offer_peers_same_answers DEBUG (resp : Response) (w w' : World) (out : outcome unit) :
  offer_peers DEBUG resp w = (w', out) ->
  rawResponses (self w') = rawResponses (self w)
  /\ errors (self w') = errors (self w)
  /\ outstanding w' = outstanding w
  /\ emitted w' = emitted w
  /\ currentRequests (self w') = currentRequests (self w).
Proof.
  apply (offer_peers_related DEBUG
           (fun w w' => rawResponses (self w') = rawResponses (self w)
                        /\ errors (self w') = errors (self w)
                        /\ outstanding w' = outstanding w
                        /\ emitted w' = emitted w
                        /\ currentRequests (self w') = currentRequests (self w))).
  - intros s. repeat split.
  - intros a b c (-> & -> & -> & -> & ->) (-> & -> & -> & -> & ->). repeat split.
  - intros s g. repeat split.
  - intros s a _. repeat split.
Qed.

Lemma crawl_more_same_answers (hops : Z) (now : string) (w w' : World) :
  crawl_more hops now w = (w', Ok tt) ->
  rawResponses (self w') = rawResponses (self w)
  /\ errors (self w') = errors (self w)
  /\ obj_keys (queued (self w')) = obj_keys (queued (self w))
  /\ globals w' = globals w.
Proof.
  destruct (crawl_more_eq hops now w) as (w3 & Hturns & ->). intros [= <-].
  assert (H3 : rawResponses (self w3) = rawResponses (self w)
               /\ errors (self w3) = errors (self w)
               /\ obj_keys (queued (self w3)) = obj_keys (queued (self w))
               /\ globals w3 = globals w).
  { revert Hturns.
    apply (requestMore_turns_related
             (fun w w' => rawResponses (self w') = rawResponses (self w)
                          /\ errors (self w') = errors (self w)
                          /\ obj_keys (queued (self w')) = obj_keys (queued (self w))
                          /\ globals w' = globals w)).
    - intros s. repeat split.
    - intros a b c (-> & -> & -> & ->) (-> & -> & -> & ->). repeat split.
    - intros s a h _ Hq. simpl. repeat split.
      apply obj_keys_set_present. congruence. }
  destruct (queued (self w)); exact H3.
Qed.

(** X10.  Throughout a traversal an address is in at most one of [queued],
    [rawResponses] and [errors], not counting the entries of [errors] that
    hold [undefined]; the queue has no key twice; and the entry address is
    recorded in [entryIP] and is a key of one of the three. *)
Theorem traversal_tracks_each_address_once (DEBUG : bool) (w : World) :
  reachable DEBUG w ->
  (forall addr,
      (obj_get (queued (self w)) addr <> None ->
       rawResponses (self w) !! addr = None
       /\ (errors (self w) !! addr = None \/ errors (self w) !! addr = Some JUndefined))
      /\ (rawResponses (self w) !! addr <> None ->
          errors (self w) !! addr = None \/ errors (self w) !! addr = Some JUndefined))
  /\ NoDup (obj_keys (queued (self w)))
  /\ exists entry, entryIP (self w) = Some entry /\ tracked (self w) entry = true.
Proof.
  intros Hw. destruct (reachable_well_tracked DEBUG w Hw) as [Hc Hk Ho Hs Hr Hqe Hao Hso He].
  split; [|split; [exact Hk|exact He]].
  intros addr. split; [|intros H; apply js_prop_undefined, Hao, H].
  intros Hq. split; [apply (queued_unanswered w Hc), Hq|apply js_prop_undefined, Hqe, Hq].
Qed.

Lemma traversal_tracks_each_address_once_witness :
  reachable true sample_refetched
  /\ NoDup (obj_keys (queued (self sample_refetched)))
  /\ exists entry, entryIP (self sample_refetched) = Some entry
                   /\ tracked (self sample_refetched) entry = true.
Proof.
  split; [exact sample_refetched_reachable|].
  exact (proj2 (traversal_tracks_each_address_once true sample_refetched
                  sample_refetched_reachable)).
Defined.

(** X11.  Throughout a traversal the addresses marked [REQUESTING] in the
    queue are exactly the addresses of the outstanding requests, no two
    requests are for the same address, and every other key of the queue is
    marked [QUEUED]. *)
Theorem requesting_means_outstanding (DEBUG : bool) (w : World) :
  reachable DEBUG w ->
  (forall addr,
      obj_get (queued (self w)) addr = Some REQUESTING
      <-> addr ∈ req_ipp <$> outstanding w)
  /\ NoDup (req_ipp <$> outstanding w)
  /\ (forall addr status,
         obj_get (queued (self w)) addr = Some status ->
         addr ∉ req_ipp <$> outstanding w ->
         status = QUEUED).
Proof.
  intros Hw. destruct (reachable_well_tracked DEBUG w Hw) as [Hc Hk Ho Hs Hr Hqe Hao Hso He].
  split; [|split; [apply (requests_distinct w Hc)|]].
  - intros addr. split; [apply Hr|].
    intros Hin. apply list_elem_of_fmap in Hin. destruct Hin as (r & Heq & Hin). subst addr.
    apply (requests_marked w Hc), Hin.
  - intros addr status Hst Hnot. destruct (Hs addr status Hst) as [-> | ->]; [reflexivity|].
    exfalso. apply Hnot, Hr, Hst.
Qed.

Lemma requesting_means_outstanding_witness :
  reachable true sample_answered
  /\ (obj_get (queued (self sample_answered)) "10.0.0.2:51235" = Some REQUESTING
      <-> "10.0.0.2:51235" ∈ req_ipp <$> outstanding sample_answered).
Proof.
  split; [exact sample_answered_reachable|].
  exact (proj1 (requesting_means_outstanding true sample_answered
                  sample_answered_reachable) "10.0.0.2:51235").
Defined.

Lemma deliver_emitted DEBUG (w w' : World) (i : nat) (r : Request) now resp :
  outstanding w !! i = Some r ->
  deliver DEBUG i now resp w = (w', Ok tt) ->
  exists rest, emitted w' = (emitted w ++ EvRequest resp :: rest)%list
               /\ List.filter is_EvRequest rest = [].
Proof.
  intros Hr Hd.
  destruct (deliver_session DEBUG w w' i r now resp Hr Hd)
    as (wm & _ & _ & _ & Hclosed & Hopen).
  destruct (queued (self wm)) as [|kv q].
  - destruct (Hclosed eq_refl) as (_ & ->). eexists. split; reflexivity.
  - destruct (Hopen ltac:(discriminate)) as (_ & ->). exists []. split; reflexivity.
Qed.

Lemma reachable_well_counted DEBUG (w : World) :
  reachable DEBUG w -> coded w -> well_counted w.
Proof.
  induction 1 as [g maxRequests ip now w Henter|w i now resp w' Hw IH [r Hr] Hd].
  - intros _. rewrite enter_eq in Henter. injection Henter as <-. split; simpl.
    + reflexivity.
    + intros addr. rewrite lookup_empty. discriminate.
  - intros Hcoded.
    destruct (deliver_emitted DEBUG w w' i r now resp Hr Hd) as (rest & Hem & Hrest).
    assert (Hresp : resp <> Failure JUndefined).
    { intros ->. apply (Hcoded (EvRequest (Failure JUndefined))); [|reflexivity].
      rewrite Hem. apply elem_of_app. right. apply list_elem_of_here. }
    destruct IH as [Hcount Hcodes].
    { intros e He. apply Hcoded. rewrite Hem. apply elem_of_app. left. exact He. }
    destruct (reachable_well_tracked DEBUG w Hw) as [Hc _ _ _ _ Hqe _ _ _].
    assert (Hq : obj_get (queued (self w)) (req_ipp r) <> None).
    { rewrite (requests_marked w Hc r (list_elem_of_lookup_2 _ _ _ Hr)). discriminate. }
    assert (Hraw : rawResponses (self w) !! req_ipp r = None)
      by (apply (queued_unanswered w Hc), Hq).
    assert (Herr : errors (self w) !! req_ipp r = None).
    { destruct (proj1 (js_prop_undefined _ _) (Hqe _ Hq)) as [H|H]; [exact H|].
      destruct (Hcodes _ H). }
    destruct (deliver_halves DEBUG w w' i r now resp Hr Hd) as (wm & _ & Hoffer & _ & Hmore).
    destruct (offer_peers_same_answers DEBUG _ _ _ _ Hoffer) as (Hraw1 & Herr1 & _).
    destruct (crawl_more_same_answers _ _ _ _ Hmore) as (Hraw2 & Herr2 & _).
    assert (Hn : answer_count w' = S (answer_count w)).
    { unfold answer_count. rewrite Hem, List.filter_app. simpl. rewrite Hrest.
      rewrite length_app. simpl. lia. }
    split.
    + rewrite Hn, Hcount, Hraw2, Hraw1, Herr2, Herr1.
      destruct resp as [code|body]; simpl;
        rewrite map_size_insert_None by assumption; lia.
    + intros addr. rewrite Herr2, Herr1. destruct resp as [code|body]; simpl; [|apply Hcodes].
      destruct (decide (req_ipp r = addr)) as [<-|Hne].
      * rewrite lookup_insert_eq. congruence.
      * rewrite lookup_insert_ne by exact Hne. apply Hcodes.
Qed.

(** X12.  In a traversal in which every answer so far was a document or an
    error with a code, every answer is stored under an address of its own:
    the number of ['request'] events equals the number of stored responses
    plus the number of stored errors, and no entry of [errors] holds
    [undefined]. *)
Theorem every_answer_stored_once (DEBUG : bool) (w : World) :
  reachable DEBUG w ->
  coded w ->
  answer_count w = (size (rawResponses (self w)) + size (errors (self w)))%nat
  /\ forall addr, errors (self w) !! addr <> Some JUndefined.
Proof.
  intros Hw Hc. destruct (reachable_well_counted DEBUG w Hw Hc) as [Ha Hcodes].
  split; assumption.
Qed.

Lemma sample_complete_reachable : reachable true sample_complete.
Proof.
  unfold sample_complete.
  set (X := mkPeer (JStr "10.0.0.2") (JNum 51235)).
  set (Y := mkPeer (JStr "10.0.0.3") JUndefined).
  set (Z := mkPeer (JStr "10.0.0.4:6561") JUndefined).
  set (t := "2016-01-01T00:00:09Z").
  set (w0 := (enter "10.0.0.1" "2016-01-01T00:00:00Z" (new_World no_globals None)).1).
  assert (H0 : reachable true w0) by (eapply reach_enter; reflexivity).
  set (w1 := (deliver true 0 t (Success (mkBody [X; Y] "entry")) w0).1).
  assert (H1 : reachable true w1).
  { apply (reach_deliver true w0 0 t (Success (mkBody [X; Y] "entry")));
      [exact H0|eexists; vm_compute; reflexivity|vm_compute; reflexivity]. }
  set (w2 := (deliver true 0 t (Success (mkBody [Y; Z] "X")) w1).1).
  assert (H2 : reachable true w2).
  { apply (reach_deliver true w1 0 t (Success (mkBody [Y; Z] "X")));
      [exact H1|eexists; vm_compute; reflexivity|vm_compute; reflexivity]. }
  set (w3 := (deliver true 0 t (Success (mkBody [] "Y")) w2).1).
  assert (H3 : reachable true w3).
  { apply (reach_deliver true w2 0 t (Success (mkBody [] "Y")));
      [exact H2|eexists; vm_compute; reflexivity|vm_compute; reflexivity]. }
  apply (reach_deliver true w3 0 t (Success (mkBody [] "Z")));
    [exact H3|eexists; vm_compute; reflexivity|vm_compute; reflexivity].
Qed.

Lemma coded_forallb (w : World) :
  forallb (fun e => negb (is_codeless e)) (emitted w) = true -> coded w.
Proof.
  intros H e He ->. rewrite forallb_forall in H.
  apply list_elem_of_In in He. specialize (H _ He). discriminate H.
Qed.

Lemma every_answer_stored_once_witness :
  reachable true sample_complete
  /\ coded sample_complete
  /\ answer_count sample_complete = 4%nat
  /\ answer_count sample_complete
     = (size (rawResponses (self sample_complete)) + size (errors (self sample_complete)))%nat.
Proof.
  assert (Hc : coded sample_complete) by (apply coded_forallb; vm_compute; reflexivity).
  split; [exact sample_complete_reachable|]. split; [exact Hc|].
  split; [vm_compute; reflexivity|].
  exact (proj1 (every_answer_stored_once true sample_complete sample_complete_reachable Hc)).
Defined.

(** In the sample traversal with an error without code, three answers have
    been delivered and two are stored. *)
Example sample_refetched_count :
  answer_count sample_refetched = 3%nat
  /\ size (rawResponses (self sample_refetched)) = 2%nat
  /\ size (errors (self sample_refetched)) = 1%nat.
Proof. vm_compute. repeat split. Qed.

Lemma reachable_keys_own DEBUG (w : World) :
  reachable DEBUG w ->
  (forall addr, tracked (self w) addr = true -> inherited addr = false)
  /\ (forall r, r ∈ outstanding w -> inherited (req_ipp r) = false).
Proof.
  intros Hw. destruct (reachable_well_tracked DEBUG w Hw) as [Hc Hk Ho Hs Hr Hqe Hao Hso He].
  split.
  - intros addr Ht. unfold tracked in Ht.
    destruct (rawResponses (self w) !! addr) eqn:E1; [apply Hso; left; congruence|].
    destruct (obj_get (queued (self w)) addr) eqn:E2; [apply Ho; congruence|].
    destruct (errors (self w) !! addr) eqn:E3; [apply Hso; right; congruence|].
    discriminate Ht.
  - intros r Hin. apply Ho. rewrite (requests_marked w Hc r Hin). discriminate.
Qed.

(** X19.  Throughout a traversal no key of [queued], [rawResponses] or
    [errors], and no address of an outstanding request, is the name of a
    member of [Object.prototype]; in particular [__proto__] is never
    assigned, and the test that [dequeue] makes on the address of an
    outstanding request is a test of an own property. *)
Theorem traversal_keys_are_own (DEBUG : bool) (w : World) :
  reachable DEBUG w ->
  (forall addr, tracked (self w) addr = true ->
     inherited addr = false /\ addr <> "__proto__")
  /\ (forall r, r ∈ outstanding w ->
        inherited (req_ipp r) = false
        /\ has_member (obj_get (queued (self w)) (req_ipp r)) (req_ipp r)
           = defined (obj_get (queued (self w)) (req_ipp r))).
Proof.
  intros Hw. destruct (reachable_keys_own DEBUG w Hw) as [Hkeys Hreqs].
  split.
  - intros addr Ht. pose proof (Hkeys addr Ht) as Hown.
    split; [exact Hown|]. intros ->. discriminate Hown.
  - intros r Hin. pose proof (Hreqs r Hin) as Hown.
    split; [exact Hown|]. apply has_member_own, Hown.
Qed.

Lemma traversal_keys_are_own_witness :
  reachable true sample_answered
  /\ inherited "10.0.0.2:51235" = false.
Proof.
  split; [exact sample_answered_reachable|].
  apply (proj1 (traversal_keys_are_own true sample_answered sample_answered_reachable)
           "10.0.0.2:51235").
  vm_compute. reflexivity.
Defined.

(** ** A traversal does not stall *)

Lemma queued_addresses_empty (this : Crawler) (addr : string) :
  queued_addresses this = [] ->
  obj_get (queued this) addr <> Some QUEUED.
Proof.
  unfold queued_addresses. intros Hnil Hq.
  assert (Hin : In addr (List.filter
            (fun k => bool_decide (obj_get (queued this) k = Some QUEUED))
            (obj_keys (queued this)))).
  { apply List.filter_In. split.
    - apply list_elem_of_In. destruct (decide (addr ∈ obj_keys (queued this))) as [H|H];
        [exact H|]. apply obj_get_keys in H. congruence.
    - apply bool_decide_eq_true_2, Hq. }
  rewrite Hnil in Hin. destruct Hin.
Qed.

Lemma obj_get_first {V} (o : list (string * V)) :
  o <> [] -> exists k v, obj_get o k = Some v.
Proof.
  destruct o as [|[k v] o]; [congruence|]. intros _. exists k, v.
  simpl. rewrite String.eqb_refl. reflexivity.
Qed.

(** X13.  With a cap of at least 1 a traversal never stalls: as long as the
    queue has a key, a request is outstanding, so a callback that calls
    [requestMore] again is still to run. *)
Theorem traversal_never_stalls (DEBUG : bool) (w : World) :
  reachable DEBUG w ->
  1 <= maxRequests (self w) ->
  queued (self w) <> [] ->
  outstanding w <> [].
Proof.
  induction 1 as [g maxRequests ip now w Henter|w i now resp w' Hw IH [r Hr] Hd].
  - rewrite enter_eq in Henter. injection Henter as <-. intros _ _. simpl.
    destruct (outstanding (new_World g maxRequests)); discriminate.
  - intros Hcap Hqueue Hnone.
    destruct (deliver_halves DEBUG w w' i r now resp Hr Hd) as (wm & Hq & Hoffer & _ & Hmore).
    pose proof (deliver_middle_well_tracked DEBUG w wm i r resp
                  (reachable_well_tracked DEBUG w Hw) Hr Hoffer) as Hwm.
    destruct Hwm as [Hc Hk _ Hs Hreq _ _ _ _].
    destruct (crawl_more_eq (req_hops r) now wm) as (w3 & Hturns & Heq).
    rewrite Heq in Hmore. injection Hmore as Hw'.
    rewrite requestMore_turns_admit in Hturns by exact Hk. injection Hturns as Hw3.
    destruct (queued (self wm)) as [|[k st] q] eqn:Hqm.
    { simpl in Hw3. rewrite take_nil in Hw3. simpl in Hw3. subst w' w3.
      simpl in Hqueue. rewrite Hqm in Hqueue. contradiction. }
    subst w'. rewrite <- Hqm in *. clear Hqm.
    fold (queued_addresses (self wm)) in Hw3.
    set (chosen := take (free_slots (self wm)) (queued_addresses (self wm))) in *.
    destruct (admitted_fields chosen (req_hops r + 1) wm) as (Ho & Hcur & _).
    rewrite Hw3 in Ho, Hcur. rewrite Hnone in Ho.
    symmetry in Ho. apply app_eq_nil in Ho. destruct Ho as [Hom Hch].
    apply fmap_nil_inv in Hch.
    assert (Hw3' : w3 = wm) by (rewrite <- Hw3, Hch; reflexivity).
    subst w3. rewrite Hw3' in Hcap, Hqueue.
    assert (Hfree : (0 < free_slots (self wm))%nat).
    { pose proof (requests_counted wm Hc) as Hcount. rewrite Hom in Hcount. simpl in Hcount.
      unfold free_slots. lia. }
    assert (Hnoq : queued_addresses (self wm) = []).
    { unfold chosen in Hch. destruct (queued_addresses (self wm)) as [|a l]; [reflexivity|].
      destruct (free_slots (self wm)); [lia|discriminate Hch]. }
    destruct (obj_get_first (queued (self wm)) Hqueue) as (k0 & st0 & Hget).
    destruct (Hs k0 st0 Hget) as [-> | ->].
    + eapply queued_addresses_empty; [exact Hnoq|exact Hget].
    + apply Hreq in Hget. rewrite Hom in Hget. apply elem_of_nil in Hget. exact Hget.
Qed.

Lemma traversal_never_stalls_witness :
  reachable true sample_answered
  /\ 1 <= maxRequests (self sample_answered)
  /\ queued (self sample_answered) <> []
  /\ outstanding sample_answered <> [].
Proof.
  assert (Hcap : 1 <= maxRequests (self sample_answered)) by (vm_compute; discriminate).
  assert (Hq : queued (self sample_answered) <> []) by (vm_compute; discriminate).
  split; [exact sample_answered_reachable|]. split; [exact Hcap|]. split; [exact Hq|].
  exact (traversal_never_stalls true sample_answered sample_answered_reachable Hcap Hq).
Defined.

(** ** Addresses and URLs of a traversal *)

Lemma forEach_invariant {S A} (P : S -> Prop) (arr : list A) (f : A -> M S unit) :
  (forall x s s', P s -> f x s = (s', Ok tt) -> P s') ->
  forall s s', P s -> forEach arr f s = (s', Ok tt) -> P s'.
Proof.
  intros Hf. induction arr as [|x arr IH]; intros s s' Hs; simpl.
  - intros [= <-]. exact Hs.
  - intros Hrun. apply bind_Ok in Hrun. destruct Hrun as (s1 & [] & Hx & Hrest).
    eapply IH; [eapply Hf; [exact Hs|exact Hx]|exact Hrest].
Qed.

Lemma tracked_with_queued (w : World) (a addr : string) :
  tracked (self (with_queued a w)) addr = true ->
  addr = a \/ tracked (self w) addr = true.
Proof.
  unfold tracked. simpl. rewrite obj_get_snoc.
  destruct (obj_get (queued (self w)) addr); [right; assumption|].
  destruct (String.eqb a addr) eqn:E; [|right; assumption].
  apply String.eqb_eq in E. left. congruence.
Qed.

Lemma crawlUrl_address (addr : string) :
  has_colon addr = true -> crawlUrl addr = "https://" ++ addr ++ "/crawl".
Proof. intros H. unfold crawlUrl, withDefaultPort. rewrite H. reflexivity. Qed.

Lemma tracked_queued (this : Crawler) (addr : string) (status : Z) :
  obj_get (queued this) addr = Some status -> tracked this addr = true.
Proof.
  intros H. unfold tracked. rewrite H. simpl.
  destruct (defined (rawResponses this !! addr)); reflexivity.
Qed.

Lemma normalizeIpp_ok_address (ip port : jsval) (g g' : Globals) (a : jsval) :
  ipp_in_order g = true ->
  normalizeIpp ip port g = (g', Ok a) ->
  ipp_in_order g' = true /\ is_address a = true.
Proof.
  intros Hg. destruct (truthy ip) eqn:Ht.
  - destruct ip as [| |b|n|s]; try discriminate Ht;
      try (unfold normalizeIpp; rewrite Ht; discriminate).
    assert (Hs : s <> "") by (destruct s; [discriminate Ht|discriminate]).
    rewrite normalizeIpp_string by exact Hs. cbv zeta. intros [= <- <-].
    unfold ipp_in_order, ipp, is_address. rewrite has_colon_normalized. split; reflexivity.
  - unfold normalizeIpp. rewrite Ht. unfold ipp_in_order in Hg.
    destruct (ipp g) as [v|] eqn:Hv; [|discriminate].
    intros [= <- <-]. unfold ipp_in_order. rewrite Hv. split; exact Hg.
Qed.

Lemma offer_peers_addressed DEBUG (resp : Response) (w w' : World) :
  addressed w -> offer_peers DEBUG resp w = (w', Ok tt) -> addressed w'.
Proof.
  destruct resp as [code|body]; simpl; [intros H [= <-]; exact H|].
  apply forEach_invariant. clear w w'. intros p w w' [Hi Ht Hr] Hrun.
  apply bind_Ok in Hrun. destruct Hrun as (w1 & a & Hnorm & Henq).
  unfold on_globals in Hnorm.
  destruct (normalizeIpp (peer_ip p) (peer_port p) (globals w)) as [g1 res] eqn:Hres.
  injection Hnorm as <- ->.
  destruct (normalizeIpp_ok_address _ _ _ _ _ Hi Hres) as [Hi1 Ha].
  rewrite enqueueIfNeeded_eq in Henq. injection Henq as <-.
  destruct (truthy a && negb _); split; simpl; try assumption.
  intros addr Haddr. apply tracked_with_queued in Haddr. simpl in Haddr.
  destruct Haddr as [->|Haddr]; [|apply Ht, Haddr].
  destruct a; try discriminate Ha. exact Ha.
Qed.

Lemma requestMore_turns_addressed (hops : Z) (keys : list string) (w w' : World) :
  addressed w -> forEach keys (requestMore_turn hops) w = (w', Ok tt) -> addressed w'.
Proof.
  intros Hw Hrun. revert Hw.
  apply (requestMore_turns_related (keeps addressed)) in Hrun; [exact Hrun| | |].
  - intros s H. exact H.
  - intros a b c Hab Hbc Ha. apply Hbc, Hab, Ha.
  - intros s addr h _ Hq [Hi Ht Hr].
    assert (Hc : has_colon addr = true) by (eapply Ht, tracked_queued, Hq).
    split; simpl.
    + exact Hi.
    + intros a.
      assert (Hback : tracked (self (crawled addr h s)) a = true ->
                      a = addr \/ tracked (self s) a = true).
      { unfold tracked. simpl. destruct (decide (addr = a)) as [->|Hne]; [left; reflexivity|].
        rewrite obj_get_set_ne by exact Hne. right. assumption. }
      intros Ha. destruct (Hback Ha) as [->|Hold]; [exact Hc|apply Ht, Hold].
    + intros r Hin. apply elem_of_app in Hin. destruct Hin as [Hin|Hin]; [apply Hr, Hin|].
      apply list_elem_of_singleton in Hin. subst r. simpl.
      split; [exact Hc|apply crawlUrl_address, Hc].
Qed.

(** X14.  In a process that starts with the module variable [ipp] in
    order, every address a traversal puts in [queued], [rawResponses] or
    [errors] has a colon, and every request it issues goes to
    "https://" + address + "/crawl" for the very address under which the
    answer will be stored: entering establishes this and every delivery
    keeps it. *)
Theorem traversal_addresses_carry_a_port (DEBUG : bool) :
  (forall g maxRequests ip now,
      ipp_in_order g = true ->
      addressed (enter ip now (new_World g maxRequests)).1)
  /\ (forall w w' i now resp,
         addressed w ->
         deliver DEBUG i now resp w = (w', Ok tt) ->
         addressed w').
Proof.
  split.
  - intros g maxRequests ip now Hg. rewrite enter_eq.
    pose proof (withDefaultPort_has_colon ip) as Hc.
    split; simpl.
    + exact Hg.
    + intros addr. unfold tracked. simpl.
      destruct (String.eqb (withDefaultPort ip) addr) eqn:E; [|discriminate].
      apply String.eqb_eq in E. subst addr. intros _. exact Hc.
    + intros r Hin. apply list_elem_of_singleton in Hin. subst r. simpl.
      split; [exact Hc|apply crawlUrl_address, Hc].
  - intros w w' i now resp Hw Hd.
    destruct (outstanding w !! i) as [r|] eqn:Hr.
    2:{ unfold deliver, bind, get in Hd. rewrite Hr in Hd. injection Hd as <-. exact Hw. }
    destruct (deliver_halves DEBUG w w' i r now resp Hr Hd) as (wm & Hq & Hoffer & _ & Hmore).
    destruct Hw as [Hi Ht Hreq].
    destruct (Hreq r (list_elem_of_lookup_2 _ _ _ Hr)) as [Hc _].
    assert (Hstored : addressed (stored (req_ipp r) resp (taken i resp w))).
    { split.
      - destruct resp; exact Hi.
      - intros addr Haddr. destruct (decide (req_ipp r = addr)) as [<-|Hne]; [exact Hc|].
        apply Ht. unfold tracked in *.
        destruct resp; simpl in Haddr;
          rewrite obj_get_delete_ne, lookup_insert_ne in Haddr by exact Hne; exact Haddr.
      - intros r' Hin. apply Hreq.
        assert (Hin' : r' ∈ delete i (outstanding w)) by (destruct resp; exact Hin).
        eapply list_elem_of_delete_inv, Hin'. }
    pose proof (offer_peers_addressed DEBUG resp _ wm Hstored Hoffer) as Hwm.
    destruct (crawl_more_eq (req_hops r) now wm) as (w3 & Hturns & Heq).
    rewrite Heq in Hmore. injection Hmore as <-.
    pose proof (requestMore_turns_addressed _ _ wm w3 Hwm Hturns) as [Hi3 Ht3 Hr3].
    destruct (queued (self wm)); split; simpl; assumption.
Qed.

Lemma traversal_addresses_carry_a_port_witness :
  ipp_in_order no_globals = true
  /\ addressed sample_entered
  /\ addressed sample_answered.
Proof.
  destruct (traversal_addresses_carry_a_port true) as [Henter Hdeliver].
  assert (He : addressed sample_entered) by (apply (Henter no_globals (Some 1)); reflexivity).
  split; [reflexivity|]. split; [exact He|].
  exact (Hdeliver sample_entered sample_answered 0%nat "2016-01-01T00:00:01Z"
           (Success sample_body) He sample_delivery).
Defined.

(** ** What one answer does to the maps *)

(** X15.  When a request fails, the callback returns: the error code is
    stored under the address in [errors], the address leaves the queue,
    and nothing else is learnt - [rawResponses], the other keys of the
    queue and the module variables are as they were. *)
Theorem failed_request_discovers_nothing (DEBUG : bool) (w : World) (i : nat)
    (r : Request) (now : string) (code : jsval) :
  outstanding w !! i = Some r ->
  obj_get (queued (self w)) (req_ipp r) <> None ->
  exists w',
    deliver DEBUG i now (Failure code) w = (w', Ok tt)
    /\ errors (self w') = <[req_ipp r := code]> (errors (self w))
    /\ rawResponses (self w') = rawResponses (self w)
    /\ obj_keys (queued (self w')) = obj_keys (obj_delete (queued (self w)) (req_ipp r))
    /\ globals w' = globals w.
Proof.
  intros Hr Hq.
  rewrite (deliver_eq DEBUG i now (Failure code) w r Hr).
  unfold crawl_callback, bind at 1. rewrite crawl_record_eq.
  change (queued (self (taken i (Failure code) w))) with (queued (self w)).
  rewrite (has_member_present _ _ Hq). cbn [offer_peers ret].
  set (wm := stored (req_ipp r) (Failure code) (taken i (Failure code) w)).
  destruct (crawl_more_eq (req_hops r) now wm) as (w3 & _ & Heq).
  eexists. split; [exact Heq|].
  destruct (crawl_more_same_answers _ _ _ _ Heq) as (Hraw & Herr & Hkeys & Hg).
  rewrite Hraw, Herr, Hkeys, Hg. repeat split.
Qed.

Lemma failed_request_discovers_nothing_witness :
  exists w',
    deliver true 0 "2016-01-01T00:00:05Z" (Failure (JStr "ETIMEDOUT")) sample_entered
    = (w', Ok tt)
    /\ errors (self w')
       = <[ "10.0.0.1:51235" := JStr "ETIMEDOUT" ]> (errors (self sample_entered)).
Proof.
  destruct (failed_request_discovers_nothing true sample_entered 0
              (mkRequest (crawlUrl "10.0.0.1:51235") "10.0.0.1:51235" 0)
              "2016-01-01T00:00:05Z" (JStr "ETIMEDOUT")) as (w' & Hd & Herr & _).
  - reflexivity.
  - vm_compute. discriminate.
  - exists w'. split; [exact Hd|exact Herr].
Defined.

Lemma normalizeIpp_truthy (ip port : jsval) (g g' : Globals) :
  truthy ip = true ->
  (normalizeIpp ip port g).2 = (normalizeIpp ip port g').2.
Proof.
  intros Ht. unfold normalizeIpp. rewrite Ht. destruct ip; reflexivity.
Qed.

Lemma normalizeIpp_truthy_result (ip port : jsval) (g : Globals) (a : jsval) :
  truthy ip = true -> (normalizeIpp ip port g).2 = Ok a ->
  truthy a = true /\ inherited (ToString a) = false.
Proof.
  intros Ht. destruct ip as [| |b|n|s];
    try (unfold normalizeIpp; rewrite Ht; discriminate).
  assert (Hs : s <> "") by (destruct s; [discriminate Ht|discriminate]).
  rewrite normalizeIpp_string by exact Hs. cbv zeta. intros [= <-]. split.
  - simpl. destruct (before_colon s); reflexivity.
  - apply inherited_no_colon. cbn [ToString]. apply has_colon_normalized.
Qed.

Lemma seen_own_tracked (this : Crawler) (addr : string) :
  inherited addr = false -> seen this addr = true -> tracked this addr = true.
Proof.
  intros Hi. unfold seen, tracked, has_member, has_value. rewrite Hi, !orb_false_r.
  destruct (rawResponses this !! addr), (obj_get (queued this) addr),
    (errors this !! addr); simpl; auto.
Qed.

Lemma tracked_after_enqueueIfNeeded DEBUG (a : jsval) (w w' : World) :
  truthy a = true -> inherited (ToString a) = false ->
  enqueueIfNeeded DEBUG a w = (w', Ok tt) ->
  tracked (self w') (ToString a) = true.
Proof.
  intros Ha Hi. rewrite enqueueIfNeeded_eq, Ha.
  destruct (seen (self w) (ToString a)) eqn:Ht; cbn [andb negb]; intros [= <-];
    [apply seen_own_tracked; assumption|].
  apply seen_false in Ht. destruct Ht as (_ & _ & Hq & _).
  unfold tracked. simpl. rewrite obj_get_snoc, Hq, String.eqb_refl. simpl.
  destruct (defined (rawResponses (self w) !! ToString a)); reflexivity.
Qed.

Lemma offered_peers_tracked DEBUG (peers : list Peer) (w w' : World) :
  forEach peers (fun p =>
      let* a := on_globals (normalizeIpp (peer_ip p) (peer_port p)) in
      enqueueIfNeeded DEBUG a) w = (w', Ok tt) ->
  forall p g a,
    p ∈ peers -> truthy (peer_ip p) = true ->
    (normalizeIpp (peer_ip p) (peer_port p) g).2 = Ok a ->
    tracked (self w') (ToString a) = true.
Proof.
  revert w. induction peers as [|q peers IH]; intros w Hrun p g a Hin Ht Ha.
  - apply elem_of_nil in Hin. destruct Hin.
  - cbn [forEach] in Hrun. apply bind_Ok in Hrun. destruct Hrun as (w1 & [] & Hq & Hrest).
    apply elem_of_cons in Hin. destruct Hin as [->|Hin]; [|exact (IH w1 Hrest p g a Hin Ht Ha)].
    apply bind_Ok in Hq. destruct Hq as (w0 & a' & Hnorm & Henq).
    assert (a' = a) as ->.
    { unfold on_globals in Hnorm.
      rewrite (normalizeIpp_truthy _ _ g (globals w) Ht) in Ha.
      destruct (normalizeIpp (peer_ip q) (peer_port q) (globals w)) as [g1 res].
      injection Hnorm as _ ->. simpl in Ha. congruence. }
    destruct (normalizeIpp_truthy_result _ _ _ _ Ht Ha) as [Hta Hia].
    pose proof (tracked_after_enqueueIfNeeded DEBUG a w0 w1 Hta Hia Henq) as Hnow.
    revert Hnow.
    apply (offer_peers_related DEBUG stays_tracked
             (cr_refl _ stays_tracked_relation) (cr_trans _ stays_tracked_relation)
             (Success (mkBody peers "")) (cr_globals _ stays_tracked_relation)
             (cr_enqueue _ stays_tracked_relation) w1 w' (Ok tt) Hrest).
Qed.

(** X16.  When a request succeeds and the callback returns, the document
    is stored under the address in [rawResponses], [errors] is as it was,
    and every peer of the document with an [ip] is tracked afterwards at
    the address [normalizeIpp] gives it: no peer named in an answer is
    lost. *)
Theorem answered_peers_are_tracked (DEBUG : bool) (w w' : World) (i : nat)
    (r : Request) (now : string) (body : Body) :
  outstanding w !! i = Some r ->
  deliver DEBUG i now (Success body) w = (w', Ok tt) ->
  rawResponses (self w') = <[req_ipp r := body]> (rawResponses (self w))
  /\ errors (self w') = errors (self w)
  /\ forall p g a,
       p ∈ overlay_active body -> truthy (peer_ip p) = true ->
       (normalizeIpp (peer_ip p) (peer_port p) g).2 = Ok a ->
       tracked (self w') (ToString a) = true.
Proof.
  intros Hr Hd.
  destruct (deliver_halves DEBUG w w' i r now (Success body) Hr Hd)
    as (wm & Hq & Hoffer & _ & Hmore).
  destruct (offer_peers_same_answers DEBUG _ _ _ _ Hoffer) as (Hraw1 & Herr1 & _).
  destruct (crawl_more_same_answers _ _ _ _ Hmore) as (Hraw2 & Herr2 & _).
  split; [rewrite Hraw2, Hraw1; reflexivity|].
  split; [rewrite Herr2, Herr1; reflexivity|].
  intros p g a Hin Ht Ha.
  apply (crawl_more_related stays_tracked stays_tracked_relation _ _ wm w' (Ok tt) Hmore).
  exact (offered_peers_tracked DEBUG _ _ wm Hoffer p g a Hin Ht Ha).
Qed.

Lemma answered_peers_are_tracked_witness :
  tracked (self sample_answered) "10.0.0.2:51235" = true
  /\ tracked (self sample_answered) "10.0.0.3:6561" = true.
Proof.
  destruct (answered_peers_are_tracked true sample_entered sample_answered 0
              (mkRequest (crawlUrl "10.0.0.1:51235") "10.0.0.1:51235" 0)
              "2016-01-01T00:00:01Z" sample_body eq_refl sample_delivery)
    as (_ & _ & Hpeers).
  split.
  - apply (Hpeers (mkPeer (JStr "10.0.0.2") JUndefined) no_globals (JStr "10.0.0.2:51235"));
      [apply list_elem_of_here|reflexivity|reflexivity].
  - apply (Hpeers (mkPeer (JStr "10.0.0.3:6561") JUndefined) no_globals (JStr "10.0.0.3:6561"));
      [apply list_elem_of_further, list_elem_of_here|reflexivity|reflexivity].
Defined.

Lemma normalizeIpp_not_a_string (ip port : jsval) (g : Globals) :
  truthy ip = true -> (forall s, ip <> JStr s) ->
  normalizeIpp ip port g = (g, Throw (TypeError "ip.split is not a function")).
Proof.
  intros Ht Hs. unfold normalizeIpp. rewrite Ht.
  destruct ip; try reflexivity. destruct (Hs s). reflexivity.
Qed.

Lemma normalizeIpp_never_exits (ip port : jsval) (g : Globals) (msg : string) :
  (normalizeIpp ip port g).2 <> Exit msg.
Proof.
  unfold normalizeIpp. destruct (truthy ip).
  - destruct ip; discriminate.
  - destruct (ipp g); discriminate.
Qed.

Lemma offered_peers_throw DEBUG (peers : list Peer) (p : Peer) (w : World) :
  p ∈ peers -> truthy (peer_ip p) = true -> (forall s, peer_ip p <> JStr s) ->
  exists w' e,
    forEach peers (fun p =>
        let* a := on_globals (normalizeIpp (peer_ip p) (peer_port p)) in
        enqueueIfNeeded DEBUG a) w = (w', Throw e).
Proof.
  intros Hin Ht Hs. revert w. induction peers as [|q peers IH]; intros w.
  - apply elem_of_nil in Hin. destruct Hin.
  - cbn [forEach]. unfold bind at 1 2, on_globals.
    destruct (normalizeIpp (peer_ip q) (peer_port q) (globals w)) as [g1 [a|e|msg]] eqn:Hnorm.
    + rewrite enqueueIfNeeded_eq.
      apply elem_of_cons in Hin. destruct Hin as [->|Hin]; [|apply (IH Hin)].
      rewrite normalizeIpp_not_a_string in Hnorm by assumption. discriminate.
    + eauto.
    + destruct (normalizeIpp_never_exits (peer_ip q) (peer_port q) (globals w) msg).
      rewrite Hnorm. reflexivity.
Qed.

(** X17.  A document with a peer entry whose [ip] is truthy but not a
    string makes the callback throw: the document is already stored and
    the request counted as answered, but [requestMore] is never reached,
    so no waiting address is admitted and no ['done'] is emitted on this
    answer. *)
Theorem malformed_peer_aborts_callback (DEBUG : bool) (w : World) (i : nat)
    (r : Request) (now : string) (body : Body) (p : Peer) :
  outstanding w !! i = Some r ->
  obj_get (queued (self w)) (req_ipp r) <> None ->
  p ∈ overlay_active body ->
  truthy (peer_ip p) = true ->
  (forall s, peer_ip p <> JStr s) ->
  exists w' e,
    deliver DEBUG i now (Success body) w = (w', Throw e)
    /\ rawResponses (self w') = <[req_ipp r := body]> (rawResponses (self w))
    /\ currentRequests (self w') = currentRequests (self w) - 1
    /\ outstanding w' = delete i (outstanding w)
    /\ emitted w' = (emitted w ++ [EvRequest (Success body)])%list.
Proof.
  intros Hr Hq Hin Ht Hs.
  rewrite (deliver_eq DEBUG i now (Success body) w r Hr).
  unfold crawl_callback, bind at 1. rewrite crawl_record_eq.
  change (queued (self (taken i (Success body) w))) with (queued (self w)).
  destruct (obj_get (queued (self w)) (req_ipp r)) as [st|] eqn:Hst; [|congruence].
  cbn [defined].
  set (wm := stored (req_ipp r) (Success body) (taken i (Success body) w)).
  destruct (offered_peers_throw DEBUG (overlay_active body) p wm Hin Ht Hs) as (w' & e & Hrun).
  exists w', e.
  assert (Hoffer : offer_peers DEBUG (Success body) wm = (w', Throw e)) by exact Hrun.
  rewrite Hoffer. split; [reflexivity|].
  destruct (offer_peers_same_answers DEBUG _ _ _ _ Hoffer) as (-> & _ & -> & -> & ->).
  repeat split.
Qed.

Lemma malformed_peer_aborts_callback_witness :
  exists w' e,
    deliver true 0 "2016-01-01T00:00:01Z"
      (Success (mkBody [mkPeer (JStr "10.0.0.2") JUndefined; mkPeer (JNum 7) JUndefined] "{}"))
      sample_entered = (w', Throw e)
    /\ emitted w'
       = (emitted sample_entered
          ++ [EvRequest (Success (mkBody [mkPeer (JStr "10.0.0.2") JUndefined;
                                          mkPeer (JNum 7) JUndefined] "{}"))])%list.
Proof.
  destruct (malformed_peer_aborts_callback true sample_entered 0
              (mkRequest (crawlUrl "10.0.0.1:51235") "10.0.0.1:51235" 0)
              "2016-01-01T00:00:01Z"
              (mkBody [mkPeer (JStr "10.0.0.2") JUndefined; mkPeer (JNum 7) JUndefined] "{}")
              (mkPeer (JNum 7) JUndefined))
    as (w' & e & Hd & _ & _ & _ & Hev).
  - reflexivity.
  - vm_compute. discriminate.
  - apply list_elem_of_further, list_elem_of_here.
  - reflexivity.
  - intros s. discriminate.
  - exists w', e. split; [exact Hd|exact Hev].
Defined.
